(** * Degrees of separation and tic-tac-toe: a shallow embedding

    Two independent programs are embedded and verified here:

    - [Degrees]: the breadth-first search of [degrees.py]
      ([shortest_path], [neighbors_for_person]) over the in-memory tables
      [people] and [movies];
    - [TicTacToe]: the board functions and the alpha-beta search of
      [tictactoe.py] ([player], [actions], [result], [winner], [terminal],
      [utility], [minimax], [max_value], [min_value]).

    Python sets are [gset]s; the order in which a [for] loop visits a set is
    not fixed by the language, so every loop over a set whose order matters
    is taken through a function [iter] that is only assumed to list the
    elements of the set. *)

From stdpp Require Import gmap strings list fin_maps fin_sets.
From Stdlib Require Import ZArith Lia.

Module Degrees.

(** ** The graph store: the module-level dictionaries of [degrees.py] *)

Abbreviation person_id := string (only parsing).
Abbreviation movie_id := string (only parsing).

(** [people[id]] is a dictionary with keys ["name"], ["birth"], ["movies"]. *)
Record person := Person {
  p_name : string;
  p_birth : string;
  p_movies : gset movie_id
}.

(** [movies[id]] is a dictionary with keys ["title"], ["year"], ["stars"]. *)
Record movie := Movie {
  m_title : string;
  m_year : string;
  m_stars : gset person_id
}.

Record store := Store {
  names : gmap string (gset person_id);
  people : gmap person_id person;
  movies : gmap movie_id movie
}.

(** ** Exceptions and results *)

Inductive exn :=
| KeyError          (* a dictionary lookup on an absent key *)
| NoMovies.         (* Exception("source has no movies") *)

Inductive res (A : Type) :=
| Ok (a : A)
| Raise (e : exn).
Arguments Ok {A} a.
Arguments Raise {A} e.

(** ** Search nodes and the FIFO frontier *)

(** Modelled from the spec: the classes [Node] and [QueueFrontier] that
    [degrees.py] imports from [util] are not among the source files.  The
    spec describes a search node as the tuple of the current person, the
    movie used to reach it and a reference to the parent node (none for the
    root), and the frontier as a FIFO collection of nodes with a membership
    check on the person. *)
#[warnings="-register-all"]
Inductive node := Node {
  state : person_id;
  parent : option node;
  action : option movie_id
}.

(** Modelled from the spec: [QueueFrontier.add] of the absent [util]; the
    frontier is first in, first out, so a node is added at the end and
    [remove] takes the head (the [n :: rest] of [step] below). *)
Definition frontier_add (n : node) (frontier : list node) : list node :=
  frontier ++ [n].

(** Modelled from the spec: [QueueFrontier.contains_state] of the absent
    [util], the frontier membership check on the person of a node. *)
Definition contains_state (frontier : list node) (s : person_id) : bool :=
  existsb (λ n, bool_decide (state n = s)) frontier.

(** ** [neighbors_for_person] *)

(** The two nested loops that fill the set [neighbors].  Both loops run over
    sets; their result is a set (or the first [KeyError]), which does not
    depend on the order of the visit. *)
Definition add_stars (m : movie_id) (nb : gset (movie_id * person_id))
    (stars : list person_id) : gset (movie_id * person_id) :=
  foldl (λ acc q, acc ∪ {[ (m, q) ]}) nb stars.

Definition neighbors_for_person (st : store) (pid : person_id)
    : res (gset (movie_id * person_id)) :=
  match people st !! pid with
  | None => Raise KeyError
  | Some p =>
      foldl (λ acc m,
               match acc with
               | Raise e => Raise e
               | Ok nb =>
                   match movies st !! m with
                   | None => Raise KeyError
                   | Some mv => Ok (add_stars m nb (elements (m_stars mv)))
                   end
               end)
            (Ok ∅) (elements (p_movies p))
  end.

(** ** [shortest_path] *)

(** A hop of a returned path is the Python tuple [(node.action, node.state)];
    the action of the root node is [None]. *)
Abbreviation hop := (option movie_id * person_id)%type (only parsing).

Inductive outcome :=
| Path (path : list hop)      (* return path *)
| NotFound                    (* return None *)
| Raised (e : exn).           (* an exception leaves the function *)

(** Lines 175-177: every node up to the root, the root included. *)
Fixpoint chain_all (n : node) : list hop :=
  match n with
  | Node s p a =>
      (a, s) :: match p with Some q => chain_all q | None => [] end
  end.

(** Lines 190-193: every node up to the root that has an action. *)
Fixpoint chain_moves (n : node) : list hop :=
  match n with
  | Node s p a =>
      match a with Some m => [(Some m, s)] | None => [] end
      ++ match p with Some q => chain_moves q | None => [] end
  end.

(** The state of the [while True] loop.  [expanded] is a ghost log: the
    nodes [neighbors_for_person] has been called on, oldest first, each as
    its pair [(node.action, node.state)]. *)
Record search_state := SearchState {
  frontier : list node;
  explored_people : gset person_id;
  explored_movies : gset movie_id;
  expanded : list hop
}.

Inductive step_result :=
| Continue (s : search_state)
| Return (o : outcome) (log : list hop).

Section Search.

(** The order in which the loops visit the set [neighbors] built for a
    person.  The order of a Python set depends on how the set was built, so
    it is a function of the person expanded and of the set. *)
Variable iter :
  person_id → gset (movie_id * person_id) → list (movie_id * person_id).

(** Lines 198-205. *)
Definition enqueue_children (n : node) (nbrs : list (movie_id * person_id))
    (ep : gset person_id) (em : gset movie_id) (fr : list node) : list node :=
  foldl (λ fr '(m, q),
           if bool_decide (q ∉ ep) && bool_decide (m ∉ em)
              && negb (contains_state fr q)
           then frontier_add (Node q (Some n) (Some m)) fr
           else fr)
        fr nbrs.

(** One turn of the loop, lines 152-205. *)
Definition step (st : store) (target : person_id) (s : search_state)
    : step_result :=
  match frontier s with
  | [] => Return NotFound (expanded s)
  | n :: rest =>
      let actor := state n in
      let mv := action n in
      if bool_decide (actor ∈ explored_people s)
         && match mv with
            | None => true
            | Some m => bool_decide (m ∈ explored_movies s)
            end
      then Continue (SearchState rest (explored_people s) (explored_movies s)
                                 (expanded s))
      else
        let ep := explored_people s ∪ {[ actor ]} in
        let em := match mv with
                  | Some m => explored_movies s ∪ {[ m ]}
                  | None => explored_movies s
                  end in
        let hit :=
          match mv with
          | None => Ok false
          | Some m =>
              match movies st !! m with
              | None => Raise KeyError
              | Some rec => Ok (bool_decide (target ∈ m_stars rec))
              end
          end in
        match hit with
        | Raise e => Return (Raised e) (expanded s)
        | Ok true => Return (Path (rev (chain_all n))) (expanded s)
        | Ok false =>
            let log := expanded s ++ [(mv, actor)] in
            match neighbors_for_person st actor with
            | Raise e => Return (Raised e) log
            | Ok nb =>
                let l := iter actor nb in
                if existsb (λ '(_, q), bool_decide (q = target)) l
                then
                  let first :=
                    match find (λ '(_, q), bool_decide (q = target)) l with
                    | Some (m, q) => [(Some m, q)]
                    | None => []
                    end in
                  Return (Path (rev (first ++ chain_moves n))) log
                else
                  Continue (SearchState (enqueue_children n l ep em rest)
                                        ep em log)
            end
        end
  end.

(** The [while True] loop, run for at most [fuel] turns. *)
Fixpoint run (fuel : nat) (st : store) (target : person_id)
    (s : search_state) : option (outcome * list hop) :=
  match fuel with
  | 0 => None
  | S fuel' =>
      match step st target s with
      | Return o log => Some (o, log)
      | Continue s' => run fuel' st target s'
      end
  end.

(** [shortest_path] together with the ghost log of expanded nodes. *)
Definition shortest_path_log (fuel : nat) (st : store)
    (source target : person_id) : option (outcome * list hop) :=
  if bool_decide (source = target) then Some (Path [], [])
  else
    match people st !! source with
    | None => Some (Raised KeyError, [])
    | Some p =>
        if bool_decide (p_movies p = ∅) then Some (Raised NoMovies, [])
        else run fuel st target
                 (SearchState [Node source None None] ∅ ∅ [])
    end.

Definition shortest_path (fuel : nat) (st : store)
    (source target : person_id) : option outcome :=
  fst <$> shortest_path_log fuel st source target.

End Search.

(** A small store used in examples: Ann and Bob star in m1, Bob and Cy in
    m2, Dee, Fay and Gus in m3, and Eve has no movie. *)
Definition mk_person (ms : list movie_id) : person :=
  Person "" "" (list_to_set ms).
Definition mk_movie (ps : list person_id) : movie :=
  Movie "" "" (list_to_set ps).

Definition demo : store :=
  Store ∅
    (list_to_map [("ann", mk_person ["m1"]); ("bob", mk_person ["m1"; "m2"]);
                  ("cy", mk_person ["m2"]); ("dee", mk_person ["m3"]);
                  ("fay", mk_person ["m3"]); ("gus", mk_person ["m3"]);
                  ("eve", mk_person [])])
    (list_to_map [("m1", mk_movie ["ann"; "bob"]);
                  ("m2", mk_movie ["bob"; "cy"]);
                  ("m3", mk_movie ["dee"; "fay"; "gus"])]).


(** ** [load_data], [person_id_for_name] and the report of [main] *)

(** The rows that [csv.DictReader] yields for [people.csv], [movies.csv] and
    [stars.csv]; reading the files is left out. *)
Record people_row := PeopleRow {
  pr_id : string;
  pr_name : string;
  pr_birth : string
}.

Record movies_row := MoviesRow {
  mr_id : string;
  mr_title : string;
  mr_year : string
}.

Record stars_row := StarsRow {
  sr_person_id : string;
  sr_movie_id : string
}.

(** The tables before [load_data] runs, lines 8-14. *)
Definition empty_store : store := Store ∅ ∅ ∅.

Section Loader.

(** [str.lower]. *)
Variable lower : string → string.

(** Lines 25-33, one row of [people.csv]. *)
Definition load_person (st : store) (row : people_row) : store :=
  let people' :=
    <[pr_id row := Person (pr_name row) (pr_birth row) ∅]> (people st) in
  let key := lower (pr_name row) in
  let names' :=
    match names st !! key with
    | None => <[key := {[ pr_id row ]}]> (names st)
    | Some ids => <[key := ids ∪ {[ pr_id row ]}]> (names st)
    end in
  Store names' people' (movies st).

(** Lines 39-43, one row of [movies.csv]. *)
Definition load_movie (st : store) (row : movies_row) : store :=
  Store (names st) (people st)
        (<[mr_id row := Movie (mr_title row) (mr_year row) ∅]> (movies st)).

(** Lines 49-53, one row of [stars.csv]: the [KeyError] of either lookup is
    caught, but the first statement has run when the second one raises. *)
Definition load_star (st : store) (row : stars_row) : store :=
  let pid := sr_person_id row in
  let mid := sr_movie_id row in
  match people st !! pid with
  | None => st
  | Some p =>
      let people' :=
        <[pid := Person (p_name p) (p_birth p) (p_movies p ∪ {[ mid ]})]>
          (people st) in
      match movies st !! mid with
      | None => Store (names st) people' (movies st)
      | Some mv =>
          Store (names st) people'
                (<[mid := Movie (m_title mv) (m_year mv)
                                (m_stars mv ∪ {[ pid ]})]> (movies st))
      end
  end.

Definition load_data (people_rows : list people_row)
    (movies_rows : list movies_row) (stars_rows : list stars_row)
    (st : store) : store :=
  foldl load_star
        (foldl load_movie (foldl load_person st people_rows) movies_rows)
        stars_rows.

(** [person_id_for_name]; [answer] is what [input("Intended Person ID: ")]
    returns, and the lines printed are left out.  Listing the candidates
    looks each of them up in [people]. *)
Definition person_id_for_name (st : store) (name answer : string)
    : res (option person_id) :=
  let person_ids :=
    match names st !! lower name with Some ids => ids | None => ∅ end in
  match elements person_ids with
  | [] => Ok None
  | [person_id] => Ok (Some person_id)
  | _ =>
      if forallb (λ id, bool_decide (is_Some (people st !! id)))
                 (elements person_ids)
      then Ok (if bool_decide (answer ∈ person_ids) then Some answer
               else None)
      else Raise KeyError
  end.

End Loader.

(** Lines 82-87 of [main]: the persons and the movie of every line of the
    report, for the path [[(None, source)] + path]. *)
Fixpoint describe_path (st : store) (prev : person_id) (path : list hop)
    : res (list (string * string * string)) :=
  match path with
  | [] => Ok []
  | (a, q) :: rest =>
      match people st !! prev, people st !! q,
            a ≫= (λ m, movies st !! m) with
      | Some person1, Some person2, Some mv =>
          match describe_path st q rest with
          | Ok lines =>
              Ok ((p_name person1, p_name person2, m_title mv) :: lines)
          | Raise e => Raise e
          end
      | _, _, _ => Raise KeyError
      end
  end.

(** Rows used in examples: two persons share the name Ann, a star row names
    the unknown movie m9 and another the unknown person zed. *)
Definition demo_people_rows : list people_row :=
  [PeopleRow "ann" "Ann" "1970"; PeopleRow "bob" "Bob" "1971";
   PeopleRow "cy" "ANN" ""].
Definition demo_movies_rows : list movies_row :=
  [MoviesRow "m1" "One" "2000"].
Definition demo_stars_rows : list stars_row :=
  [StarsRow "ann" "m1"; StarsRow "bob" "m1"; StarsRow "bob" "m9";
   StarsRow "zed" "m1"].

(** ** The graph of the specification *)

(** Person [p] is in the star set of movie [m]. *)
Definition stars_in (st : store) (m : movie_id) (p : person_id) : bool :=
  match movies st !! m with
  | Some mv => bool_decide (p ∈ m_stars mv)
  | None => false
  end.

(** Movie [m] is in the movie set of person [p]. *)
Definition acts_in (st : store) (p : person_id) (m : movie_id) : bool :=
  match people st !! p with
  | Some pr => bool_decide (m ∈ p_movies pr)
  | None => false
  end.

(** The graph invariant of the data model: the "starred in" relation is the
    same in both tables. *)
Definition graph_invariant (st : store) : Prop :=
  ∀ p m, acts_in st p m = stars_in st m p.

(** The same, as a check that runs on a concrete store. *)
Definition graph_invariant_b (st : store) : bool :=
  forallb (λ '(p, pr), forallb (λ m, stars_in st m p) (elements (p_movies pr)))
          (map_to_list (people st))
  && forallb (λ '(m, mv), forallb (λ p, acts_in st p m) (elements (m_stars mv)))
             (map_to_list (movies st)).

(** What [load_data] keeps whatever the rows are: a movie's star set holds
    a person exactly when the movie has a record and the person's movie set
    holds the movie.  A store that keeps the graph invariant has this
    property, and a store that has it breaks the graph invariant only by a
    movie set that names a movie without a record. *)
Definition stars_kept (st : store) : Prop :=
  ∀ p m, stars_in st m p = true
         ↔ acts_in st p m = true ∧ is_Some (movies st !! m).

(** Co-stars: two persons in the star set of one movie. *)
Definition costar (st : store) (a b : person_id) : Prop :=
  ∃ m, stars_in st m a = true ∧ stars_in st m b = true.

(** [walk st s v n]: [v] is reached from [s] by [n] co-star hops. *)
Inductive walk (st : store) (s : person_id) : person_id → nat → Prop :=
| walk_here : walk st s s 0
| walk_hop u v n : walk st s u n → costar st u v → walk st s v (S n).

Definition connected (st : store) (a b : person_id) : Prop :=
  ∃ n, walk st a b n.


(** [d] is the shortest-path distance from [a] to [b]. *)
Definition distance (st : store) (a b : person_id) (d : nat) : Prop :=
  walk st a b d ∧ ∀ n, walk st a b n → d ≤ n.

(** [valid_path st prev target path]: starting from [prev], every hop names a
    movie whose star set holds both the person before the hop and the person
    of the hop, and the last person is [target]. *)
Fixpoint valid_path (st : store) (prev target : person_id) (path : list hop)
    : Prop :=
  match path with
  | [] => prev = target
  | (Some m, p) :: rest =>
      stars_in st m prev = true ∧ stars_in st m p = true
      ∧ valid_path st p target rest
  | (None, _) :: _ => False
  end.

(** The reads of [movies[m]["stars"]] that the calls of
    [neighbors_for_person] logged in [log] perform: one for every movie of
    every person of the log. *)
Definition star_reads (st : store) (log : list person_id) : list movie_id :=
  log ≫= λ a, match people st !! a with
              | Some pr => elements (p_movies pr)
              | None => []
              end.

(** ** Nodes *)

Fixpoint depth (n : node) : nat :=
  match n with
  | Node _ p _ => match p with Some q => S (depth q) | None => 0 end
  end.

(** A node built by the search from the root of [source]: the root has no
    action, every other node has the movie that joins it to its parent. *)
Fixpoint chain_ok (st : store) (source : person_id) (n : node) : Prop :=
  match n with
  | Node s p a =>
      match p, a with
      | None, None => s = source
      | Some q, Some m =>
          stars_in st m (state q) = true ∧ stars_in st m s = true
          ∧ chain_ok st source q
      | _, _ => False
      end
  end.

Definition visited (s : search_state) (q : person_id) : Prop :=
  q ∈ explored_people s ∨ q ∈ state <$> frontier s.

(** ** The invariant of the search loop *)

(** The frontier holds nodes of depth [d] followed by nodes of depth [d+1];
    every person within [d-1] hops of the source is explored, every person
    at [d] hops is explored or queued, and no explored person is a co-star
    of the target. *)
Record search_inv (st : store) (source target : person_id) (d : nat)
    (σ : search_state) : Prop := SearchInv {
  inv_levels : ∃ A B, frontier σ = A ++ B
                 ∧ Forall (λ n, depth n = d) A
                 ∧ Forall (λ n, depth n = S d) B;
  inv_chain : Forall (chain_ok st source) (frontier σ);
  inv_nodup : NoDup (state <$> frontier σ);
  inv_fresh : ∀ n, n ∈ frontier σ → state n ∉ explored_people σ;
  inv_known : ∀ a, visited σ a → is_Some (people st !! a);
  inv_miss : ∀ u m, u ∈ explored_people σ → stars_in st m u = true →
               stars_in st m target = false;
  inv_action : ∀ n m, n ∈ frontier σ → action n = Some m →
                 stars_in st m target = false
                 ∧ ∀ q, stars_in st m q = true → visited σ q;
  inv_movies : ∀ m q, m ∈ explored_movies σ → stars_in st m q = true →
                 visited σ q;
  inv_closed : ∀ u v, u ∈ explored_people σ → costar st u v → visited σ v;
  inv_below : ∀ v j, walk st source v j → j < d → v ∈ explored_people σ;
  inv_level : ∀ v, walk st source v d → visited σ v;
  inv_lower : ∀ n j, n ∈ frontier σ → walk st source (state n) j →
                depth n ≤ j;
  inv_log_nodup : NoDup (snd <$> expanded σ);
  inv_log_sub : ∀ a, a ∈ snd <$> expanded σ → a ∈ explored_people σ
}.

Arguments inv_levels {st source target} d σ _.
Arguments inv_chain {st source target} d σ _.
Arguments inv_nodup {st source target} d σ _.
Arguments inv_fresh {st source target} d σ _.
Arguments inv_known {st source target} d σ _.
Arguments inv_miss {st source target} d σ _.
Arguments inv_action {st source target} d σ _.
Arguments inv_movies {st source target} d σ _.
Arguments inv_closed {st source target} d σ _.
Arguments inv_below {st source target} d σ _.
Arguments inv_level {st source target} d σ _.
Arguments inv_lower {st source target} d σ _.
Arguments inv_log_nodup {st source target} d σ _.
Arguments inv_log_sub {st source target} d σ _.

(** The tables that [load_data] builds from the rows of the example: Bob's
    movie set names m9, which has no record. *)
Definition demo_loaded : store :=
  load_data (λ s, s) demo_people_rows demo_movies_rows demo_stars_rows
            empty_store.

(** ** What [load_data] establishes *)

(** Every id listed under a name has a record. *)
Definition names_known (st : store) : Prop :=
  ∀ k ids id, names st !! k = Some ids → id ∈ ids → is_Some (people st !! id).

(** Every record is listed under its lowered name. *)
Definition people_named (lower : string → string) (st : store) : Prop :=
  ∀ id p, people st !! id = Some p →
    ∃ ids, names st !! lower (p_name p) = Some ids ∧ id ∈ ids.

(** What the loop keeps on any store, also one that breaks the graph
    invariant: no person is queued twice, no queued person is explored, and
    every explored person has a record and was logged once. *)
Record queue_inv (st : store) (σ : search_state) : Prop := QueueInv {
  qi_nodup : NoDup (state <$> frontier σ);
  qi_fresh : ∀ n, n ∈ frontier σ → state n ∉ explored_people σ;
  qi_known : ∀ a, a ∈ explored_people σ → is_Some (people st !! a);
  qi_log_nodup : NoDup (snd <$> expanded σ);
  qi_log_sub : ∀ a, a ∈ snd <$> expanded σ → a ∈ explored_people σ
}.

(** ** Facts about the store *)

Lemma graph_invariant_b_spec st :
  graph_invariant_b st = true → graph_invariant st.
Proof.
  unfold graph_invariant_b. rewrite andb_true_iff, !forallb_forall.
  intros [Hp Hm] p m.
  destruct (acts_in st p m) eqn:Ha.
  - unfold acts_in in Ha. destruct (people st !! p) as [pr|] eqn:Hl; [|done].
    apply bool_decide_eq_true in Ha.
    assert (In (p, pr) (map_to_list (people st))) as Hin
      by apply list_elem_of_In, elem_of_map_to_list, Hl.
    specialize (Hp _ Hin). simpl in Hp. rewrite forallb_forall in Hp.
    symmetry. apply Hp, list_elem_of_In, elem_of_elements, Ha.
  - destruct (stars_in st m p) eqn:Hs; [|done].
    unfold stars_in in Hs. destruct (movies st !! m) as [mv|] eqn:Hl; [|done].
    apply bool_decide_eq_true in Hs.
    assert (In (m, mv) (map_to_list (movies st))) as Hin
      by apply list_elem_of_In, elem_of_map_to_list, Hl.
    specialize (Hm _ Hin). simpl in Hm. rewrite forallb_forall in Hm.
    rewrite <- Ha. apply Hm, list_elem_of_In, elem_of_elements, Hs.
Qed.

Lemma add_stars_spec m nb stars x :
  x ∈ add_stars m nb stars ↔ x ∈ nb ∨ ∃ q, q ∈ stars ∧ x = (m, q).
Proof.
  unfold add_stars. revert nb. induction stars as [|q stars IH]; intros nb; simpl.
  - split; [auto|]. intros [?|(q & Hq & _)]; [done|]. by apply elem_of_nil in Hq.
  - rewrite IH, elem_of_union, elem_of_singleton. split.
    + intros [[?| ->]|(q' & ? & ->)]; eauto.
      * right. exists q. split; [left|done].
      * right. exists q'. split; [by right|done].
    + intros [?|(q' & Hq & ->)]; [auto|].
      apply elem_of_cons in Hq as [ -> |?]; eauto.
Qed.

Lemma neighbors_fold_spec st ms acc nb :
  foldl (λ acc m,
           match acc with
           | Raise e => Raise e
           | Ok nb =>
               match movies st !! m with
               | None => Raise KeyError
               | Some mv => Ok (add_stars m nb (elements (m_stars mv)))
               end
           end) (Ok acc) ms = Ok nb →
  ∀ m q, (m, q) ∈ nb ↔ (m, q) ∈ acc ∨ (m ∈ ms ∧ stars_in st m q = true).
Proof.
  revert acc. induction ms as [|m0 ms IH]; intros acc; simpl.
  - intros [= <-] m q. split; [auto|]. intros [?|[H _]]; [done|].
    by apply elem_of_nil in H.
  - destruct (movies st !! m0) as [mv|] eqn:Hl.
    + intros H m q. rewrite (IH _ H), add_stars_spec. split.
      * intros [[?|(q' & Hq & [= -> ->])]|[? ?]]; auto.
        -- right. split; [left|]. unfold stars_in. rewrite Hl.
           apply bool_decide_eq_true. by apply elem_of_elements.
        -- right. split; [by right|done].
      * intros [?|[Hm Hs]]; auto.
        apply elem_of_cons in Hm as [ -> |?]; auto.
        left. right. exists q. split; [|done].
        unfold stars_in in Hs. rewrite Hl in Hs.
        apply elem_of_elements. by apply bool_decide_eq_true in Hs.
    + intros H. exfalso. clear -H. induction ms; simpl in H; [done|auto].
Qed.

Lemma neighbors_fold_ok st ms acc :
  (∀ m, m ∈ ms → is_Some (movies st !! m)) →
  ∃ nb, foldl (λ acc m,
           match acc with
           | Raise e => Raise e
           | Ok nb =>
               match movies st !! m with
               | None => Raise KeyError
               | Some mv => Ok (add_stars m nb (elements (m_stars mv)))
               end
           end) (Ok acc) ms = Ok nb.
Proof.
  revert acc. induction ms as [|m0 ms IH]; intros acc Hms; simpl; [eauto|].
  destruct (Hms m0) as [mv ->]; [left|].
  apply IH. intros m ?. apply Hms. by right.
Qed.

(** What [neighbors_for_person] returns: the pairs of a movie of the person
    and a star of that movie. *)
Lemma neighbors_for_person_spec st a nb :
  neighbors_for_person st a = Ok nb →
  ∀ m q, (m, q) ∈ nb ↔ acts_in st a m = true ∧ stars_in st m q = true.
Proof.
  unfold neighbors_for_person, acts_in.
  destruct (people st !! a) as [pr|]; [|done].
  intros H m q. rewrite (neighbors_fold_spec _ _ _ _ H m q).
  rewrite elem_of_elements, bool_decide_eq_true.
  split; [intros [H0|?]; [by apply not_elem_of_empty in H0|done]|auto].
Qed.

Lemma neighbors_for_person_ok st a :
  graph_invariant st → is_Some (people st !! a) →
  ∃ nb, neighbors_for_person st a = Ok nb.
Proof.
  intros Hg [pr Hpr]. unfold neighbors_for_person. rewrite Hpr.
  apply neighbors_fold_ok. intros m Hm%elem_of_elements.
  assert (acts_in st a m = true) as Ha.
  { unfold acts_in. rewrite Hpr. by apply bool_decide_eq_true. }
  rewrite Hg in Ha. unfold stars_in in Ha.
  destruct (movies st !! m); [eauto|done].
Qed.

Lemma neighbors_fold_raise st ms :
  ∀ acc e,
    foldl (λ acc m,
             match acc with
             | Raise e => Raise e
             | Ok nb =>
                 match movies st !! m with
                 | None => Raise KeyError
                 | Some mv => Ok (add_stars m nb (elements (m_stars mv)))
                 end
             end) acc ms = Raise e →
    acc = Raise e ∨ (e = KeyError ∧ ∃ m, m ∈ ms ∧ movies st !! m = None).
Proof.
  induction ms as [|m ms IH]; intros acc e; simpl; [auto|].
  intros [Hacc|[-> (m' & Hm' & Hnone)]]%IH.
  - destruct acc as [nb|e']; [|auto].
    destruct (movies st !! m) eqn:Hm; [done|].
    injection Hacc as <-. right. split; [done|]. exists m. split; [left|done].
  - right. split; [done|]. exists m'. split; [by right|done].
Qed.

(** [neighbors_for_person] raises exactly when the person has no record or
    one of the person's movies has none. *)
Lemma neighbors_for_person_raise st a e :
  neighbors_for_person st a = Raise e
  ↔ e = KeyError
    ∧ (people st !! a = None
       ∨ ∃ m, acts_in st a m = true ∧ movies st !! m = None).
Proof.
  split.
  - unfold neighbors_for_person, acts_in.
    destruct (people st !! a) as [pr|] eqn:Hp; [|intros [= <-]; auto].
    intros [?|[-> (m & Hm & Hnone)]]%neighbors_fold_raise; [done|].
    split; [done|]. right. exists m. split; [|done].
    apply bool_decide_eq_true. by apply elem_of_elements.
  - intros [-> Hwhy].
    destruct (neighbors_for_person st a) as [nb|[]] eqn:Hnb; [|done|].
    + exfalso. destruct Hwhy as [Hnone|(m & Hm & Hnone)].
      * unfold neighbors_for_person in Hnb. by rewrite Hnone in Hnb.
      * unfold neighbors_for_person, acts_in in *.
        destruct (people st !! a) as [pr|]; [|done].
        apply bool_decide_eq_true, elem_of_elements in Hm.
        revert Hnb. generalize (∅ : gset (string * string)).
        induction (elements (p_movies pr)) as [|m0 ms IH]; intros acc;
          [by apply elem_of_nil in Hm|].
        simpl. apply elem_of_cons in Hm as [<-|Hm].
        -- rewrite Hnone. clear. induction ms; simpl; [done|auto].
        -- destruct (movies st !! m0); [by apply IH|].
           clear. induction ms; simpl; [done|auto].
    + exfalso. unfold neighbors_for_person in Hnb.
      destruct (people st !! a); [|done].
      apply neighbors_fold_raise in Hnb as [?|[? _]]; done.
Qed.

(** The graph invariant gives what [load_data] keeps, and leaves no movie
    set that names a movie without a record. *)
Lemma graph_invariant_stars_kept st : graph_invariant st → stars_kept st.
Proof.
  intros Hg p m. rewrite Hg. split; [|tauto].
  intros Hs. split; [done|]. unfold stars_in in Hs.
  destruct (movies st !! m); [eauto|done].
Qed.

Lemma graph_invariant_movie_known st a m :
  graph_invariant st → acts_in st a m = true → is_Some (movies st !! m).
Proof.
  intros Hg Ha. rewrite Hg in Ha. unfold stars_in in Ha.
  destruct (movies st !! m); [eauto|done].
Qed.

(** ** Facts about the loader *)

Lemma acts_in_spec st p m :
  acts_in st p m = true ↔ ∃ pr, people st !! p = Some pr ∧ m ∈ p_movies pr.
Proof.
  unfold acts_in. destruct (people st !! p) as [pr|].
  - rewrite bool_decide_eq_true. split; [eauto|]. by intros (? & [= <-] & ?).
  - split; [done|]. by intros (? & ? & ?).
Qed.

Lemma stars_in_spec st m p :
  stars_in st m p = true ↔ ∃ mv, movies st !! m = Some mv ∧ p ∈ m_stars mv.
Proof.
  unfold stars_in. destruct (movies st !! m) as [mv|].
  - rewrite bool_decide_eq_true. split; [eauto|]. by intros (? & [= <-] & ?).
  - split; [done|]. by intros (? & ? & ?).
Qed.

(** One row of [stars.csv]: the person's set grows when the person is
    known, the movie's set only when both are known. *)
Lemma load_star_spec st row :
  names (load_star st row) = names st
  ∧ (∀ p, is_Some (people (load_star st row) !! p) ↔ is_Some (people st !! p))
  ∧ (∀ p, p_name <$> people (load_star st row) !! p
          = p_name <$> people st !! p)
  ∧ (∀ m, is_Some (movies (load_star st row) !! m)
          ↔ is_Some (movies st !! m))
  ∧ (∀ p m, acts_in (load_star st row) p m = true
            ↔ acts_in st p m = true
              ∨ (is_Some (people st !! p)
                 ∧ row = StarsRow p m))
  ∧ (∀ p m, stars_in (load_star st row) m p = true
            ↔ stars_in st m p = true
              ∨ (is_Some (people st !! p) ∧ is_Some (movies st !! m)
                 ∧ row = StarsRow p m)).
Proof.
  destruct row as [pid mid]. unfold load_star. simpl.
  destruct (people st !! pid) as [pr|] eqn:Hp.
  2: { split_and!; try done.
       - intros p m. split; [auto|]. intros [?|[[? Hq] [= -> ->]]]; [done|].
         congruence.
       - intros p m. split; [auto|]. intros [?|[[? Hq] [_ [= -> ->]]]]; [done|].
         congruence. }
  assert (∀ st', people st' = <[pid:=Person (p_name pr) (p_birth pr)
                                      (p_movies pr ∪ {[mid]})]> (people st) →
     (∀ p, is_Some (people st' !! p) ↔ is_Some (people st !! p))
     ∧ (∀ p, p_name <$> people st' !! p = p_name <$> people st !! p)
     ∧ (∀ p m, acts_in st' p m = true
               ↔ acts_in st p m = true
                 ∨ (is_Some (people st !! p)
                    ∧ StarsRow pid mid = StarsRow p m))) as Hpeople.
  { intros st' Hst'. split_and!.
    - intros p. rewrite Hst'. destruct (decide (pid = p)) as [<-|Hne].
      + rewrite lookup_insert_eq, Hp. split; eauto.
      + by rewrite lookup_insert_ne.
    - intros p. rewrite Hst'. destruct (decide (pid = p)) as [<-|Hne].
      + by rewrite lookup_insert_eq, Hp.
      + by rewrite lookup_insert_ne.
    - intros p m. rewrite !acts_in_spec, Hst'.
      destruct (decide (pid = p)) as [<-|Hne].
      + rewrite lookup_insert_eq, Hp. split.
        * intros (? & [= <-] & Hm). simpl in Hm.
          apply elem_of_union in Hm as [Hm|Hm%elem_of_singleton].
          -- left. eauto.
          -- right. subst. eauto.
        * intros [(? & [= <-] & Hm)|[_ [= <-]]];
            (eexists; split; [done|]); simpl; apply elem_of_union.
          -- by left.
          -- right. by apply elem_of_singleton.
      + rewrite lookup_insert_ne by done. split; [auto|].
        intros [?|[_ [= ? ?]]]; [done|]. congruence. }
  destruct (movies st !! mid) as [mv|] eqn:Hm.
  - destruct (Hpeople (Store (names st)
       (<[pid:=Person (p_name pr) (p_birth pr) (p_movies pr ∪ {[mid]})]>
          (people st))
       (<[mid:=Movie (m_title mv) (m_year mv) (m_stars mv ∪ {[pid]})]>
          (movies st))) eq_refl) as (H1 & H2 & H3).
    split_and!; try done.
    + intros m. simpl. destruct (decide (mid = m)) as [<-|Hne].
      * rewrite lookup_insert_eq, Hm. split; eauto.
      * by rewrite lookup_insert_ne.
    + intros p m. rewrite !stars_in_spec. simpl.
      destruct (decide (mid = m)) as [<-|Hne].
      * rewrite lookup_insert_eq, Hm. split.
        -- intros (? & [= <-] & Hq). simpl in Hq.
           apply elem_of_union in Hq as [Hq|Hq%elem_of_singleton].
           ++ left. eauto.
           ++ right. subst. eauto.
        -- intros [(? & [= <-] & Hq)|(_ & _ & [= <-])];
             (eexists; split; [done|]); simpl; apply elem_of_union.
           ++ by left.
           ++ right. by apply elem_of_singleton.
      * rewrite lookup_insert_ne by done. split; [auto|].
        intros [?|(_ & _ & [= ? ?])]; [done|]. congruence.
  - destruct (Hpeople (Store (names st)
       (<[pid:=Person (p_name pr) (p_birth pr) (p_movies pr ∪ {[mid]})]>
          (people st)) (movies st)) eq_refl) as (H1 & H2 & H3).
    split_and!; try done.
    intros p m. split; [auto|].
    intros [?|(_ & [mv Hmv] & [= ? ?])]; [done|]. congruence.
Qed.

Lemma load_stars_spec srs :
  ∀ st,
    names (foldl load_star st srs) = names st
    ∧ (∀ p, is_Some (people (foldl load_star st srs) !! p)
            ↔ is_Some (people st !! p))
    ∧ (∀ p, p_name <$> people (foldl load_star st srs) !! p
            = p_name <$> people st !! p)
    ∧ (∀ m, is_Some (movies (foldl load_star st srs) !! m)
            ↔ is_Some (movies st !! m))
    ∧ (∀ p m, acts_in (foldl load_star st srs) p m = true
              ↔ acts_in st p m = true
                ∨ (is_Some (people st !! p) ∧ StarsRow p m ∈ srs))
    ∧ (∀ p m, stars_in (foldl load_star st srs) m p = true
              ↔ stars_in st m p = true
                ∨ (is_Some (people st !! p) ∧ is_Some (movies st !! m)
                   ∧ StarsRow p m ∈ srs)).
Proof.
  induction srs as [|row srs IH]; intros st; simpl.
  { split_and!; try done.
    - intros p m. split; [auto|]. intros [?|[_ H]]; [done|].
      by apply elem_of_nil in H.
    - intros p m. split; [auto|]. intros [?|(_ & _ & H)]; [done|].
      by apply elem_of_nil in H. }
  destruct (IH (load_star st row)) as (I1 & I2 & I3 & I4 & I5 & I6).
  destruct (load_star_spec st row) as (S1 & S2 & S3 & S4 & S5 & S6).
  split_and!.
  - by rewrite I1.
  - intros p. by rewrite I2.
  - intros p. by rewrite I3.
  - intros m. by rewrite I4.
  - intros p m. rewrite I5, S5, S2, elem_of_cons. naive_solver.
  - intros p m. rewrite I6, S6, S2, S4, elem_of_cons. naive_solver.
Qed.

Lemma load_movies_spec mrs :
  ∀ st,
    names (foldl load_movie st mrs) = names st
    ∧ people (foldl load_movie st mrs) = people st
    ∧ (∀ m, is_Some (movies (foldl load_movie st mrs) !! m)
            ↔ is_Some (movies st !! m) ∨ m ∈ mr_id <$> mrs)
    ∧ ((∀ m p, stars_in st m p = false) →
       ∀ m p, stars_in (foldl load_movie st mrs) m p = false).
Proof.
  induction mrs as [|row mrs IH]; intros st; simpl.
  { split_and!; try done. intros m. split; [auto|].
    intros [?|H]; [done|]. by apply elem_of_nil in H. }
  destruct (IH (load_movie st row)) as (I1 & I2 & I3 & I4).
  split_and!; [done|done| |].
  - intros m. rewrite I3, elem_of_cons. unfold load_movie. simpl.
    destruct (decide (mr_id row = m)) as [<-|Hne].
    + rewrite lookup_insert_eq. naive_solver.
    + rewrite lookup_insert_ne by done. naive_solver.
  - intros Hnone. apply I4. intros m p. unfold stars_in, load_movie. simpl.
    destruct (decide (mr_id row = m)) as [<-|Hne].
    + rewrite lookup_insert_eq. simpl. apply bool_decide_eq_false.
      apply not_elem_of_empty.
    + rewrite lookup_insert_ne by done. apply Hnone.
Qed.

Section LoaderFacts.

Context (lower : string → string).

Lemma load_person_spec st row :
  movies (load_person lower st row) = movies st
  ∧ (∀ p, is_Some (people (load_person lower st row) !! p)
          ↔ is_Some (people st !! p) ∨ p = pr_id row)
  ∧ (names_known st → names_known (load_person lower st row))
  ∧ (people_named lower st → people_named lower (load_person lower st row))
  ∧ ((∀ p m, acts_in st p m = false) →
     ∀ p m, acts_in (load_person lower st row) p m = false).
Proof.
  unfold load_person. split_and!; simpl.
  - done.
  - intros p. destruct (decide (pr_id row = p)) as [<-|Hne].
    + rewrite lookup_insert_eq. naive_solver.
    + rewrite lookup_insert_ne by done. naive_solver.
  - intros Hknown k ids id Hk Hid. simpl in *.
    destruct (decide (pr_id row = id)) as [<-|Hne].
    { rewrite lookup_insert_eq. eauto. }
    rewrite lookup_insert_ne by done.
    destruct (names st !! lower (pr_name row)) as [ids0|] eqn:Hn.
    + destruct (decide (lower (pr_name row) = k)) as [<-|Hk'].
      * rewrite lookup_insert_eq in Hk. injection Hk as <-.
        apply elem_of_union in Hid as [Hid|Hid%elem_of_singleton]; [|done].
        by eapply Hknown.
      * rewrite lookup_insert_ne in Hk by done. by eapply Hknown.
    + destruct (decide (lower (pr_name row) = k)) as [<-|Hk'].
      * rewrite lookup_insert_eq in Hk. injection Hk as <-.
        by apply elem_of_singleton in Hid.
      * rewrite lookup_insert_ne in Hk by done. by eapply Hknown.
  - intros Hnamed id p Hp. simpl in *.
    assert (∀ k ids, names st !! k = Some ids →
              ∃ ids', match names st !! lower (pr_name row) with
                      | Some ids0 =>
                          <[lower (pr_name row):=ids0 ∪ {[pr_id row]}]> (names st)
                      | None =>
                          <[lower (pr_name row):={[pr_id row]}]> (names st)
                      end !! k = Some ids' ∧ ids ⊆ ids') as Hgrow.
    { intros k ids Hk.
      destruct (decide (lower (pr_name row) = k)) as [<-|Hk'].
      - rewrite Hk. rewrite lookup_insert_eq.
        eexists. split; [done|]. intros x Hx. apply elem_of_union. by left.
      - destruct (names st !! lower (pr_name row));
          rewrite lookup_insert_ne by done; eauto. }
    destruct (decide (pr_id row = id)) as [<-|Hne].
    + rewrite lookup_insert_eq in Hp. injection Hp as <-. simpl.
      destruct (names st !! lower (pr_name row)) as [ids0|];
        rewrite lookup_insert_eq; eexists; (split; [done|]).
      * apply elem_of_union. right. by apply elem_of_singleton.
      * by apply elem_of_singleton.
    + rewrite lookup_insert_ne in Hp by done.
      destruct (Hnamed _ _ Hp) as (ids & Hk & Hid).
      destruct (Hgrow _ _ Hk) as (ids' & Hk' & Hsub). eauto.
  - intros Hnone p m. unfold acts_in. simpl.
    destruct (decide (pr_id row = p)) as [<-|Hne].
    + rewrite lookup_insert_eq. simpl. apply bool_decide_eq_false.
      apply not_elem_of_empty.
    + rewrite lookup_insert_ne by done. apply Hnone.
Qed.

Lemma load_people_spec prs :
  ∀ st,
    movies (foldl (load_person lower) st prs) = movies st
    ∧ (∀ p, is_Some (people (foldl (load_person lower) st prs) !! p)
            ↔ is_Some (people st !! p) ∨ p ∈ pr_id <$> prs)
    ∧ (names_known st → names_known (foldl (load_person lower) st prs))
    ∧ (people_named lower st → people_named lower (foldl (load_person lower) st prs))
    ∧ ((∀ p m, acts_in st p m = false) →
       ∀ p m, acts_in (foldl (load_person lower) st prs) p m = false).
Proof.
  induction prs as [|row prs IH]; intros st; simpl.
  { split_and!; try done. intros p. split; [auto|].
    intros [?|H]; [done|]. by apply elem_of_nil in H. }
  destruct (IH (load_person lower st row)) as (I1 & I2 & I3 & I4 & I5).
  destruct (load_person_spec st row) as (S1 & S2 & S3 & S4 & S5).
  split_and!; [by rewrite I1| |auto..].
  intros p. rewrite I2, S2, elem_of_cons. naive_solver.
Qed.

(** What [load_data] leaves in the tables, started on the empty ones. *)
Lemma load_data_spec prs mrs srs :
  let st := load_data lower prs mrs srs empty_store in
  (∀ p, is_Some (people st !! p) ↔ p ∈ pr_id <$> prs)
  ∧ (∀ m, is_Some (movies st !! m) ↔ m ∈ mr_id <$> mrs)
  ∧ (∀ p m, acts_in st p m = true
            ↔ p ∈ pr_id <$> prs ∧ StarsRow p m ∈ srs)
  ∧ (∀ p m, stars_in st m p = true
            ↔ p ∈ pr_id <$> prs ∧ m ∈ mr_id <$> mrs ∧ StarsRow p m ∈ srs)
  ∧ names_known st
  ∧ people_named lower st.
Proof.
  intros st. subst st. unfold load_data.
  set (st1 := foldl (load_person lower) empty_store prs).
  set (st2 := foldl load_movie st1 mrs).
  destruct (load_people_spec prs empty_store) as (P1 & P2 & P3 & P4 & P5).
  destruct (load_movies_spec mrs st1) as (M1 & M2 & M3 & M4).
  destruct (load_stars_spec srs st2) as (S1 & S2 & S3 & S4 & S5 & S6).
  fold st1 in P1, P2, P3, P4, P5. fold st2 in M1, M2, M3, M4.
  assert (∀ p, is_Some (people st2 !! p) ↔ p ∈ pr_id <$> prs) as Hpeople.
  { intros p. rewrite M2, P2. simpl. rewrite lookup_empty.
    split; [intros [[? ?]|?]; done|auto]. }
  assert (∀ m, is_Some (movies st2 !! m) ↔ m ∈ mr_id <$> mrs) as Hmovies.
  { intros m. rewrite M3, P1. simpl. rewrite lookup_empty.
    split; [intros [[? ?]|?]; done|auto]. }
  assert (∀ p m, acts_in st2 p m = false) as Hacts.
  { intros p m. unfold acts_in. rewrite M2. apply P5. intros p' m'.
    unfold acts_in. simpl. by rewrite lookup_empty. }
  assert (∀ m p, stars_in st2 m p = false) as Hstars.
  { apply M4. intros m p. unfold stars_in. rewrite P1. simpl.
    by rewrite lookup_empty. }
  split_and!.
  - intros p. by rewrite S2.
  - intros m. by rewrite S4.
  - intros p m. rewrite S5, Hacts, Hpeople. naive_solver.
  - intros p m. rewrite S6, Hstars, Hpeople, Hmovies. naive_solver.
  - intros k ids id Hk Hid. apply S2. rewrite M2. rewrite S1, M1 in Hk.
    eapply P3; [|done..]. intros ???. simpl. by rewrite lookup_empty.
  - intros id p Hp. rewrite S1, M1.
    assert (p_name <$> people st1 !! id = Some (p_name p)) as Hname.
    { rewrite <- M2, <- S3, Hp. done. }
    destruct (people st1 !! id) as [p1|] eqn:Hp1; [|done].
    injection Hname as <-. eapply P4; [|done].
    intros ??. simpl. by rewrite lookup_empty.
Qed.

End LoaderFacts.

(** Whatever the rows are, the star sets that [load_data] builds agree with
    the movie sets on the movies that have a record. *)
Lemma load_data_stars_kept lower prs mrs srs :
  stars_kept (load_data lower prs mrs srs empty_store).
Proof.
  destruct (load_data_spec lower prs mrs srs) as (_ & H2 & H3 & H4 & _).
  intros p m. rewrite H4, H3, H2. tauto.
Qed.

(** ** Facts about nodes and paths *)

Lemma node_parent_ind (P : node → Prop) :
  (∀ s a, P (Node s None a)) →
  (∀ s q a, P q → P (Node s (Some q) a)) →
  ∀ n, P n.
Proof.
  intros Hroot Hchild. fix IH 1.
  intros [s [q|] a]; [apply Hchild, IH|apply Hroot].
Qed.

Lemma chain_ok_walk st source n :
  chain_ok st source n → walk st source (state n) (depth n).
Proof.
  induction n as [s a|s q a IH] using node_parent_ind; simpl.
  - destruct a; [done|]. intros ->. constructor.
  - destruct a as [m|]; [|done]. intros (Hq & Hs & Hok).
    econstructor; [by apply IH|]. by exists m.
Qed.

Lemma chain_moves_length st source n :
  chain_ok st source n → length (chain_moves n) = depth n.
Proof.
  induction n as [s a|s q a IH] using node_parent_ind; simpl.
  - by destruct a.
  - destruct a as [m|]; [|done]. intros (_ & _ & Hok). simpl. by rewrite IH.
Qed.

Lemma valid_path_app st a b c l1 l2 :
  valid_path st a b l1 → valid_path st b c l2 → valid_path st a c (l1 ++ l2).
Proof.
  revert a. induction l1 as [|[[m|] p] l1 IH]; intros a; simpl.
  - by intros ->.
  - intros (? & ? & ?) ?. eauto.
  - done.
Qed.

Lemma chain_moves_valid st source n :
  chain_ok st source n →
  valid_path st source (state n) (rev (chain_moves n)).
Proof.
  induction n as [s a|s q a IH] using node_parent_ind; simpl.
  - destruct a; [done|]. by intros ->.
  - destruct a as [m|]; [|done]. intros (Hq & Hs & Hok). simpl.
    eapply valid_path_app; [by apply IH|]. by simpl.
Qed.

Lemma valid_path_walk st a b l :
  valid_path st a b l → walk st a b (length l).
Proof.
  revert b. induction l as [|[[m|] p] l IH] using rev_ind; intros b.
  - simpl. intros ->. constructor.
  - rewrite length_app. simpl. rewrite Nat.add_1_r. intros H.
    assert (∃ u, valid_path st a u l ∧ valid_path st u b [(Some m, p)])
      as (u & Hl & Hm & Hp & <-).
    { clear IH. revert a H. induction l as [|[[m'|] p'] l IH]; intros a; simpl.
      - intros (? & ? & ?). eauto.
      - intros (? & ? & H). destruct (IH _ H) as (u & ? & ?). eauto.
      - done. }
    econstructor; [by apply IH|]. by exists m.
  - intros H. exfalso. clear IH. revert a H.
    induction l as [|[[m'|] p'] l IH]; intros a; simpl; [done| |done].
    intros (_ & _ & H). eauto.
Qed.

Lemma contains_state_spec fr q :
  contains_state fr q = true ↔ q ∈ state <$> fr.
Proof.
  unfold contains_state. rewrite existsb_exists, list_elem_of_fmap.
  split.
  - intros (n & Hn & Hq). apply bool_decide_eq_true in Hq.
    exists n. split; [done|]. by apply list_elem_of_In.
  - intros (n & -> & Hn). exists n. split; [by apply list_elem_of_In|].
    by apply bool_decide_eq_true.
Qed.

(** The loop of lines 198-205 appends children to the frontier: each is a
    child of [n] by a listed pair whose person is neither explored nor
    already queued and whose movie is not explored; and every listed pair
    ends up explored, with an explored movie, or queued. *)
Lemma enqueue_children_spec n l ep em fr :
  ∃ C, enqueue_children n l ep em fr = fr ++ C
    ∧ Forall (λ c, ∃ m q, c = Node q (Some n) (Some m) ∧ (m, q) ∈ l
                          ∧ (q ∉ ep) ∧ (m ∉ em)) C
    ∧ (NoDup (state <$> fr) → NoDup (state <$> (fr ++ C)))
    ∧ (∀ m q, (m, q) ∈ l → q ∈ ep ∨ m ∈ em ∨ q ∈ state <$> (fr ++ C)).
Proof.
  unfold enqueue_children. revert fr.
  induction l as [|[m q] l IH]; intros fr; simpl.
  - exists []. rewrite app_nil_r. split_and!; [done|constructor|done|].
    intros ?? H. by apply elem_of_nil in H.
  - destruct (bool_decide (q ∉ ep) && bool_decide (m ∉ em)
              && negb (contains_state fr q)) eqn:Hc.
    + apply andb_true_iff in Hc as [Hc Hfr].
      apply andb_true_iff in Hc as [Hep Hem].
      apply bool_decide_eq_true in Hep, Hem.
      apply negb_true_iff in Hfr.
      assert (q ∉ state <$> fr) as Hq.
      { intros H%contains_state_spec. congruence. }
      destruct (IH (frontier_add (Node q (Some n) (Some m)) fr))
        as (C & HC & Hall & Hnd & Hcov).
      unfold frontier_add in *. rewrite <- app_assoc in HC, Hnd, Hcov.
      exists (Node q (Some n) (Some m) :: C). split_and!; [done| | |].
      * constructor.
        -- exists m, q. split_and!; [done|left|done|done].
        -- eapply Forall_impl; [apply Hall|]. simpl.
           intros c (m' & q' & ? & ? & ?). exists m', q'.
           split_and!; [done|by right|tauto|tauto].
      * intros Hfrnd. apply Hnd. rewrite fmap_app. apply NoDup_app.
        split_and!; [done| |apply NoDup_singleton].
        simpl. intros x Hx ->%list_elem_of_singleton. done.
      * intros m' q' [[= -> ->]|H]%elem_of_cons; [|by apply Hcov].
        right. right. rewrite fmap_app. apply elem_of_app. right.
        simpl. left.
    + destruct (IH fr) as (C & HC & Hall & Hnd & Hcov).
      exists C. split_and!; [done| |done|].
      * eapply Forall_impl; [apply Hall|]. simpl.
        intros c (m' & q' & ? & ? & ?). exists m', q'.
        split_and!; [done|by right|tauto|tauto].
      * intros m' q' [[= -> ->]|H]%elem_of_cons; [|by apply Hcov].
        apply andb_false_iff in Hc as [Hc|Hc].
        -- apply andb_false_iff in Hc as [Hc|Hc];
             apply bool_decide_eq_false in Hc.
           ++ left. by apply dec_stable.
           ++ right. left. by apply dec_stable.
        -- right. right. apply negb_false_iff, contains_state_spec in Hc.
           rewrite fmap_app. apply elem_of_app. by left.
Qed.

(** ** The search loop keeps its invariant *)

Section Correctness.

Context (iter : person_id → gset (movie_id * person_id)
                        → list (movie_id * person_id)).
Hypothesis iter_elements : ∀ a X, iter a X ≡ₚ elements X.
Context (st : store).
Hypothesis store_kept : stars_kept st.
Context (source target : person_id).
Hypothesis source_not_target : source ≠ target.

Local Abbreviation inv := (search_inv st source target).

Lemma iter_elem (a : person_id) (X : gset (movie_id * person_id)) x :
  x ∈ iter a X ↔ x ∈ X.
Proof. by rewrite iter_elements, elem_of_elements. Qed.

Lemma inv_initial p :
  people st !! source = Some p →
  inv 0 (SearchState [Node source None None] ∅ ∅ []).
Proof.
  intros Hp. split; simpl.
  - exists [Node source None None], []. split_and!; [done| |constructor].
    by repeat constructor.
  - by repeat constructor.
  - apply NoDup_singleton.
  - intros ? _. apply not_elem_of_empty.
  - intros a [H|H]; [by apply not_elem_of_empty in H|].
    simpl in H. apply list_elem_of_singleton in H as ->. eauto.
  - intros ?? H. by apply not_elem_of_empty in H.
  - intros n m ->%list_elem_of_singleton. done.
  - intros ?? H. by apply not_elem_of_empty in H.
  - intros ?? H. by apply not_elem_of_empty in H.
  - intros ???. lia.
  - intros v H. inversion H; subst. right. simpl. left.
  - intros n j ->%list_elem_of_singleton _. simpl. lia.
  - constructor.
  - intros ? H. by apply elem_of_nil in H.
Qed.

(** When no node of depth [d] is left, the frontier is at level [d+1]. *)
Lemma inv_next_level d σ :
  inv d σ → Forall (λ n, depth n = S d) (frontier σ) → inv (S d) σ.
Proof.
  intros [] Hall.
  assert (∀ v j, walk st source v j → j < S d → v ∈ explored_people σ)
    as Hbelow.
  { intros v j Hw Hj. destruct (decide (j < d)) as [|Hjd]; [eauto|].
    assert (j = d) as -> by lia.
    destruct (inv_level0 _ Hw) as [|(n & -> & Hn)%list_elem_of_fmap]; [done|].
    pose proof (inv_lower0 _ _ Hn Hw) as Hd.
    rewrite Forall_forall in Hall. rewrite (Hall _ Hn) in Hd. lia. }
  split; try done.
  - exists (frontier σ), []. rewrite app_nil_r. by split_and!.
  - intros v Hw. inversion Hw as [|u v' n Hu Hc]; subst.
    eapply inv_closed0; [|done]. eapply Hbelow; [done|lia].
Qed.

(** The head of the frontier is always at the current level. *)
Lemma inv_head d σ n rest :
  inv d σ → frontier σ = n :: rest → ∃ d', inv d' σ ∧ depth n = d'.
Proof.
  intros Hinv Hfr. destruct (inv_levels _ _ Hinv) as (A & B & HAB & HA & HB).
  destruct A as [|a A].
  - exists (S d). simpl in HAB. split.
    + apply inv_next_level; [done|]. by rewrite HAB.
    + rewrite HAB in Hfr. subst B. by apply Forall_cons in HB as [? _].
  - exists d. split; [done|]. rewrite HAB in Hfr. simpl in Hfr.
    simplify_eq. by apply Forall_cons in HA as [? _].
Qed.

(** The check of lines 171-179 never fires: the parent of a queued node
    was expanded without finding the target among the stars of its movies. *)
Lemma head_not_hit d σ n :
  inv d σ → n ∈ frontier σ →
  match action n with
  | None => Ok false
  | Some m =>
      match movies st !! m with
      | None => Raise KeyError
      | Some rec => Ok (bool_decide (target ∈ m_stars rec))
      end
  end = Ok false.
Proof.
  intros Hinv Hn. destruct (action n) as [m|] eqn:Hm; [|done].
  destruct (inv_action _ _ Hinv n m Hn Hm) as [Ht _].
  pose proof (inv_chain _ _ Hinv) as Hc. rewrite Forall_forall in Hc.
  specialize (Hc _ Hn). destruct n as [s [q|] a]; simpl in *; subst a.
  - destruct Hc as (_ & Hs & _). unfold stars_in in *.
    destruct (movies st !! m); [by rewrite Ht|done].
  - done.
Qed.

Lemma find_target_some (l : list (movie_id * person_id)) :
  existsb (λ '(_, q), bool_decide (q = target)) l = true →
  ∃ m, find (λ '(_, q), bool_decide (q = target)) l = Some (m, target)
       ∧ (m, target) ∈ l.
Proof.
  intros (x & Hx & Hf)%existsb_exists.
  destruct (find (λ '(_, q), bool_decide (q = target)) l) as [[m q]|] eqn:Hfind.
  - apply find_some in Hfind as [Hin Hq]. apply bool_decide_eq_true in Hq.
    subst q. exists m. split; [done|]. by apply list_elem_of_In.
  - pose proof (find_none _ _ Hfind _ Hx) as Hnone. simpl in Hnone. congruence.
Qed.

Lemma find_target_none (l : list (movie_id * person_id)) m :
  existsb (λ '(_, q), bool_decide (q = target)) l = false →
  (m, target) ∉ l.
Proof.
  intros Hex Hin. apply not_true_iff_false in Hex. apply Hex.
  apply existsb_exists. exists (m, target).
  split; [by apply list_elem_of_In|]. by apply bool_decide_eq_true.
Qed.

(** One turn of the loop on a head at the current level: the target is found
    at distance [d+1], or the head is explored and the invariant holds
    again, or a movie of the head has no record and [KeyError] is raised. *)
Lemma step_spec d σ n rest :
  inv d σ → frontier σ = n :: rest → depth n = d →
  (∃ p, step iter st target σ
          = Return (Path p) (expanded σ ++ [(action n, state n)])
        ∧ valid_path st source target p
        ∧ distance st source target (length p))
  ∨ (∃ σ', step iter st target σ = Continue σ' ∧ inv d σ'
           ∧ explored_people σ' = explored_people σ ∪ {[ state n ]})
  ∨ (step iter st target σ
       = Return (Raised KeyError) (expanded σ ++ [(action n, state n)])
     ∧ ∃ m, acts_in st (state n) m = true ∧ movies st !! m = None).
Proof.
  intros Hinv Hfr Hd. subst d.
  assert (n ∈ frontier σ) as Hn by (rewrite Hfr; left).
  pose proof (head_not_hit _ _ _ Hinv Hn) as Hhit.
  destruct Hinv as [Hlev Hchain Hnd Hfresh Hknown Hmiss Hact Hmov Hclosed
                    Hbelow Hlevel Hlower Hlognd Hlogsub].
  unfold visited in *.
  pose proof (Hfresh _ Hn) as Ha.
  assert (chain_ok st source n) as Hcn.
  { rewrite Forall_forall in Hchain. by apply Hchain. }
  assert (is_Some (people st !! state n)) as Hpa.
  { apply Hknown. right. rewrite Hfr. simpl. left. }
  unfold step. rewrite Hfr. cbv zeta.
  rewrite (bool_decide_eq_false_2 _ Ha). simpl andb. cbv iota.
  rewrite Hhit.
  destruct (neighbors_for_person st (state n)) as [nb|e] eqn:Hnb.
  2: { (* a movie of the head has no record *)
    apply neighbors_for_person_raise in Hnb as [-> [Hnone|Hm]].
    - rewrite Hnone in Hpa. by destruct Hpa.
    - right. right. by split. }
  pose proof (neighbors_for_person_spec _ _ _ Hnb) as Hspec.
  assert (∀ m q, (m, q) ∈ iter (state n) nb ↔
                 stars_in st m (state n) = true ∧ stars_in st m q = true)
    as Hl.
  { intros m q. rewrite iter_elem, Hspec, !(store_kept _ m). tauto. }
  destruct (existsb (λ '(_, q), bool_decide (q = target)) (iter (state n) nb)) eqn:Hex.
  - (* the target is a co-star of the head *)
    left. destruct (find_target_some _ Hex) as (m & -> & Hin).
    apply Hl in Hin as [Hma Hmt].
    eexists. split; [done|]. simpl rev.
    assert (valid_path st source target
              (rev (chain_moves n) ++ [(Some m, target)])) as Hvalid.
    { eapply valid_path_app; [by apply chain_moves_valid|]. by simpl. }
    split; [done|]. split; [by apply valid_path_walk|].
    rewrite length_app, length_rev, (chain_moves_length _ _ _ Hcn). simpl.
    intros j Hw. inversion Hw as [|u v j' Hu [m' [Hm'u Hm't]]]; subst.
    + done.
    + destruct (decide (j' < depth n)) as [Hlt|]; [|lia].
      pose proof (Hbelow _ _ Hu Hlt) as Huexp.
      rewrite (Hmiss _ _ Huexp Hm'u) in Hm't. done.
  - (* the head is explored and its children are queued *)
    right. left. eexists. split; [done|].
    set (ep := explored_people σ ∪ {[ state n ]}).
    set (em := match action n with
               | Some m => explored_movies σ ∪ {[ m ]}
               | None => explored_movies σ
               end).
    destruct (enqueue_children_spec n (iter (state n) nb) ep em rest)
      as (C & -> & HC & HCnd & Hcov).
    rewrite Hfr in *. simpl in Hnd. apply NoDup_cons in Hnd as [Hnrest Hndrest].
    rewrite Forall_forall in HC.
    assert (∀ q, q ∈ explored_people σ ∨ q ∈ state <$> (n :: rest) →
                 q ∈ ep ∨ q ∈ state <$> (rest ++ C)) as Hmono.
    { intros q [Hq|Hq]; [left; by apply elem_of_union; left|].
      simpl in Hq. apply elem_of_cons in Hq as [ -> |Hq].
      - left. apply elem_of_union. right. by apply elem_of_singleton.
      - right. rewrite fmap_app. apply elem_of_app. by left. }
    assert (∀ m q, m ∈ em → stars_in st m q = true →
                   q ∈ ep ∨ q ∈ state <$> (rest ++ C)) as Hmov'.
    { intros m q Hm Hq. apply Hmono. subst em.
      destruct (action n) as [m0|] eqn:Hm0; [|by eapply Hmov].
      apply elem_of_union in Hm as [Hm|Hm]; [by eapply Hmov|].
      apply elem_of_singleton in Hm as ->.
      destruct (Hact n m0) as [_ Hv]; [left|done|]. by apply Hv. }
    assert (∀ m, stars_in st m (state n) = true →
                 stars_in st m target = false) as Hmiss_n.
    { intros m Hm. destruct (stars_in st m target) eqn:Ht; [|done].
      exfalso. apply (find_target_none _ m Hex). by apply Hl. }
    split; [|done].
    split; unfold visited;
      cbn [frontier explored_people explored_movies expanded];
      fold ep; fold em.
    + (* levels *)
      destruct Hlev as (A & B & HAB & HA & HB).
      destruct A as [|a A]; simpl in HAB.
      * subst B. apply Forall_cons in HB as [HBn _]. lia.
      * injection HAB as <- ->. apply Forall_cons in HA as [_ HA].
        exists A, (B ++ C). rewrite app_assoc. split_and!; [done|done|].
        apply Forall_app. split; [done|]. apply Forall_forall.
        intros c (m & q & -> & _)%HC. done.
    + (* chains *)
      apply Forall_cons in Hchain as [_ Hchain]. apply Forall_app.
      split; [done|]. apply Forall_forall.
      intros c (m & q & -> & Hin & _)%HC. simpl.
      apply Hl in Hin as [? ?]. done.
    + by apply HCnd.
    + (* queued persons are not explored *)
      intros c [Hc|Hc]%elem_of_app.
      * subst ep. intros [Hin|Heq%elem_of_singleton]%elem_of_union.
        -- eapply Hfresh; [by right|done].
        -- apply Hnrest. rewrite <- Heq. apply list_elem_of_fmap. eauto.
      * apply HC in Hc as (m & q & -> & _ & Hq & _). done.
    + (* visited persons have a record *)
      intros a [Hin|Hin].
      * subst ep. apply elem_of_union in Hin as [Hin|Hin%elem_of_singleton].
        -- apply Hknown. by left.
        -- by subst a.
      * rewrite fmap_app in Hin. apply elem_of_app in Hin as [Hin|Hin].
        -- apply Hknown. right. simpl. by right.
        -- apply list_elem_of_fmap in Hin as (c & -> & Hc).
           apply HC in Hc as (m & q & -> & Hmq & _). simpl.
           apply Hl in Hmq as [_ Hq]. apply store_kept in Hq as [Hq _].
           unfold acts_in in Hq. destruct (people st !! q); [eauto|done].
    + (* explored persons are no co-stars of the target *)
      intros u m. subst ep.
      intros [Hu| ->%elem_of_singleton]%elem_of_union; [by apply Hmiss|].
      apply Hmiss_n.
    + (* the movies of queued nodes *)
      intros c m [Hc|Hc]%elem_of_app Hm.
      * destruct (Hact c m) as [? Hv]; [by right|done|]. split; [done|].
        intros q Hq. apply Hmono. by apply Hv.
      * apply HC in Hc as (m' & q' & -> & Hmq & _ & Hm'). simpl in Hm.
        injection Hm as ->. apply Hl in Hmq as [Hmn _]. split; [by apply Hmiss_n|].
        intros q Hq. destruct (Hcov m q) as [?|[?|?]]; [by apply Hl|by left|done|by right].
    + done.
    + (* co-stars of explored persons are visited *)
      intros u v. subst ep.
      intros [Hu| ->%elem_of_singleton]%elem_of_union Hc.
      * apply Hmono. by eapply Hclosed.
      * destruct Hc as (m & Hmn & Hmv).
        destruct (Hcov m v) as [?|[?|?]]; [by apply Hl|by left| |by right].
        by eapply Hmov'.
    + intros v j Hw Hj. subst ep. apply elem_of_union. left. by eapply Hbelow.
    + intros v Hw. apply Hmono. by apply Hlevel.
    + (* queued nodes are not nearer than their depth *)
      intros c j [Hc|Hc]%elem_of_app Hw.
      * apply Hlower; [by right|done].
      * pose proof (HCnd Hndrest) as Hnd'. rewrite fmap_app in Hnd'.
        apply NoDup_app in Hnd' as (_ & Hsep & _).
        assert (state c ∈ state <$> C) as HcC
          by (apply list_elem_of_fmap; eauto).
        apply HC in Hc as (m & q & -> & _ & Hq & _). simpl in *.
        destruct (decide (S (depth n) ≤ j)) as [|Hj]; [done|]. exfalso.
        destruct (decide (j < depth n)) as [Hlt|Hge].
        -- apply Hq. subst ep. apply elem_of_union. left.
           eapply Hbelow; [done|lia].
        -- assert (j = depth n) as -> by lia.
           destruct (Hlevel q) as [Hqe|Hqf]; [done| |].
           ++ apply Hq. subst ep. apply elem_of_union. by left.
           ++ apply elem_of_cons in Hqf as [ -> |Hqf].
              ** apply Hq. subst ep. apply elem_of_union. right.
                 by apply elem_of_singleton.
              ** by apply (Hsep q).
    + rewrite fmap_app. apply NoDup_app.
      split_and!; [done| |apply NoDup_singleton].
      intros x Hx ->%list_elem_of_singleton. apply Ha. by apply Hlogsub.
    + rewrite fmap_app.
      intros a [Hin| ->%list_elem_of_singleton]%elem_of_app; subst ep.
      * apply elem_of_union. left. by apply Hlogsub.
      * apply elem_of_union. right. by apply elem_of_singleton.
Qed.

(** With an empty frontier every person connected to the source has been
    explored, and none of them is a co-star of the target. *)
Lemma inv_exhausted d σ :
  inv d σ → frontier σ = [] → ¬ connected st source target.
Proof.
  intros Hinv Hfr.
  assert (∀ v, visited σ v → v ∈ explored_people σ) as Hvis.
  { intros v [?|Hv]; [done|]. rewrite Hfr in Hv. by apply elem_of_nil in Hv. }
  assert (∀ v j, walk st source v j → v ∈ explored_people σ) as Hall.
  { intros v j Hw. induction Hw as [|u v j Hu IH Hc].
    - destruct d as [|d].
      + apply Hvis. eapply inv_level; [done|constructor].
      + eapply inv_below; [done|constructor|lia].
    - apply Hvis. by eapply inv_closed. }
  intros [j Hw]. inversion Hw as [|u v j' Hu [m [Hmu Hmt]]]; subst; [done|].
  rewrite (inv_miss _ _ Hinv u m) in Hmt; [done|by eapply Hall|done].
Qed.

(** The loop ends within one turn per person not yet explored (plus the turn
    that finds the frontier empty), and what it returns is right; it raises
    only [KeyError], on a person who is connected to the source and has a
    movie without a record. *)
Lemma run_spec fuel :
  ∀ d σ, inv d σ →
    size (dom (people st) ∖ explored_people σ) < fuel →
    ∃ o log, run iter fuel st target σ = Some (o, log)
      ∧ NoDup (snd <$> log)
      ∧ match o with
        | Path p => valid_path st source target p
                    ∧ distance st source target (length p)
        | NotFound => ¬ connected st source target
        | Raised e =>
            e = KeyError
            ∧ ∃ a m, connected st source a ∧ acts_in st a m = true
                     ∧ movies st !! m = None
        end.
Proof.
  induction fuel as [|fuel IH]; intros d σ Hinv Hsize; [lia|].
  simpl. destruct (frontier σ) as [|n rest] eqn:Hfr.
  - unfold step. rewrite Hfr. exists NotFound, (expanded σ).
    split_and!; [done|by eapply inv_log_nodup|by eapply inv_exhausted].
  - destruct (inv_head _ _ _ _ Hinv Hfr) as (d' & Hinv' & Hd').
    assert (n ∈ frontier σ) as Hn by (rewrite Hfr; left).
    pose proof (inv_fresh _ _ Hinv' _ Hn) as Hfresh.
    assert (NoDup (snd <$> (expanded σ ++ [(action n, state n)])))
      as Hlog.
    { rewrite fmap_app. apply NoDup_app.
      split_and!; [by eapply inv_log_nodup| |apply NoDup_singleton].
      intros x Hx ->%list_elem_of_singleton.
      apply Hfresh. by eapply inv_log_sub. }
    destruct (step_spec _ _ _ _ Hinv' Hfr Hd')
      as [(p & -> & Hvalid & Hdist)|[(σ' & -> & Hinv'' & Hep)|[-> Hm]]].
    + by exists (Path p), (expanded σ ++ [(action n, state n)]).
    + apply (IH _ _ Hinv''). rewrite Hep.
      assert (state n ∈ dom (people st)) as Hdom.
      { apply elem_of_dom. apply (inv_known _ _ Hinv). right.
        apply list_elem_of_fmap. eauto. }
      assert (dom (people st) ∖ (explored_people σ ∪ {[state n]})
              ⊂ dom (people st) ∖ explored_people σ) as Hsub.
      { split.
        - intros x [Hx Hnx]%elem_of_difference. apply elem_of_difference.
          split; [done|]. intros ?. apply Hnx. apply elem_of_union. by left.
        - intros Hsub. specialize (Hsub (state n)).
          rewrite !elem_of_difference, elem_of_union, elem_of_singleton in Hsub.
          destruct Hsub as [_ Hsub]; [done|]. apply Hsub. by right. }
      apply subset_size in Hsub. lia.
    + exists (Raised KeyError), (expanded σ ++ [(action n, state n)]).
      split_and!; [done|done|done|].
      destruct Hm as (m & Hm & Hnone). exists (state n), m.
      split_and!; [|done|done]. exists (depth n). apply chain_ok_walk.
      pose proof (inv_chain _ _ Hinv) as Hc. rewrite Forall_forall in Hc.
      by apply Hc.
Qed.

(** [shortest_path] on distinct persons, the source having a movie, on a
    store as [load_data] builds it. *)
Lemma search_spec_kept fuel p :
  people st !! source = Some p → p_movies p ≠ ∅ →
  size (people st) < fuel →
  ∃ o log, shortest_path_log iter fuel st source target = Some (o, log)
    ∧ NoDup (snd <$> log)
    ∧ match o with
      | Path p => valid_path st source target p
                  ∧ distance st source target (length p)
      | NotFound => ¬ connected st source target
      | Raised e =>
          e = KeyError
          ∧ ∃ a m, connected st source a ∧ acts_in st a m = true
                   ∧ movies st !! m = None
      end.
Proof.
  intros Hp Hmovies Hfuel. unfold shortest_path_log.
  rewrite (bool_decide_eq_false_2 _ source_not_target), Hp.
  rewrite (bool_decide_eq_false_2 _ Hmovies).
  eapply run_spec; [by eapply inv_initial|]. simpl.
  rewrite difference_empty_L, size_dom. done.
Qed.

End Correctness.

(** On a store that keeps the graph invariant no movie set names a movie
    without a record, and the search raises nothing. *)
Lemma search_spec iter :
  (∀ a X, iter a X ≡ₚ elements X) →
  ∀ st, graph_invariant st →
  ∀ source target, source ≠ target →
  ∀ fuel p,
    people st !! source = Some p → p_movies p ≠ ∅ →
    size (people st) < fuel →
    ∃ o log, shortest_path_log iter fuel st source target = Some (o, log)
      ∧ NoDup (snd <$> log)
      ∧ match o with
        | Path p => valid_path st source target p
                    ∧ distance st source target (length p)
        | NotFound => ¬ connected st source target
        | Raised _ => False
        end.
Proof.
  intros Hiter st Hg source target Hne fuel p Hp Hmovies Hfuel.
  destruct (search_spec_kept iter Hiter st (graph_invariant_stars_kept _ Hg)
              source target Hne fuel p Hp Hmovies Hfuel)
    as (o & log & Hrun & Hnd & Ho).
  exists o, log. split_and!; [done|done|].
  destruct o as [path| |e]; [done|done|].
  destruct Ho as (_ & a & m & _ & Ha & Hnone).
  destruct (graph_invariant_movie_known _ _ _ Hg Ha) as [mv Hmv]. congruence.
Qed.

(** ** Further facts used by the theorems *)

(** More fuel does not change a result. *)
Lemma run_more_fuel iter st target fuel fuel' σ r :
  run iter fuel st target σ = Some r → fuel ≤ fuel' →
  run iter fuel' st target σ = Some r.
Proof.
  revert fuel' σ. induction fuel as [|fuel IH]; intros fuel' σ; [done|].
  destruct fuel' as [|fuel']; [lia|]. simpl.
  destruct (step iter st target σ); [|done].
  intros H ?. apply IH; [done|lia].
Qed.

Lemma valid_path_last st a t path :
  valid_path st a t path → path ≠ [] → snd <$> last path = Some t.
Proof.
  revert a. induction path as [|[[m|] p] path IH]; intros a; simpl; [done| |done].
  intros (_ & _ & H) _. destruct path as [|h path]; [by simpl in *; subst|].
  by apply (IH p).
Qed.



(** ** Further facts about the search *)

(** A source that [neighbors_for_person] fails on makes the search fail in
    its first turn, or before. *)
Lemma shortest_path_raise_from_source iter fuel st source target e :
  source ≠ target →
  neighbors_for_person st source = Raise e →
  shortest_path iter (S fuel) st source target = Some (Raised KeyError).
Proof.
  intros Hne Hnb. pose proof Hnb as [-> Hwhy]%neighbors_for_person_raise.
  unfold shortest_path, shortest_path_log.
  rewrite (bool_decide_eq_false_2 _ Hne).
  destruct (people st !! source) as [pr|] eqn:Hp; [|done].
  destruct Hwhy as [?|(m & Hm & _)]; [done|].
  apply acts_in_spec in Hm as (pr' & Hpr' & Hm).
  rewrite Hp in Hpr'. injection Hpr' as <-.
  rewrite bool_decide_eq_false_2.
  2: { intros Hempty. rewrite Hempty in Hm. by apply not_elem_of_empty in Hm. }
  simpl. unfold step. simpl.
  rewrite bool_decide_eq_false_2 by apply not_elem_of_empty. simpl.
  by rewrite Hnb.
Qed.

Lemma costar_sym st a b : costar st a b → costar st b a.
Proof. intros (m & ? & ?). by exists m. Qed.

Lemma walk_cons st a u b n :
  costar st a u → walk st u b n → walk st a b (S n).
Proof.
  intros Hc Hw. induction Hw as [|v w n Hv IH Hvw].
  - econstructor; [constructor|done].
  - econstructor; [apply IH|done].
Qed.

Lemma walk_sym st a b n : walk st a b n → walk st b a n.
Proof.
  induction 1 as [|u v n Hu IH Huv]; [constructor|].
  eapply walk_cons; [by apply costar_sym|done].
Qed.

Lemma distance_unique st a b d1 d2 :
  distance st a b d1 → distance st a b d2 → d1 = d2.
Proof.
  intros [Hw1 Hmin1] [Hw2 Hmin2].
  specialize (Hmin1 _ Hw2). specialize (Hmin2 _ Hw1). lia.
Qed.

Lemma distance_sym st a b d : distance st a b d → distance st b a d.
Proof.
  intros [Hw Hmin]. split; [by apply walk_sym|].
  intros n Hn. by apply Hmin, walk_sym.
Qed.

(** What a returned path is, whatever fuel the run was given. *)
Lemma returned_path_spec iter st source target fuel path :
  (∀ a X, iter a X ≡ₚ elements X) →
  graph_invariant st →
  shortest_path iter fuel st source target = Some (Path path) →
  valid_path st source target path
  ∧ (source ≠ target → distance st source target (length path)).
Proof.
  intros Hiter Hg Hrun. unfold shortest_path, shortest_path_log in Hrun.
  destruct (bool_decide (source = target)) eqn:Heq.
  { apply bool_decide_eq_true in Heq. by simplify_eq/=. }
  apply bool_decide_eq_false in Heq.
  destruct (people st !! source) as [p|] eqn:Hp; [|by simplify_eq/=].
  destruct (bool_decide (p_movies p = ∅)) eqn:Hmovies; [by simplify_eq/=|].
  apply bool_decide_eq_false in Hmovies.
  destruct (run iter fuel st target _) as [[o log]|] eqn:Hr; [|done].
  simpl in Hrun. injection Hrun as ->.
  apply (run_more_fuel _ _ _ _ (fuel `max` S (size (people st)))) in Hr;
    [|lia].
  destruct (search_spec iter Hiter st Hg source target Heq
              (fuel `max` S (size (people st))) p Hp Hmovies)
    as (o & log' & Hrun' & _ & Ho); [lia|].
  unfold shortest_path_log in Hrun'.
  rewrite (bool_decide_eq_false_2 _ Heq), Hp in Hrun'.
  rewrite (bool_decide_eq_false_2 _ Hmovies), Hr in Hrun'.
  injection Hrun' as <- _. destruct Ho. auto.
Qed.

(** A not-found answer is right, whatever fuel the run was given. *)
Lemma not_found_spec iter st source target fuel :
  (∀ a X, iter a X ≡ₚ elements X) →
  graph_invariant st →
  shortest_path iter fuel st source target = Some NotFound →
  ¬ connected st source target.
Proof.
  intros Hiter Hg Hrun. unfold shortest_path, shortest_path_log in Hrun.
  destruct (bool_decide (source = target)) eqn:Heq; [done|].
  apply bool_decide_eq_false in Heq.
  destruct (people st !! source) as [p|] eqn:Hp; [|by simplify_eq/=].
  destruct (bool_decide (p_movies p = ∅)) eqn:Hmovies; [by simplify_eq/=|].
  apply bool_decide_eq_false in Hmovies.
  destruct (run iter fuel st target _) as [[o log]|] eqn:Hr; [|done].
  simpl in Hrun. injection Hrun as ->.
  apply (run_more_fuel _ _ _ _ (fuel `max` S (size (people st)))) in Hr;
    [|lia].
  destruct (search_spec iter Hiter st Hg source target Heq
              (fuel `max` S (size (people st))) p Hp Hmovies)
    as (o & log' & Hrun' & _ & Ho); [lia|].
  unfold shortest_path_log in Hrun'.
  rewrite (bool_decide_eq_false_2 _ Heq), Hp in Hrun'.
  rewrite (bool_decide_eq_false_2 _ Hmovies), Hr in Hrun'.
  by injection Hrun' as <- _.
Qed.

(** The same on a store as [load_data] builds it, where the search may
    raise [KeyError]: whatever it returns is right. *)
Lemma returned_path_kept iter st source target fuel path :
  (∀ a X, iter a X ≡ₚ elements X) →
  stars_kept st →
  shortest_path iter fuel st source target = Some (Path path) →
  valid_path st source target path
  ∧ (source ≠ target → distance st source target (length path)).
Proof.
  intros Hiter Hk Hrun. unfold shortest_path, shortest_path_log in Hrun.
  destruct (bool_decide (source = target)) eqn:Heq.
  { apply bool_decide_eq_true in Heq. by simplify_eq/=. }
  apply bool_decide_eq_false in Heq.
  destruct (people st !! source) as [p|] eqn:Hp; [|by simplify_eq/=].
  destruct (bool_decide (p_movies p = ∅)) eqn:Hmovies; [by simplify_eq/=|].
  apply bool_decide_eq_false in Hmovies.
  destruct (run iter fuel st target _) as [[o log]|] eqn:Hr; [|done].
  simpl in Hrun. injection Hrun as ->.
  apply (run_more_fuel _ _ _ _ (fuel `max` S (size (people st)))) in Hr;
    [|lia].
  destruct (search_spec_kept iter Hiter st Hk source target Heq
              (fuel `max` S (size (people st))) p Hp Hmovies)
    as (o & log' & Hrun' & _ & Ho); [lia|].
  unfold shortest_path_log in Hrun'.
  rewrite (bool_decide_eq_false_2 _ Heq), Hp in Hrun'.
  rewrite (bool_decide_eq_false_2 _ Hmovies), Hr in Hrun'.
  injection Hrun' as <- _. destruct Ho. auto.
Qed.

(** The loop raises no other exception than [KeyError]. *)
Lemma step_raises iter st target σ e log :
  step iter st target σ = Return (Raised e) log → e = KeyError.
Proof.
  unfold step. destruct (frontier σ) as [|n rest]; [done|]. cbv zeta.
  destruct (_ && _); [done|].
  match goal with
  | |- context [match ?hit with Ok _ => _ | Raise _ => _ end] =>
      assert (∀ e', hit = Raise e' → e' = KeyError) as Hhit;
      [|destruct hit as [[|]|e']]
  end.
  { intros e'. destruct (action n) as [m|]; [|done].
    destruct (movies st !! m); [done|]. by intros [= <-]. }
  - done.
  - destruct (neighbors_for_person st (state n)) as [nb|e'] eqn:Hnb.
    + by destruct (existsb _ _).
    + apply neighbors_for_person_raise in Hnb as [-> _]. by intros [= <-].
  - intros [= <- _]. by apply Hhit.
Qed.

Lemma run_raises iter st target fuel σ e log :
  run iter fuel st target σ = Some (Raised e, log) → e = KeyError.
Proof.
  revert σ. induction fuel as [|fuel IH]; intros σ; [done|]. simpl.
  destruct (step iter st target σ) as [σ'|o log'] eqn:Hstep; [apply IH|].
  intros [= -> ->]. by eapply step_raises.
Qed.

Lemma valid_path_cons_walk st a b c m l :
  stars_in st m a = true → stars_in st m b = true →
  valid_path st b c l → walk st a c (S (length l)).
Proof.
  intros Ha Hb Hl. eapply walk_cons; [by exists m|by apply valid_path_walk].
Qed.

(** A shortest path passes through no person twice. *)
Lemma shortest_valid_path_NoDup st path :
  ∀ a t, valid_path st a t path →
    (∀ n, walk st a t n → length path ≤ n) →
    NoDup (a :: (snd <$> path)).
Proof.
  induction path as [|[[m|] p] path IH]; intros a t; simpl.
  - intros _ _. apply NoDup_singleton.
  - intros (Hma & Hmp & Hrest) Hmin.
    assert (NoDup (p :: (snd <$> path))) as Hnd.
    { apply (IH p t Hrest). intros n Hn.
      specialize (Hmin (S n)
        ltac:(eapply walk_cons; [by exists m|done])). lia. }
    apply NoDup_cons. split; [|done].
    (* a path that comes back to [a] could start from there *)
    intros Hin.
    assert (∃ l, valid_path st a t l ∧ length l ≤ length path)
      as (l & Hl & Hlen).
    { clear IH Hmin Hnd. apply elem_of_cons in Hin as [->|Hin].
      { exists path. split; [done|lia]. }
      clear Hmp. revert p Hrest Hin.
      induction path as [|[[m'|] q] path IH]; intros p; simpl;
        [by intros _ ?%elem_of_nil| |done].
      intros (Hp & Hq & Hrest) [->|Hin]%elem_of_cons.
      - exists path. split; [done|lia].
      - destruct (IH q Hrest Hin) as (l & Hl & Hlen).
        exists l. split; [done|lia]. }
    specialize (Hmin _ (valid_path_walk _ _ _ _ Hl)). lia.
  - done.
Qed.

(** The lookups of [describe_path] succeed along a valid path. *)
Lemma describe_path_valid st path :
  graph_invariant st →
  ∀ a t, valid_path st a t path →
    ∃ lines, describe_path st a path = Ok lines
             ∧ length lines = length path.
Proof.
  intros Hg. induction path as [|[[m|] p] path IH]; intros a t; simpl.
  - intros _. by exists [].
  - intros (Hma & Hmp & Hrest).
    assert (acts_in st a m = true) as (pa & -> & _)%acts_in_spec
      by (by rewrite Hg).
    assert (acts_in st p m = true) as (pp & -> & _)%acts_in_spec
      by (by rewrite Hg).
    pose proof Hma as (mv & -> & _)%stars_in_spec.
    destruct (IH p t Hrest) as (lines & -> & Hlen).
    eexists. split; [done|]. simpl. by rewrite Hlen.
  - done.
Qed.

(** ** The search ends on every store *)

Lemma step_total iter st target σ n rest :
  queue_inv st σ → frontier σ = n :: rest →
  (∃ o log, step iter st target σ = Return o log ∧ NoDup (snd <$> log))
  ∨ (∃ σ', step iter st target σ = Continue σ' ∧ queue_inv st σ'
           ∧ explored_people σ' = explored_people σ ∪ {[ state n ]}
           ∧ (state n ∉ explored_people σ)
           ∧ is_Some (people st !! state n)).
Proof.
  intros [Hnd Hfresh Hknown Hlognd Hlogsub] Hfr.
  assert (state n ∉ explored_people σ) as Ha
    by (apply Hfresh; rewrite Hfr; left).
  assert (NoDup (snd <$> (expanded σ ++ [(action n, state n)]))) as Hlog'.
  { rewrite fmap_app. apply NoDup_app.
    split_and!; [done| |apply NoDup_singleton].
    intros x Hx ->%list_elem_of_singleton. apply Ha. by apply Hlogsub. }
  unfold step. rewrite Hfr. cbv zeta.
  rewrite (bool_decide_eq_false_2 _ Ha). simpl andb. cbv iota.
  match goal with
  | |- context [match ?hit with Ok _ => _ | Raise _ => _ end] =>
      destruct hit as [[|]|e]
  end; [left; eauto..| |left; eauto].
  destruct (neighbors_for_person st (state n)) as [nb|e] eqn:Hnb;
    [|left; eauto].
  destruct (existsb _ (iter (state n) nb)); [left; eauto|].
  right. eexists. split; [done|].
  assert (is_Some (people st !! state n)) as Hrec.
  { unfold neighbors_for_person in Hnb.
    destruct (people st !! state n); [eauto|done]. }
  split_and!; [|done|done|done].
  set (ep := explored_people σ ∪ {[ state n ]}).
  match goal with
  | |- context [enqueue_children n ?l ep ?em rest] =>
      destruct (enqueue_children_spec n l ep em rest)
        as (C & -> & HC & HCnd & _)
  end.
  rewrite Hfr in *. simpl in Hnd. apply NoDup_cons in Hnd as [Hnrest Hndrest].
  rewrite Forall_forall in HC.
  split; cbn [frontier explored_people explored_movies expanded]; fold ep.
  - by apply HCnd.
  - intros c [Hc|Hc]%elem_of_app.
    + subst ep. intros [Hin|Heq%elem_of_singleton]%elem_of_union.
      * eapply Hfresh; [by right|done].
      * apply Hnrest. rewrite <- Heq. apply list_elem_of_fmap. eauto.
    + apply HC in Hc as (m & q & -> & _ & Hq & _). done.
  - intros a. subst ep.
    intros [Hin| ->%elem_of_singleton]%elem_of_union; auto.
  - done.
  - rewrite fmap_app.
    intros a [Hin| ->%list_elem_of_singleton]%elem_of_app; subst ep.
    + apply elem_of_union. left. by apply Hlogsub.
    + apply elem_of_union. right. by apply elem_of_singleton.
Qed.

Lemma run_total iter st target fuel :
  ∀ σ, queue_inv st σ →
    size (dom (people st) ∖ explored_people σ) < fuel →
    ∃ o log, run iter fuel st target σ = Some (o, log)
             ∧ NoDup (snd <$> log).
Proof.
  induction fuel as [|fuel IH]; intros σ Hinv Hsize; [lia|].
  simpl. destruct (frontier σ) as [|n rest] eqn:Hfr.
  - unfold step. rewrite Hfr. exists NotFound, (expanded σ).
    split; [done|]. by eapply qi_log_nodup.
  - destruct (step_total iter st target σ n rest Hinv Hfr)
      as [(o & log & -> & Hnd)|(σ' & -> & Hinv' & Hep & Hfresh & Hrec)];
      [eauto|].
    apply (IH _ Hinv'). rewrite Hep.
    assert (dom (people st) ∖ (explored_people σ ∪ {[state n]})
            ⊂ dom (people st) ∖ explored_people σ) as Hsub.
    { split.
      - intros x [Hx Hnx]%elem_of_difference. apply elem_of_difference.
        split; [done|]. intros ?. apply Hnx. apply elem_of_union. by left.
      - intros Hsub. specialize (Hsub (state n)).
        rewrite !elem_of_difference, elem_of_union, elem_of_singleton in Hsub.
        destruct Hsub as [_ Hsub]; [by split; [apply elem_of_dom|]|].
        apply Hsub. by right. }
    apply subset_size in Hsub. lia.
Qed.

(** ** Theorems *)




(** C2: every sequence that [shortest_path] returns is an alternating path
    from the source to the target: the movie of each hop has in its star set
    the person before the hop and the person of the hop, and the person of
    the last hop is the target.  This holds on the tables that [load_data]
    builds from any rows, and on every store whose star sets agree with the
    movie sets on the movies that have a record, so also on every store
    that keeps the graph invariant. *)
Theorem shortest_path_valid iter source target fuel path :
  (∀ a X, iter a X ≡ₚ elements X) →
  (∀ lower prs mrs srs,
     shortest_path iter fuel (load_data lower prs mrs srs empty_store)
       source target = Some (Path path) →
     valid_path (load_data lower prs mrs srs empty_store) source target path
     ∧ (path ≠ [] → snd <$> last path = Some target))
  ∧ (∀ st, stars_kept st ∨ graph_invariant st →
       shortest_path iter fuel st source target = Some (Path path) →
       valid_path st source target path
       ∧ (path ≠ [] → snd <$> last path = Some target)).
Proof.
  intros Hiter.
  assert (∀ st, stars_kept st →
            shortest_path iter fuel st source target = Some (Path path) →
            valid_path st source target path
            ∧ (path ≠ [] → snd <$> last path = Some target)) as Hkept.
  { intros st Hk Hrun.
    destruct (returned_path_kept _ _ _ _ _ _ Hiter Hk Hrun) as [Hvalid _].
    split; [done|]. by eapply valid_path_last. }
  split.
  - intros lower prs mrs srs. apply Hkept, load_data_stars_kept.
  - intros st [Hk|Hg]; [by apply Hkept|].
    by apply Hkept, graph_invariant_stars_kept.
Qed.

Lemma shortest_path_valid_witness :
  valid_path demo_loaded "ann" "bob" [(Some "m1", "bob")]
  ∧ ([(Some "m1", "bob")] ≠ []
     → snd <$> last [(Some "m1", "bob")] = Some "bob").
Proof.
  assert (∀ (a : string) (X : gset (string * string)),
            elements X ≡ₚ elements X) as Hiter by reflexivity.
  apply (proj1 (shortest_path_valid (λ _, elements) "ann" "bob" 10
                  [(Some "m1", "bob")] Hiter)
               (λ s, s) demo_people_rows demo_movies_rows demo_stars_rows).
  vm_compute. reflexivity.
Defined.




(** C5, as amended: on every store and for every order of the visits,
    [shortest_path] ends within one loop turn per record of [people] and
    one more, with a path, with not-found or with an exception, and
    [neighbors_for_person] is called at most once on each person.  The
    no-movies error is raised exactly for a source that is distinct from
    the target and has an empty movie set; [KeyError] is raised only when
    the source has no record or the store breaks the graph invariant. *)
Theorem shortest_path_terminates iter st source target fuel :
  size (people st) < fuel →
  ∃ o log, shortest_path_log iter fuel st source target = Some (o, log)
    ∧ shortest_path iter fuel st source target = Some o
    ∧ NoDup (snd <$> log)
    ∧ (o = Raised NoMovies
       ↔ source ≠ target
         ∧ ∃ p, people st !! source = Some p ∧ p_movies p = ∅)
    ∧ ((∀ a X, iter a X ≡ₚ elements X) → graph_invariant st →
       is_Some (people st !! source) → o ≠ Raised KeyError).
Proof.
  intros Hfuel. unfold shortest_path.
  destruct (decide (source = target)) as [Heq|Hne].
  { exists (Path []), []. unfold shortest_path_log.
    rewrite (bool_decide_eq_true_2 _ Heq).
    split_and!; [done|done|constructor| |done].
    split; [done|]. by intros [? _]. }
  destruct (people st !! source) as [p|] eqn:Hp.
  2: { exists (Raised KeyError), []. unfold shortest_path_log.
       rewrite (bool_decide_eq_false_2 _ Hne), Hp.
       split_and!; [done|done|constructor| |].
       - split; [done|]. by intros (_ & ? & ? & _).
       - by intros _ _ [? ?]. }
  destruct (decide (p_movies p = ∅)) as [Hempty|Hmovies].
  { exists (Raised NoMovies), []. unfold shortest_path_log.
    rewrite (bool_decide_eq_false_2 _ Hne), Hp.
    rewrite (bool_decide_eq_true_2 _ Hempty).
    split_and!; [done|done|constructor| |done].
    split; [eauto|done]. }
  destruct (run_total iter st target fuel
              (SearchState [Node source None None] ∅ ∅ []))
    as (o & log & Hrun & Hnd).
  { split; simpl.
    - apply NoDup_singleton.
    - intros ? _. apply not_elem_of_empty.
    - intros ? H'. by apply not_elem_of_empty in H'.
    - constructor.
    - intros ? H'. by apply elem_of_nil in H'. }
  { simpl. by rewrite difference_empty_L, size_dom. }
  assert (shortest_path_log iter fuel st source target = Some (o, log))
    as Hlog.
  { unfold shortest_path_log.
    rewrite (bool_decide_eq_false_2 _ Hne), Hp.
    by rewrite (bool_decide_eq_false_2 _ Hmovies). }
  exists o, log. rewrite Hlog. split_and!; [done|done|done| |].
  - split.
    + intros ->. by apply run_raises in Hrun.
    + intros (_ & p' & [= <-] & Hempty). done.
  - intros Hiter Hg _ ->.
    destruct (search_spec iter Hiter st Hg source target Hne fuel p Hp
                Hmovies Hfuel) as (o' & log' & Hrun' & _ & Ho).
    rewrite Hlog in Hrun'. by injection Hrun' as <- _.
Qed.

Lemma shortest_path_terminates_witness :
  ∃ o log,
    shortest_path_log (λ _, elements) 4 demo_loaded "ann" "cy" = Some (o, log)
    ∧ shortest_path (λ _, elements) 4 demo_loaded "ann" "cy" = Some o
    ∧ NoDup (snd <$> log)
    ∧ (o = Raised NoMovies
       ↔ "ann" ≠ "cy"
         ∧ ∃ p, people demo_loaded !! "ann" = Some p ∧ p_movies p = ∅)
    ∧ ((∀ (a : string) (X : gset (string * string)),
          elements X ≡ₚ elements X) →
       graph_invariant demo_loaded →
       is_Some (people demo_loaded !! "ann") → o ≠ Raised KeyError).
Proof.
  apply (shortest_path_terminates (λ _, elements) demo_loaded "ann" "cy" 4).
  vm_compute. lia.
Defined.

(** C5, the claim as stated fails for movies: searching from Dee for Ann
    expands Dee, Gus and Fay once each, but the nodes of Gus and Fay were
    both reached by m3, and [neighbors_for_person] reads the star set of m3
    once for each of the three (the check of line 172 reads it again for
    the nodes of Gus and Fay).  Besides, a search from Eve, who has no
    movie, ends by raising the error, neither with a path nor with
    not-found. *)
Lemma shortest_path_reads_movie_again :
  shortest_path_log (λ _, elements) 10 demo "dee" "ann"
    = Some (NotFound, [(None, "dee"); (Some "m3", "gus"); (Some "m3", "fay")])
  ∧ omap fst [(None, "dee"); (Some "m3", "gus"); (Some "m3", "fay")]
    = ["m3"; "m3"]
  ∧ star_reads demo ["dee"; "gus"; "fay"] = ["m3"; "m3"; "m3"]
  ∧ ¬ NoDup ["m3"; "m3"]
  ∧ ¬ NoDup ["m3"; "m3"; "m3"]
  ∧ shortest_path_log (λ _, elements) 10 demo "eve" "dee"
    = Some (Raised NoMovies, []).
Proof.
  split_and!; [vm_compute; reflexivity..| | |vm_compute; reflexivity].
  - intros [Hin _]%NoDup_cons. apply Hin. left.
  - intros [Hin _]%NoDup_cons. apply Hin. left.
Qed.

(** C6, as amended: for a person who has a record, [neighbors_for_person]
    raises [KeyError], and then a movie of the person has no record, or it
    returns the set that holds the pair [(m, q)] exactly when [m] is a movie
    of the person and [q] is in the star set of [m].  This set holds the
    self-pair [(m, P)] for every movie [m] of [P] whose star set holds [P]:
    for every movie of [P] when the star sets agree with the movie sets on
    the movies that have a record. *)
Theorem neighbors_for_person_pairs st P :
  is_Some (people st !! P) →
  (neighbors_for_person st P = Raise KeyError
   ∧ ∃ m, acts_in st P m = true ∧ movies st !! m = None)
  ∨ (∃ nb, neighbors_for_person st P = Ok nb
       ∧ (∀ m q, (m, q) ∈ nb
                 ↔ acts_in st P m = true ∧ stars_in st m q = true)
       ∧ (∀ m, acts_in st P m = true → stars_in st m P = true →
               (m, P) ∈ nb)
       ∧ (stars_kept st → ∀ m, acts_in st P m = true → (m, P) ∈ nb)).
Proof.
  intros HP. destruct (neighbors_for_person st P) as [nb|e] eqn:Hnb.
  - right. pose proof (neighbors_for_person_spec _ _ _ Hnb) as Hspec.
    exists nb. split_and!; [done|done| |].
    + intros m Hm Hs. by apply Hspec.
    + intros Hk m Hm. apply Hspec. split; [done|]. apply Hk. split; [done|].
      destruct (movies st !! m) as [mv|] eqn:Hmv; [eauto|].
      assert (neighbors_for_person st P = Raise KeyError) as Hr
        by (apply neighbors_for_person_raise; eauto).
      congruence.
  - left. apply neighbors_for_person_raise in Hnb as [-> [Hnone|Hm]]; [|done].
    rewrite Hnone in HP. by destruct HP.
Qed.

Lemma neighbors_for_person_pairs_witness :
  (neighbors_for_person demo_loaded "ann" = Raise KeyError
   ∧ ∃ m, acts_in demo_loaded "ann" m = true ∧ movies demo_loaded !! m = None)
  ∨ (∃ nb, neighbors_for_person demo_loaded "ann" = Ok nb
       ∧ (∀ m q, (m, q) ∈ nb
                 ↔ acts_in demo_loaded "ann" m = true
                   ∧ stars_in demo_loaded m q = true)
       ∧ (∀ m, acts_in demo_loaded "ann" m = true →
               stars_in demo_loaded m "ann" = true → (m, "ann") ∈ nb)
       ∧ (stars_kept demo_loaded →
          ∀ m, acts_in demo_loaded "ann" m = true → (m, "ann") ∈ nb)).
Proof.
  apply (neighbors_for_person_pairs demo_loaded "ann").
  eexists. vm_compute. reflexivity.
Defined.

(** C6, the claim as stated fails: expanding Ann yields the pair of her
    movie m1 and herself. *)
Lemma neighbors_for_person_self_pair :
  ∃ nb, neighbors_for_person demo "ann" = Ok nb ∧ ("m1", "ann") ∈ nb.
Proof.
  destruct (neighbors_for_person_ok demo "ann") as [nb Hnb].
  - apply graph_invariant_b_spec. vm_compute. reflexivity.
  - exists (mk_person ["m1"]). vm_compute. reflexivity.
  - exists nb. split; [done|].
    apply (neighbors_for_person_spec _ _ _ Hnb). split; vm_compute; reflexivity.
Qed.

(** C9: [shortest_path(P, P)] returns the empty sequence. *)
Theorem shortest_path_same_person iter st P fuel :
  shortest_path iter fuel st P P = Some (Path []).
Proof.
  unfold shortest_path, shortest_path_log.
  by rewrite bool_decide_eq_true_2.
Qed.

(** C10: when the source is the target and has no movie, the empty sequence
    is returned: the equality check comes before the check of the movie set,
    which raises for every other target. *)
Theorem shortest_path_same_person_no_movies iter st P p fuel :
  people st !! P = Some p →
  p_movies p = ∅ →
  shortest_path iter fuel st P P = Some (Path [])
  ∧ ∀ target, target ≠ P →
      shortest_path iter fuel st P target = Some (Raised NoMovies).
Proof.
  intros Hp Hempty. unfold shortest_path, shortest_path_log. split.
  - by rewrite bool_decide_eq_true_2.
  - intros target Hne. rewrite bool_decide_eq_false_2 by done.
    rewrite Hp. by rewrite (bool_decide_eq_true_2 _ Hempty).
Qed.

Lemma shortest_path_same_person_no_movies_witness :
  shortest_path (λ _, elements) 0 demo "eve" "eve" = Some (Path [])
  ∧ ∀ target, target ≠ "eve" →
      shortest_path (λ _, elements) 0 demo "eve" target = Some (Raised NoMovies).
Proof.
  apply (shortest_path_same_person_no_movies (λ _, elements) demo "eve" (mk_person []) 0).
  - vm_compute. reflexivity.
  - reflexivity.
Defined.

(** ** Further theorems *)

(** X1: started on the empty tables, [load_data] leaves a record for
    exactly the ids of the people rows and of the movie rows; a person's
    movie set holds the movies of the star rows of that person, known or
    not, and a movie's star set holds the persons of its star rows whose
    person and movie are both known. *)
Theorem load_data_tables lower prs mrs srs p m :
  (is_Some (people (load_data lower prs mrs srs empty_store) !! p)
   ↔ p ∈ pr_id <$> prs)
  ∧ (is_Some (movies (load_data lower prs mrs srs empty_store) !! m)
     ↔ m ∈ mr_id <$> mrs)
  ∧ (acts_in (load_data lower prs mrs srs empty_store) p m = true
     ↔ p ∈ pr_id <$> prs ∧ StarsRow p m ∈ srs)
  ∧ (stars_in (load_data lower prs mrs srs empty_store) m p = true
     ↔ p ∈ pr_id <$> prs ∧ m ∈ mr_id <$> mrs ∧ StarsRow p m ∈ srs).
Proof.
  destruct (load_data_spec lower prs mrs srs) as (H1 & H2 & H3 & H4 & _).
  split_and!; [apply H1|apply H2|apply H3|apply H4].
Qed.

(** X2: the tables that [load_data] builds keep the graph invariant exactly
    when no star row names a known person with an unknown movie. *)
Theorem load_data_graph_invariant lower prs mrs srs :
  graph_invariant (load_data lower prs mrs srs empty_store)
  ↔ ∀ p m, StarsRow p m ∈ srs → p ∈ pr_id <$> prs → m ∈ mr_id <$> mrs.
Proof.
  destruct (load_data_spec lower prs mrs srs) as (_ & _ & H3 & H4 & _).
  split.
  - intros Hg p m Hrow Hp.
    assert (acts_in (load_data lower prs mrs srs empty_store) p m = true)
      as Ha by (by apply H3).
    rewrite Hg in Ha. apply H4 in Ha. tauto.
  - intros Hrows p m.
    destruct (acts_in _ p m) eqn:Ha.
    + symmetry. apply H4. apply H3 in Ha as [? ?]. split_and!; eauto.
    + destruct (stars_in _ m p) eqn:Hs; [|done].
      apply H4 in Hs as (? & ? & ?). rewrite <- Ha. apply H3. by split.
Qed.

(** X3: on the tables that [load_data] builds, [person_id_for_name] raises
    nothing and returns only ids that have a record and are listed under the
    lowered name; and a person is found under the name of the record, the
    person's own id given as the answer when the name is shared. *)
Theorem person_id_for_name_loaded lower prs mrs srs name answer :
  (∃ r, person_id_for_name lower (load_data lower prs mrs srs empty_store)
          name answer = Ok r
        ∧ ∀ id, r = Some id →
            is_Some (people (load_data lower prs mrs srs empty_store) !! id)
            ∧ ∃ ids, names (load_data lower prs mrs srs empty_store)
                       !! lower name = Some ids ∧ id ∈ ids)
  ∧ (∀ id p,
       people (load_data lower prs mrs srs empty_store) !! id = Some p →
       person_id_for_name lower (load_data lower prs mrs srs empty_store)
         (p_name p) id = Ok (Some id)).
Proof.
  destruct (load_data_spec lower prs mrs srs)
    as (_ & _ & _ & _ & Hknown & Hnamed).
  set (st := load_data lower prs mrs srs empty_store) in *.
  assert (∀ ids : gset person_id,
            (∀ id, id ∈ ids → is_Some (people st !! id)) →
            forallb (λ id, bool_decide (is_Some (people st !! id)))
                    (elements ids) = true) as Hall.
  { intros ids Hids. apply forallb_forall.
    intros id Hid%list_elem_of_In%elem_of_elements.
    apply bool_decide_eq_true. auto. }
  split.
  - unfold person_id_for_name.
    destruct (names st !! lower name) as [ids|] eqn:Hn.
    2: { rewrite elements_empty. by exists None. }
    specialize (Hall ids (λ id, Hknown _ _ id Hn)).
    destruct (elements ids) as [|x [|y l]] eqn:Hel.
    + by exists None.
    + exists (Some x). split; [done|]. intros id [= <-].
      assert (x ∈ ids) by (apply elem_of_elements; rewrite Hel; left).
      split; [by eapply Hknown|eauto].
    + rewrite Hall. eexists. split; [done|]. intros id.
      case_bool_decide; [|done]. intros [= <-].
      split; [by eapply Hknown|eauto].
  - intros id p Hp. destruct (Hnamed _ _ Hp) as (ids & Hn & Hid).
    unfold person_id_for_name. rewrite Hn.
    specialize (Hall ids (λ id, Hknown _ _ id Hn)).
    pose proof Hid as Hid'. apply elem_of_elements in Hid'.
    destruct (elements ids) as [|x [|y l]] eqn:Hel.
    + by apply elem_of_nil in Hid'.
    + by apply list_elem_of_singleton in Hid' as ->.
    + rewrite Hall. by rewrite bool_decide_eq_true_2.
Qed.

(** X4: [neighbors_for_person] returns a set exactly when the person has a
    record and every movie of the person has one; in every other case it
    raises [KeyError]. *)
Theorem neighbors_for_person_key_error st a :
  ((∃ nb, neighbors_for_person st a = Ok nb)
   ↔ is_Some (people st !! a)
     ∧ ∀ m, acts_in st a m = true → is_Some (movies st !! m))
  ∧ ((¬ ∃ nb, neighbors_for_person st a = Ok nb)
     → neighbors_for_person st a = Raise KeyError).
Proof.
  split.
  - split.
    + intros [nb Hnb]. split.
      * unfold neighbors_for_person in Hnb.
        destruct (people st !! a); [eauto|done].
      * intros m Hm. destruct (movies st !! m) eqn:Hmv; [eauto|].
        assert (neighbors_for_person st a = Raise KeyError) as Hr
          by (apply neighbors_for_person_raise; eauto).
        congruence.
    + intros [Hp Hm].
      destruct (neighbors_for_person st a) as [nb|e] eqn:Hnb; [eauto|].
      apply neighbors_for_person_raise in Hnb as [_ [Hnone|(m & Ha & Hnone)]].
      * rewrite Hnone in Hp. by destruct Hp.
      * specialize (Hm _ Ha). rewrite Hnone in Hm. by destruct Hm.
  - intros Hno. destruct (neighbors_for_person st a) as [nb|e] eqn:Hnb.
    + exfalso. eauto.
    + by apply neighbors_for_person_raise in Hnb as [-> _].
Qed.

(** X5: when a star row names a known person and an unknown movie, the
    tables that [load_data] builds make [shortest_path] from that person to
    any other raise [KeyError]. *)
Theorem load_data_unknown_movie_raises lower prs mrs srs iter fuel p m target :
  StarsRow p m ∈ srs →
  p ∈ pr_id <$> prs →
  m ∉ mr_id <$> mrs →
  p ≠ target →
  shortest_path iter (S fuel) (load_data lower prs mrs srs empty_store)
    p target = Some (Raised KeyError).
Proof.
  intros Hrow Hp Hm Hne.
  destruct (load_data_spec lower prs mrs srs) as (_ & H2 & H3 & _).
  eapply shortest_path_raise_from_source; [done|].
  apply neighbors_for_person_raise. split; [done|]. right. exists m.
  split; [by apply H3|].
  destruct (movies _ !! m) eqn:Hmv; [|done].
  exfalso. apply Hm, H2. eauto.
Qed.

Lemma load_data_unknown_movie_raises_witness :
  shortest_path (λ _, elements) 1
    (load_data (λ s, s) demo_people_rows demo_movies_rows demo_stars_rows
       empty_store) "bob" "ann"
  = Some (Raised KeyError).
Proof.
  apply (load_data_unknown_movie_raises (λ s, s) demo_people_rows
           demo_movies_rows demo_stars_rows (λ _, elements) 0 "bob" "m9" "ann").
  - vm_compute. do 2 right. left.
  - vm_compute. right. left.
  - vm_compute. intros H. apply list_elem_of_In in H. simpl in H.
    intuition discriminate.
  - discriminate.
Defined.

(** X6: on every store, also one that breaks the graph invariant, and for
    every order of the visits, [shortest_path] ends within one loop turn per
    record of [people] and one more, and calls [neighbors_for_person] on no
    person twice. *)
Theorem shortest_path_total iter st source target fuel :
  size (people st) < fuel →
  ∃ o log, shortest_path_log iter fuel st source target = Some (o, log)
           ∧ shortest_path iter fuel st source target = Some o
           ∧ NoDup (snd <$> log).
Proof.
  intros Hfuel. unfold shortest_path, shortest_path_log.
  case_bool_decide.
  { exists (Path []), []. split_and!; [done|done|constructor]. }
  destruct (people st !! source) as [p|].
  2: { exists (Raised KeyError), []. split_and!; [done|done|constructor]. }
  case_bool_decide.
  { exists (Raised NoMovies), []. split_and!; [done|done|constructor]. }
  destruct (run_total iter st target fuel
              (SearchState [Node source None None] ∅ ∅ []))
    as (o & log & Hrun & Hnd).
  - split; simpl.
    + apply NoDup_singleton.
    + intros ? _. apply not_elem_of_empty.
    + intros ? H'. by apply not_elem_of_empty in H'.
    + constructor.
    + intros ? H'. by apply elem_of_nil in H'.
  - simpl. by rewrite difference_empty_L, size_dom.
  - exists o, log. rewrite Hrun. done.
Qed.

Lemma shortest_path_total_witness :
  ∃ o log,
    shortest_path_log (λ _, elements) 4
      (load_data (λ s, s) demo_people_rows demo_movies_rows demo_stars_rows
         empty_store) "ann" "cy" = Some (o, log)
    ∧ shortest_path (λ _, elements) 4
        (load_data (λ s, s) demo_people_rows demo_movies_rows demo_stars_rows
           empty_store) "ann" "cy" = Some o
    ∧ NoDup (snd <$> log).
Proof.
  apply (shortest_path_total (λ _, elements)
           (load_data (λ s, s) demo_people_rows demo_movies_rows
              demo_stars_rows empty_store) "ann" "cy" 4).
  vm_compute. lia.
Defined.

(** X7: on a store that keeps the graph invariant the answer of
    [shortest_path] is right both ways: it returns not-found only when the
    two persons are not connected, and a path only when they are. *)
Theorem shortest_path_answer_sound iter st source target fuel :
  (∀ a X, iter a X ≡ₚ elements X) →
  graph_invariant st →
  (shortest_path iter fuel st source target = Some NotFound →
   ¬ connected st source target)
  ∧ (∀ path, shortest_path iter fuel st source target = Some (Path path) →
       connected st source target).
Proof.
  intros Hiter Hg. split.
  - by apply not_found_spec.
  - intros path [Hvalid _]%returned_path_spec; [|done..].
    eexists. by eapply valid_path_walk.
Qed.

Lemma shortest_path_answer_sound_witness :
  ¬ connected demo "ann" "dee" ∧ connected demo "ann" "cy".
Proof.
  assert (∀ (a : string) (X : gset (string * string)),
            elements X ≡ₚ elements X) as Hiter by reflexivity.
  assert (graph_invariant demo) as Hg
    by (apply graph_invariant_b_spec; vm_compute; reflexivity).
  split.
  - apply (proj1 (shortest_path_answer_sound (λ _, elements) demo "ann" "dee"
                    10 Hiter Hg)).
    vm_compute. reflexivity.
  - apply (proj2 (shortest_path_answer_sound (λ _, elements) demo "ann" "cy"
                    10 Hiter Hg) [(Some "m1", "bob"); (Some "m2", "cy")]).
    vm_compute. reflexivity.
Defined.

(** X8: on a store that keeps the graph invariant, a path returned by
    [shortest_path] passes through no person twice, the source included,
    and is empty only when the source is the target. *)
Theorem shortest_path_simple iter st source target fuel path :
  (∀ a X, iter a X ≡ₚ elements X) →
  graph_invariant st →
  shortest_path iter fuel st source target = Some (Path path) →
  NoDup (source :: (snd <$> path)) ∧ (path = [] ↔ source = target).
Proof.
  intros Hiter Hg Hrun.
  destruct (returned_path_spec _ _ _ _ _ _ Hiter Hg Hrun) as [Hvalid Hdist].
  destruct (decide (source = target)) as [->|Hne].
  - unfold shortest_path, shortest_path_log in Hrun.
    rewrite bool_decide_eq_true_2 in Hrun by done. simpl in Hrun.
    injection Hrun as <-. split; [apply NoDup_singleton|done].
  - split.
    + eapply shortest_valid_path_NoDup; [done|]. by apply Hdist.
    + split; [|done]. intros ->. by simpl in Hvalid.
Qed.

Lemma shortest_path_simple_witness :
  NoDup ("ann" :: (snd <$> [(Some "m1", "bob"); (Some "m2", "cy")]))
  ∧ ([(Some "m1", "bob"); (Some "m2", "cy")] = [] ↔ "ann" = "cy").
Proof.
  apply (shortest_path_simple (λ _, elements) demo "ann" "cy" 10).
  - intros a X. reflexivity.
  - apply graph_invariant_b_spec. vm_compute. reflexivity.
  - vm_compute. reflexivity.
Defined.

(** X9: on a store that keeps the graph invariant, the number of hops that
    [shortest_path] returns depends neither on the order of the visits nor
    on the direction of the question: any two runs between the same two
    persons, either way round, return paths of one length. *)
Theorem shortest_path_length_symmetric iter1 iter2 st P Q fuel1 fuel2 path1 :
  (∀ a X, iter1 a X ≡ₚ elements X) →
  (∀ a X, iter2 a X ≡ₚ elements X) →
  graph_invariant st →
  shortest_path iter1 fuel1 st P Q = Some (Path path1) →
  (∀ path2, shortest_path iter2 fuel2 st P Q = Some (Path path2) →
     length path2 = length path1)
  ∧ (∀ path2, shortest_path iter2 fuel2 st Q P = Some (Path path2) →
       length path2 = length path1).
Proof.
  intros Hiter1 Hiter2 Hg Hrun1.
  destruct (returned_path_spec _ _ _ _ _ _ Hiter1 Hg Hrun1) as [Hv1 Hd1].
  destruct (decide (P = Q)) as [->|Hne].
  { assert (∀ iter fuel path, shortest_path iter fuel st Q Q = Some (Path path)
              → path = []) as Hnil.
    { intros iter fuel path. unfold shortest_path, shortest_path_log.
      rewrite bool_decide_eq_true_2 by done. by intros [= <-]. }
    rewrite (Hnil _ _ _ Hrun1).
    split; intros path2 Hrun2; by rewrite (Hnil _ _ _ Hrun2). }
  specialize (Hd1 Hne). split; intros path2 Hrun2.
  - destruct (returned_path_spec _ _ _ _ _ _ Hiter2 Hg Hrun2) as [_ Hd2].
    by eapply distance_unique; [apply Hd2|].
  - destruct (returned_path_spec _ _ _ _ _ _ Hiter2 Hg Hrun2) as [_ Hd2].
    eapply distance_unique; [apply distance_sym, Hd2; by intros ->|done].
Qed.

Lemma shortest_path_length_symmetric_witness :
  (∀ path2, shortest_path (λ _, elements) 10 demo "ann" "cy"
            = Some (Path path2) → length path2 = 2)
  ∧ (∀ path2, shortest_path (λ _, elements) 10 demo "cy" "ann"
              = Some (Path path2) → length path2 = 2).
Proof.
  apply (shortest_path_length_symmetric (λ _, elements) (λ _, elements) demo
           "ann" "cy" 10 10 [(Some "m1", "bob"); (Some "m2", "cy")]).
  - intros a X. reflexivity.
  - intros a X. reflexivity.
  - apply graph_invariant_b_spec. vm_compute. reflexivity.
  - vm_compute. reflexivity.
Defined.

(** X10: the report of [main] succeeds on every path that [shortest_path]
    returns on a store that keeps the graph invariant: every lookup of a
    name or a title finds its record, and the report has one line for each
    hop. *)
Theorem describe_path_of_shortest_path iter st source target fuel path :
  (∀ a X, iter a X ≡ₚ elements X) →
  graph_invariant st →
  shortest_path iter fuel st source target = Some (Path path) →
  ∃ lines, describe_path st source path = Ok lines
           ∧ length lines = length path.
Proof.
  intros Hiter Hg Hrun.
  destruct (returned_path_spec _ _ _ _ _ _ Hiter Hg Hrun) as [Hvalid _].
  by eapply describe_path_valid.
Qed.

Lemma describe_path_of_shortest_path_witness :
  ∃ lines,
    describe_path demo "ann" [(Some "m1", "bob"); (Some "m2", "cy")]
    = Ok lines
    ∧ length lines = length [(Some "m1", "bob"); (Some "m2", "cy")].
Proof.
  apply (describe_path_of_shortest_path (λ _, elements) demo "ann" "cy" 10).
  - intros a X. reflexivity.
  - apply graph_invariant_b_spec. vm_compute. reflexivity.
  - vm_compute. reflexivity.
Defined.

End Degrees.

Module TicTacToe.

(** ** The board model of [tictactoe.py] *)

Inductive mark := X | O.

#[global] Instance mark_eq_dec : EqDecision mark.
Proof. solve_decision. Defined.

(** A cell is [EMPTY] (Python's [None]) or holds a mark; a board is a list of
    rows, as in the source. *)
Abbreviation cell := (option mark) (only parsing).
Abbreviation board := (list (list (option mark))) (only parsing).
Abbreviation move := (Z * Z)%type (only parsing).

Definition EMPTY : cell := None.

Definition initial_state : board :=
  [[EMPTY; EMPTY; EMPTY]; [EMPTY; EMPTY; EMPTY]; [EMPTY; EMPTY; EMPTY]].

(** [board[i][j]]; on a 3x3 board the indices the program uses are in range
    (outside it Python raises [IndexError], here the cell reads as empty). *)
Definition get (b : board) (i j : Z) : cell :=
  match b !! Z.to_nat i with
  | Some row => match row !! Z.to_nat j with Some c => c | None => None end
  | None => None
  end.

(** [sum(cell == m for row in board for cell in row)] *)
Definition count_mark (m : mark) (b : board) : nat :=
  length (filter (λ c, c = Some m) (concat b)).

Definition player (b : board) : mark :=
  if bool_decide (count_mark O b < count_mark X b) then O else X.

(** [(i, j) for i in range(3) for j in range(3)] *)
Definition coords : list move :=
  i ← seqZ 0 3; j ← seqZ 0 3; [(i, j)].

Definition actions_list (b : board) : list move :=
  filter (λ a, get b a.1 a.2 = EMPTY) coords.

Definition actions (b : board) : gset move :=
  list_to_set (actions_list b).

Inductive exn :=
| ValueError      (* ValueError("Invalid action") *)
| TypeError.      (* the argument is not a list of lists *)

(** The outcome of a call: a value, an exception, or (not a Python outcome)
    the fuel of the model ran out. *)
Inductive res (A : Type) :=
| Ok (a : A)
| Raise (e : exn)
| OutOfFuel.
Arguments Ok {A} a.
Arguments Raise {A} e.
Arguments OutOfFuel {A}.

(** Sequencing: an exception (or the lack of fuel) ends the computation. *)
#[global] Instance res_bind : MBind res := λ A B k r,
  match r with
  | Ok a => k a
  | Raise e => Raise e
  | OutOfFuel => OutOfFuel
  end.

(** [new_board[i][j] = mark] on the copy of the rows. *)
Definition set_cell (b : board) (i j : Z) (m : mark) : board :=
  match b !! Z.to_nat i with
  | Some row => <[Z.to_nat i := <[Z.to_nat j := Some m]> row]> b
  | None => b
  end.

Definition result (b : board) (a : move) : res board :=
  let '(i, j) := a in
  if bool_decide (i < 0)%Z || bool_decide (i >= 3)%Z
     || bool_decide (j < 0)%Z || bool_decide (j >= 3)%Z
     || negb (bool_decide (get b i j = EMPTY))
  then Raise ValueError
  else Ok (set_cell b i j (player b)).

(** *** [result] on the heap

    A Python board is a list object whose elements refer to row objects, and
    [new_board[i][j] = ...] writes into a row object.  The heap maps
    references to these objects. *)

Abbreviation loc := nat (only parsing).

Inductive pyobj :=
| PyRow (cells : list (option mark))
| PyBoard (rows : list loc).

Abbreviation heap := (gmap nat pyobj) (only parsing).

Definition read_row (h : heap) (l : loc) : option (list cell) :=
  match h !! l with
  | Some (PyRow cs) => Some cs
  | _ => None
  end.

(** The board value that a reference denotes. *)
Definition read_board (h : heap) (l : loc) : option board :=
  match h !! l with
  | Some (PyBoard rs) => mapM (read_row h) rs
  | _ => None
  end.

(** [[row.copy() for row in board]]: a new row object for every row. *)
Fixpoint copy_rows (h : heap) (rows : board) : heap * list loc :=
  match rows with
  | [] => (h, [])
  | cs :: rest =>
      let l := fresh (dom h) in
      let '(h', ls) := copy_rows (<[l := PyRow cs]> h) rest in
      (h', l :: ls)
  end.

Definition result_heap (h : heap) (bl : loc) (a : move) : heap * res loc :=
  match read_board h bl with
  | None => (h, Raise TypeError)
  | Some b =>
      let '(i, j) := a in
      if bool_decide (i < 0)%Z || bool_decide (i >= 3)%Z
         || bool_decide (j < 0)%Z || bool_decide (j >= 3)%Z
         || negb (bool_decide (get b i j = EMPTY))
      then (h, Raise ValueError)
      else
        let '(h1, ls) := copy_rows h b in
        let new_board := fresh (dom h1) in
        let h2 := <[new_board := PyBoard ls]> h1 in
        match read_board h2 bl, ls !! Z.to_nat i with
        | Some b2, Some ri =>
            match read_row h2 ri with
            | Some cs =>
                (<[ri := PyRow (<[Z.to_nat j := Some (player b2)]> cs)]> h2,
                 Ok new_board)
            | None => (h2, Raise TypeError)
            end
        | _, _ => (h2, Raise TypeError)
        end
  end.

(** [a == b == c != EMPTY] *)
Definition three (a b c : cell) : bool :=
  bool_decide (a = b) && bool_decide (b = c) && bool_decide (c ≠ EMPTY).

Definition at_col (row : list cell) (j : nat) : cell :=
  match row !! j with Some c => c | None => None end.

Fixpoint winner_rows (rows : board) : cell :=
  match rows with
  | [] => None
  | row :: rest =>
      if three (at_col row 0) (at_col row 1) (at_col row 2)
      then at_col row 0
      else winner_rows rest
  end.

Fixpoint winner_cols (b : board) (cols : list Z) : cell :=
  match cols with
  | [] => None
  | col :: rest =>
      if three (get b 0 col) (get b 1 col) (get b 2 col)
      then get b 0 col
      else winner_cols b rest
  end.

Definition winner (b : board) : cell :=
  match winner_rows b with
  | Some w => Some w
  | None =>
      match winner_cols b (seqZ 0 3) with
      | Some w => Some w
      | None =>
          if three (get b 0 0) (get b 1 1) (get b 2 2) then get b 0 0
          else if three (get b 0 2) (get b 1 1) (get b 2 0) then get b 0 2
          else None
      end
  end.

Definition terminal (b : board) : bool :=
  bool_decide (winner b ≠ None)
  || forallb (λ c : cell, bool_decide (c ≠ EMPTY)) (concat b).

Definition utility (b : board) : Z :=
  if bool_decide (winner b = Some X) then 1
  else if bool_decide (winner b = Some O) then -1
  else 0.

(** ** Scores: Python integers and the floats [-inf] and [inf] *)

Inductive num := NegInf | Int (z : Z) | PosInf.

(** [a < b] *)
Definition num_lt (a b : num) : bool :=
  match a, b with
  | _, NegInf => false
  | NegInf, _ => true
  | PosInf, _ => false
  | _, PosInf => true
  | Int x, Int y => bool_decide (x < y)%Z
  end.

(** [a <= b] *)
Definition num_le (a b : num) : bool := negb (num_lt b a).

(** [max(a, b)] and [min(a, b)]: the first argument unless the second is
    strictly better. *)
Definition num_max (a b : num) : num := if num_lt a b then b else a.
Definition num_min (a b : num) : num := if num_lt b a then b else a.

(** ** Adversarial search *)

(** The loop of [max_value], lines 132-137; [child] is [min_value]. *)
Fixpoint max_loop (child : board → num → num → res num) (b : board)
    (acts : list move) (v no_less_than no_more_than : num) : res num :=
  match acts with
  | [] => Ok v
  | a :: rest =>
      b' ← result b a;
      s ← child b' no_less_than no_more_than;
      let v := num_max v s in
      let no_less_than := num_max no_less_than v in
      if num_le no_more_than v then Ok v
      else max_loop child b rest v no_less_than no_more_than
  end.

(** The loop of [min_value], lines 145-150; [child] is [max_value]. *)
Fixpoint min_loop (child : board → num → num → res num) (b : board)
    (acts : list move) (v no_less_than no_more_than : num) : res num :=
  match acts with
  | [] => Ok v
  | a :: rest =>
      b' ← result b a;
      s ← child b' no_less_than no_more_than;
      let v := num_min v s in
      let no_more_than := num_min no_more_than v in
      if num_le v no_less_than then Ok v
      else min_loop child b rest v no_less_than no_more_than
  end.

(** The loops of [minimax], lines 105-110 and 116-121. *)
Fixpoint root_max_loop (child : board → num → num → res num) (b : board)
    (acts : list move) (best_score : num) (best_move : option move)
    (no_less_than : num) : res (option move) :=
  match acts with
  | [] => Ok best_move
  | a :: rest =>
      b' ← result b a;
      score ← child b' no_less_than PosInf;
      if num_lt best_score score
      then root_max_loop child b rest score (Some a)
                         (num_max no_less_than score)
      else root_max_loop child b rest best_score best_move no_less_than
  end.

Fixpoint root_min_loop (child : board → num → num → res num) (b : board)
    (acts : list move) (best_score : num) (best_move : option move)
    (no_more_than : num) : res (option move) :=
  match acts with
  | [] => Ok best_move
  | a :: rest =>
      b' ← result b a;
      score ← child b' NegInf no_more_than;
      if num_lt score best_score
      then root_min_loop child b rest score (Some a)
                         (num_min no_more_than score)
      else root_min_loop child b rest best_score best_move no_more_than
  end.

Section Search.

(** The order in which a [for] loop visits the set [actions(board)]. *)
Variable iter : gset move → list move.

Fixpoint max_value (fuel : nat) (b : board) (no_less_than no_more_than : num)
    : res num :=
  match fuel with
  | 0 => OutOfFuel
  | S fuel' =>
      if terminal b then Ok (Int (utility b))
      else max_loop (min_value fuel') b (iter (actions b))
                    NegInf no_less_than no_more_than
  end
with min_value (fuel : nat) (b : board) (no_less_than no_more_than : num)
    : res num :=
  match fuel with
  | 0 => OutOfFuel
  | S fuel' =>
      if terminal b then Ok (Int (utility b))
      else min_loop (max_value fuel') b (iter (actions b))
                    PosInf no_less_than no_more_than
  end.

Definition minimax (fuel : nat) (b : board) : res (option move) :=
  if terminal b then Ok None
  else
    match player b with
    | X => root_max_loop (min_value fuel) b (iter (actions b))
                         NegInf None NegInf
    | O => root_min_loop (max_value fuel) b (iter (actions b))
                         PosInf None PosInf
    end.

End Search.

(** The position [X X _ / O O _ / _ _ _], X to move. *)
Definition xxoo : board :=
  [[Some X; Some X; None]; [Some O; Some O; None]; [None; None; None]].

(** A heap that holds the empty board at reference 3. *)
Definition empty_board_heap : gmap nat pyobj :=
  list_to_map [(0, PyRow [None; None; None]); (1, PyRow [None; None; None]);
               (2, PyRow [None; None; None]); (3, PyBoard [0; 1; 2])].

(** ** The specification side *)

(** A board is a 3x3 grid. *)
Definition wf_board (b : board) : Prop :=
  length b = 3 ∧ Forall (λ row, length row = 3) b.

(** The number of empty cells. *)
Definition empties (b : board) : nat := length (actions_list b).

(** The board after the mover of [b] has played [a]: what [result] returns
    on a legal move. *)
Definition after (b : board) (a : move) : board :=
  set_cell b a.1 a.2 (player b).

(** Boards reachable in legal play: from the empty board, by moves that
    [result] accepts, made on boards that are not terminal. *)
Inductive reachable : board → Prop :=
| reach_initial : reachable initial_state
| reach_move b a b' :
    reachable b → terminal b = false → result b a = Ok b' → reachable b'.

(** In legal play X moves first and the players alternate. *)
Definition turn_ok (b : board) : Prop :=
  count_mark X b = count_mark O b ∨ count_mark X b = S (count_mark O b).

(** The best of a list of values for a player; [d] when the list is empty. *)
Definition best_of (p : mark) (d : Z) (vs : list Z) : Z :=
  match vs with
  | [] => d
  | v :: vs => foldr (match p with X => Z.max | O => Z.min end) v vs
  end.

(** Unpruned, full-depth minimax: the utility of a terminal board, else the
    best value for the player to move among the boards after each legal
    move. *)
Fixpoint unpruned_value_upto (n : nat) (b : board) : Z :=
  match n with
  | 0 => utility b
  | S n' =>
      if terminal b then utility b
      else best_of (player b) (utility b)
             ((λ a, unpruned_value_upto n' (after b a)) <$> actions_list b)
  end.

Definition unpruned_value (b : board) : Z :=
  unpruned_value_upto (empties b) b.

(** The choice of the root without pruning: the first move, in the order of
    the visit, whose value is strictly better than that of every move seen
    before it. *)
Fixpoint pick_max (score : move → Z) (acts : list move) (best_score : num)
    (best_move : option move) : option move :=
  match acts with
  | [] => best_move
  | a :: rest =>
      if num_lt best_score (Int (score a))
      then pick_max score rest (Int (score a)) (Some a)
      else pick_max score rest best_score best_move
  end.

Fixpoint pick_min (score : move → Z) (acts : list move) (best_score : num)
    (best_move : option move) : option move :=
  match acts with
  | [] => best_move
  | a :: rest =>
      if num_lt (Int (score a)) best_score
      then pick_min score rest (Int (score a)) (Some a)
      else pick_min score rest best_score best_move
  end.

Definition unpruned_minimax (iter : gset move → list move) (b : board)
    : option move :=
  if terminal b then None
  else
    match player b with
    | X => pick_max (λ a, unpruned_value (after b a)) (iter (actions b))
                    NegInf None
    | O => pick_min (λ a, unpruned_value (after b a)) (iter (actions b))
                    PosInf None
    end.

(** Scores as pairs of integers, for arithmetic: the kind of the score and
    its integer value. *)
Definition tag (a : num) : Z :=
  match a with NegInf => 0 | Int _ => 1 | PosInf => 2 end.
Definition val (a : num) : Z :=
  match a with Int z => z | _ => 0 end.

(** What a pruned search with window [(lo, hi)] promises about its result
    [v], the unpruned value being [V]: a result inside the window is exact, a
    result at or below [lo] is an upper bound, and a result at or above [hi]
    is a lower bound. *)
Definition bounds (lo hi v : num) (V : Z) : Prop :=
  (num_le v lo = true → num_le (Int V) v = true)
  ∧ (num_lt lo v = true → num_lt v hi = true → v = Int V)
  ∧ (num_le hi v = true → num_le v (Int V) = true).

(** [child] evaluates the board after the move [a] of [b] within these
    bounds of [V a], whatever the window. *)
Definition child_ok (child : board → num → num → res num) (b : board)
    (V : move → Z) (a : move) : Prop :=
  ∃ b', result b a = Ok b'
    ∧ ∀ lo hi, num_lt lo hi = true →
        ∃ s, child b' lo hi = Ok s ∧ bounds lo hi s (V a).

(** A call that ends without an exception: it returns an integer score, or
    (when [F] allows it) the model ran out of fuel. *)
Definition returns_int (F : Prop) (r : res num) : Prop :=
  (∃ z, r = Ok (Int z)) ∨ (F ∧ r = OutOfFuel).

(** [result] accepts the move [a] of [b], and [child] ends without an
    exception on the board it returns. *)
Definition child_safe (F : Prop) (child : board → num → num → res num)
    (b : board) (a : move) : Prop :=
  ∃ b', result b a = Ok b' ∧ ∀ lo hi, returns_int F (child b' lo hi).

(** The eight lines of three cells, in the order in which [winner] looks at
    them: the rows, the columns, the two diagonals. *)
Definition lines : list (move * move * move) :=
  [((0, 0), (0, 1), (0, 2)); ((1, 0), (1, 1), (1, 2));
   ((2, 0), (2, 1), (2, 2)); ((0, 0), (1, 0), (2, 0));
   ((0, 1), (1, 1), (2, 1)); ((0, 2), (1, 2), (2, 2));
   ((0, 0), (1, 1), (2, 2)); ((0, 2), (1, 1), (2, 0))]%Z.

(** The three cells of the line [l] hold the mark [m]. *)
Definition line_of (b : board) (m : mark) (l : move * move * move) : bool :=
  bool_decide (get b l.1.1.1 l.1.1.2 = Some m)
  && bool_decide (get b l.1.2.1 l.1.2.2 = Some m)
  && bool_decide (get b l.2.1 l.2.2 = Some m).

(** Some line of the board holds three marks [m]. *)
Definition has_line (b : board) (m : mark) : bool :=
  existsb (line_of b m) lines.

(** A score that is an integer is one of the utilities -1, 0 and 1. *)
Definition score_in_range (v : num) : Prop :=
  ∀ z, v = Int z → (-1 ≤ z ≤ 1)%Z.

(** The position [X X X / O O _ / _ _ _]: X has won. *)
Definition xxxoo : board :=
  [[Some X; Some X; Some X]; [Some O; Some O; None]; [None; None; None]].

(** ** Facts about boards *)

Lemma wf_board_shape b :
  wf_board b →
  ∃ c00 c01 c02 c10 c11 c12 c20 c21 c22,
    b = [[c00; c01; c02]; [c10; c11; c12]; [c20; c21; c22]].
Proof.
  intros [Hlen Hrows].
  destruct b as [|r0 [|r1 [|r2 [|]]]]; simpl in Hlen; try lia.
  apply Forall_cons in Hrows as [H0 Hrows].
  apply Forall_cons in Hrows as [H1 Hrows].
  apply Forall_cons in Hrows as [H2 _].
  destruct r0 as [|? [|? [|? [|]]]]; simpl in H0; try lia.
  destruct r1 as [|? [|? [|? [|]]]]; simpl in H1; try lia.
  destruct r2 as [|? [|? [|? [|]]]]; simpl in H2; try lia.
  by repeat eexists.
Qed.

Lemma coords_spec i j :
  (i, j) ∈ coords ↔ (0 ≤ i < 3 ∧ 0 ≤ j < 3)%Z.
Proof.
  unfold coords. rewrite list_elem_of_bind. split.
  - intros (i' & Hj & Hi). apply elem_of_seqZ in Hi.
    apply list_elem_of_bind in Hj as (j' & Hij & Hj).
    apply elem_of_seqZ in Hj. apply list_elem_of_singleton in Hij.
    injection Hij as -> ->. lia.
  - intros [Hi Hj]. exists i. split; [|apply elem_of_seqZ; lia].
    apply list_elem_of_bind. exists j. split; [|apply elem_of_seqZ; lia].
    by apply list_elem_of_singleton.
Qed.

Lemma coords_NoDup : NoDup coords.
Proof. apply (bool_decide_unpack _). vm_compute. exact I. Qed.

Ltac board_cases H :=
  apply coords_spec in H;
  let Hi := fresh in let Hj := fresh in
  destruct H as [Hi Hj];
  match type of Hi with
  | (0 ≤ ?i < 3)%Z =>
      assert (i = 0 ∨ i = 1 ∨ i = 2)%Z as [ -> |[ -> | -> ]] by lia
  end;
  match type of Hj with
  | (0 ≤ ?j < 3)%Z =>
      assert (j = 0 ∨ j = 1 ∨ j = 2)%Z as [ -> |[ -> | -> ]] by lia
  end;
  clear Hi Hj.

(** The cells of a board, row by row, are its cells at [coords]. *)
Lemma concat_get b :
  wf_board b → concat b = (λ a, get b a.1 a.2) <$> coords.
Proof.
  intros (c00 & c01 & c02 & c10 & c11 & c12 & c20 & c21 & c22 & ->)%wf_board_shape.
  reflexivity.
Qed.

Lemma get_set_cell b i j m i' j' :
  wf_board b → (i, j) ∈ coords → (i', j') ∈ coords →
  get (set_cell b i j m) i' j'
  = if decide ((i', j') = (i, j)) then Some m else get b i' j'.
Proof.
  intros (c00 & c01 & c02 & c10 & c11 & c12 & c20 & c21 & c22 & ->)%wf_board_shape
    Hij Hij'.
  board_cases Hij; board_cases Hij'; case_decide; simplify_eq; reflexivity.
Qed.

Lemma wf_set_cell b i j m : wf_board b → wf_board (set_cell b i j m).
Proof.
  intros [Hlen Hrows]. unfold set_cell.
  destruct (b !! Z.to_nat i) as [row|] eqn:Hrow; [|done].
  split; [by rewrite length_insert|].
  apply Forall_insert; [done|]. rewrite length_insert.
  rewrite Forall_forall in Hrows. apply Hrows.
  by eapply list_elem_of_lookup_2.
Qed.

Lemma actions_list_spec b i j :
  (i, j) ∈ actions_list b ↔ (0 ≤ i < 3 ∧ 0 ≤ j < 3)%Z ∧ get b i j = None.
Proof.
  unfold actions_list. rewrite list_elem_of_filter, coords_spec. simpl.
  unfold EMPTY. tauto.
Qed.

Lemma actions_spec b a : a ∈ actions b ↔ a ∈ actions_list b.
Proof. unfold actions. apply elem_of_list_to_set. Qed.

(** [result] accepts every move of [actions]. *)
Lemma result_legal b a : a ∈ actions_list b → result b a = Ok (after b a).
Proof.
  destruct a as [i j]. intros [[Hi Hj] Hget]%actions_list_spec.
  unfold result, after. simpl.
  rewrite !bool_decide_eq_false_2 by lia.
  by rewrite bool_decide_eq_true_2.
Qed.

(** [result] raises exactly on a coordinate out of range or an occupied
    cell. *)
Lemma result_raises b i j :
  result b (i, j) = Raise ValueError
  ↔ (i < 0 ∨ i >= 3 ∨ j < 0 ∨ j >= 3)%Z ∨ get b i j ≠ None.
Proof.
  unfold result.
  match goal with |- context [if ?c then _ else _] => set (guard := c) end.
  assert (guard = true
          ↔ (i < 0 ∨ i >= 3 ∨ j < 0 ∨ j >= 3)%Z ∨ get b i j ≠ None) as Hguard.
  { subst guard.
    rewrite !orb_true_iff, negb_true_iff, bool_decide_eq_false,
      !bool_decide_eq_true. unfold EMPTY. tauto. }
  destruct guard.
  - split; [intros _; by apply Hguard|done].
  - split; [done|]. intros H. apply Hguard in H. done.
Qed.

(** *** The heap *)

Lemma copy_rows_spec rows :
  ∀ h h1 ls, copy_rows h rows = (h1, ls) →
    (∀ l, l ∈ dom h → h1 !! l = h !! l)
    ∧ Forall2 (λ l cs, h1 !! l = Some (PyRow cs)) ls rows
    ∧ Forall (λ l, l ∉ dom h) ls
    ∧ NoDup ls.
Proof.
  induction rows as [|cs rows IH]; intros h h1 ls; simpl.
  - intros [= <- <-]. split_and!; [done|constructor..].
  - destruct (copy_rows _ rows) as [h' ls'] eqn:Hcopy. intros [= <- <-].
    destruct (IH _ _ _ Hcopy) as (Hframe & Hrows & Hfresh & Hnd).
    pose proof (is_fresh (dom h)) as Hl.
    set (l := fresh (dom h)) in *.
    assert (∀ l', l' ∈ dom h → l' ∈ dom (<[l:=PyRow cs]> h)) as Hdom.
    { intros l' Hl'. rewrite dom_insert. apply elem_of_union. by right. }
    rewrite Forall_forall in Hfresh. split_and!.
    + intros l' Hl'. rewrite Hframe by auto.
      apply lookup_insert_ne. by intros ->.
    + constructor; [|done]. rewrite Hframe.
      * apply lookup_insert_eq.
      * rewrite dom_insert. apply elem_of_union. left.
        by apply elem_of_singleton.
    + constructor; [done|]. apply Forall_forall. intros l' Hl' Hin.
      by apply (Hfresh _ Hl'), Hdom.
    + constructor; [|done]. intros Hin. apply (Hfresh _ Hin).
      rewrite dom_insert. apply elem_of_union. left.
      by apply elem_of_singleton.
Qed.

(** A board value is read from the objects it refers to. *)
Lemma read_board_frame (h h' : gmap nat pyobj) bl b :
  (∀ l, l ∈ dom h → h' !! l = h !! l) →
  read_board h bl = Some b → read_board h' bl = Some b.
Proof.
  intros Hframe. unfold read_board.
  destruct (h !! bl) as [[|rs]|] eqn:Hbl; [done| |done].
  rewrite Hframe, Hbl by (apply elem_of_dom; eauto).
  rewrite !mapM_Some. intros Hrows. eapply Forall2_impl; [exact Hrows|].
  intros l cs. unfold read_row.
  destruct (h !! l) as [[|]|] eqn:Hl; try done.
  by rewrite Hframe, Hl by (apply elem_of_dom; eauto).
Qed.

(** On a legal move [result] builds the new board out of new objects and
    writes to none of the objects that were there before. *)
Lemma result_heap_legal (h : gmap nat pyobj) bl b i j :
  read_board h bl = Some b → wf_board b →
  (0 ≤ i < 3)%Z → (0 ≤ j < 3)%Z → get b i j = None →
  ∃ h' nb, result_heap h bl (i, j) = (h', Ok nb)
    ∧ h !! nb = None
    ∧ (∀ l, l ∈ dom h → h' !! l = h !! l)
    ∧ read_board h' nb = Some (set_cell b i j (player b)).
Proof.
  intros Hread Hwf Hi Hj Hget. unfold result_heap. rewrite Hread.
  rewrite !bool_decide_eq_false_2 by lia.
  rewrite bool_decide_eq_true_2 by done. simpl.
  destruct (copy_rows h b) as [h1 ls] eqn:Hcopy.
  destruct (copy_rows_spec _ _ _ _ Hcopy) as (Hframe & Hrows & Hfresh & Hnd).
  pose proof (is_fresh (dom h1)) as Hnb. set (nb := fresh (dom h1)) in *.
  assert (∀ l, l ∈ dom h → l ∈ dom h1) as Hdom.
  { intros l Hl. apply elem_of_dom. rewrite Hframe by done.
    by apply elem_of_dom. }
  assert (∀ l, l ∈ dom h → <[nb:=PyBoard ls]> h1 !! l = h !! l) as Hframe2.
  { intros l Hl. rewrite lookup_insert_ne; [by apply Hframe|].
    intros ->. by apply Hnb, Hdom. }
  rewrite (read_board_frame _ _ _ _ Hframe2 Hread).
  pose proof (Forall2_length _ _ _ Hrows) as Hlen.
  destruct Hwf as [Hlenb Hwfrows]. rewrite Hlenb in Hlen.
  destruct (lookup_lt_is_Some_2 ls (Z.to_nat i)) as [ri Hri]; [lia|].
  destruct (lookup_lt_is_Some_2 b (Z.to_nat i)) as [cs Hcs]; [lia|].
  pose proof (Forall2_lookup_lr _ _ _ _ _ _ Hrows Hri Hcs) as Hrow.
  simpl in Hrow.
  assert (ri ∈ dom h1) as Hridom by (apply elem_of_dom; eauto).
  assert (ri ≠ nb) as Hrinb by (by intros ->).
  rewrite Hri. unfold read_row at 1.
  rewrite lookup_insert_ne, Hrow by done.
  eexists _, nb. split; [done|]. split_and!.
  - apply not_elem_of_dom. intros Hin. by apply Hnb, Hdom.
  - intros l Hl. rewrite lookup_insert_ne; [by apply Hframe2|].
    intros Heq. rewrite Forall_forall in Hfresh.
    apply (Hfresh ri); [by eapply list_elem_of_lookup_2|by rewrite Heq].
  - unfold read_board. rewrite lookup_insert_ne, lookup_insert_eq by done.
    apply mapM_Some. unfold set_cell. rewrite Hcs.
    apply Forall2_same_length_lookup_2; [by rewrite length_insert; lia|].
    intros k l cs' Hl Hcs'. unfold read_row.
    destruct (decide (k = Z.to_nat i)) as [->|Hk].
    + rewrite Hri in Hl. injection Hl as <-.
      rewrite list_lookup_insert_eq in Hcs' by lia. injection Hcs' as <-.
      by rewrite lookup_insert_eq.
    + rewrite list_lookup_insert_ne in Hcs' by done.
      assert (l ≠ ri) as Hlri.
      { intros ->. apply Hk. by eapply NoDup_lookup. }
      rewrite lookup_insert_ne by done.
      assert (l ≠ nb) as Hlnb.
      { intros ->. apply Hnb. apply elem_of_dom.
        rewrite (Forall2_lookup_lr _ _ _ _ _ _ Hrows Hl Hcs'). eauto. }
      rewrite lookup_insert_ne by done.
      by rewrite (Forall2_lookup_lr _ _ _ _ _ _ Hrows Hl Hcs').
Qed.

(** *** Counting cells *)

Lemma filter_ext_in {A} (P Q : A → Prop)
    `{∀ x, Decision (P x)} `{∀ x, Decision (Q x)} (l : list A) :
  (∀ x, x ∈ l → (P x ↔ Q x)) → filter P l = filter Q l.
Proof.
  induction l as [|x l IH]; intros Hext; [done|].
  rewrite !filter_cons. rewrite IH by (intros; apply Hext; by right).
  destruct (decide (P x)) as [HP|HP], (decide (Q x)) as [HQ|HQ]; try done.
  - exfalso. apply HQ, Hext; [left|done].
  - exfalso. apply HP, Hext; [left|done].
Qed.

(** Two predicates that differ at one element of a duplicate-free list. *)
Lemma filter_length_flip {A} (P Q : A → Prop)
    `{∀ x, Decision (P x)} `{∀ x, Decision (Q x)} (l : list A) a :
  NoDup l → a ∈ l → (∀ x, x ∈ l → x ≠ a → (P x ↔ Q x)) → ¬ P a → Q a →
  length (filter Q l) = S (length (filter P l)).
Proof.
  intros Hnd Ha Hext HP HQ.
  induction l as [|x l IH]; [by apply elem_of_nil in Ha|].
  apply NoDup_cons in Hnd as [Hx Hnd]. rewrite !filter_cons.
  apply elem_of_cons in Ha as [Heq|Ha].
  - subst x. rewrite (decide_True (P:=Q a)), (decide_False (P:=P a)) by done.
    simpl. f_equal. f_equal.
    apply filter_ext_in. intros x Hin. symmetry.
    apply Hext; [by right|]. by intros ->.
  - assert (x ≠ a) as Hne by (by intros ->).
    assert (length (filter Q l) = S (length (filter P l))) as Hlen.
    { apply IH; [done|done|]. intros; apply Hext; [by right|done]. }
    destruct (decide (P x)) as [HPx|HPx], (decide (Q x)) as [HQx|HQx];
      simpl; try lia.
    + exfalso. apply HQx, Hext; [left|done|done].
    + exfalso. apply HPx, Hext; [left|done|done].
Qed.

Lemma filter_fmap_length {A B} (f : A → B) (P : B → Prop)
    `{∀ x, Decision (P x)} (l : list A) :
  length (filter P (f <$> l)) = length (filter (λ x, P (f x)) l).
Proof.
  induction l as [|x l IH]; [done|]. rewrite fmap_cons, !filter_cons.
  destruct (decide (P (f x))); simpl; by rewrite IH.
Qed.

Lemma count_mark_get m b :
  wf_board b →
  count_mark m b = length (filter (λ a, get b a.1 a.2 = Some m) coords).
Proof.
  intros Hwf. unfold count_mark. rewrite (concat_get _ Hwf).
  apply filter_fmap_length.
Qed.

Lemma wf_after b a : wf_board b → wf_board (after b a).
Proof. apply wf_set_cell. Qed.

Lemma get_after b a a' :
  wf_board b → a ∈ coords → a' ∈ coords →
  get (after b a) a'.1 a'.2
  = if decide (a' = a) then Some (player b) else get b a'.1 a'.2.
Proof.
  destruct a as [i j], a' as [i' j']. intros. by apply get_set_cell.
Qed.

Lemma actions_list_coords b a : a ∈ actions_list b → a ∈ coords.
Proof. unfold actions_list. rewrite list_elem_of_filter. tauto. Qed.

Lemma actions_list_empty b a : a ∈ actions_list b → get b a.1 a.2 = None.
Proof. unfold actions_list. rewrite list_elem_of_filter. tauto. Qed.

(** A legal move fills one empty cell. *)
Lemma empties_after b a :
  wf_board b → a ∈ actions_list b → empties b = S (empties (after b a)).
Proof.
  intros Hwf Ha. unfold empties, actions_list.
  pose proof (actions_list_coords _ _ Ha) as Hc.
  pose proof (actions_list_empty _ _ Ha) as He.
  apply (filter_length_flip _ _ _ a); [apply coords_NoDup|done| | |done].
  - intros x Hx Hne. rewrite (get_after _ _ _ Hwf Hc Hx).
    by rewrite decide_False.
  - rewrite (get_after _ _ _ Hwf Hc Hc). by rewrite decide_True.
Qed.

Lemma empties_le_9 b : empties b ≤ 9.
Proof.
  unfold empties, actions_list.
  etrans; [apply length_filter|]. by vm_compute.
Qed.

(** A legal move adds one mark of the mover and none of the other player. *)
Lemma count_mark_after b a m :
  wf_board b → a ∈ actions_list b →
  count_mark m (after b a)
  = if decide (m = player b) then S (count_mark m b) else count_mark m b.
Proof.
  intros Hwf Ha.
  pose proof (actions_list_coords _ _ Ha) as Hc.
  pose proof (actions_list_empty _ _ Ha) as He.
  rewrite !count_mark_get by (done || by apply wf_after).
  case_decide as Hm.
  - subst m.
    apply (filter_length_flip _ _ _ a); [apply coords_NoDup|done| | |].
    + intros x Hx Hne. rewrite (get_after _ _ _ Hwf Hc Hx).
      by rewrite decide_False.
    + by rewrite He.
    + rewrite (get_after _ _ _ Hwf Hc Hc). by rewrite decide_True.
  - f_equal. apply filter_ext_in. intros x Hx.
    rewrite (get_after _ _ _ Hwf Hc Hx). case_decide as Hxa; [|done].
    subst x. rewrite He. split; [|done]. intros [= ?]. congruence.
Qed.

(** The players alternate. *)
Lemma turn_after b a :
  wf_board b → turn_ok b → a ∈ actions_list b →
  turn_ok (after b a) ∧ player (after b a) ≠ player b.
Proof.
  intros Hwf Hturn Ha. unfold turn_ok, player in *.
  rewrite !(count_mark_after _ _ _ Hwf Ha). unfold player.
  destruct Hturn as [Heq|Heq]; rewrite Heq.
  - rewrite bool_decide_eq_false_2 by lia.
    rewrite decide_True, decide_False by done.
    rewrite bool_decide_eq_true_2 by lia. split; [by right|done].
  - rewrite bool_decide_eq_true_2 by lia.
    rewrite decide_False, decide_True by done.
    rewrite bool_decide_eq_false_2 by lia. split; [by left|done].
Qed.

Lemma turn_initial : turn_ok initial_state.
Proof. by left. Qed.

Lemma wf_initial : wf_board initial_state.
Proof. split; [done|]. by repeat constructor. Qed.

(** A board that is not terminal has an empty cell. *)
Lemma not_terminal_action b :
  wf_board b → terminal b = false → ∃ a, a ∈ actions_list b.
Proof.
  intros Hwf Hterm. unfold terminal in Hterm.
  apply orb_false_iff in Hterm as [_ Hfull].
  rewrite (concat_get _ Hwf) in Hfull.
  assert (¬ Forall (λ a, get b a.1 a.2 ≠ None) coords) as Hnot.
  { intros Hall. apply not_true_iff_false in Hfull. apply Hfull.
    apply forallb_forall. intros c [a [-> Ha]]%list_elem_of_In%list_elem_of_fmap.
    apply bool_decide_eq_true. rewrite Forall_forall in Hall. by apply Hall. }
  apply not_Forall_Exists in Hnot; [|apply _].
  apply Exists_exists in Hnot as (a & Ha & Hget).
  exists a. unfold actions_list. apply list_elem_of_filter.
  split; [|done]. by apply dec_stable.
Qed.

Lemma not_terminal_empties b :
  wf_board b → terminal b = false → 0 < empties b.
Proof.
  intros Hwf Hterm. destruct (not_terminal_action _ Hwf Hterm) as [a Ha].
  unfold empties. destruct (actions_list b); [by apply elem_of_nil in Ha|].
  simpl. lia.
Qed.

Lemma reachable_wf_turn b : reachable b → wf_board b ∧ turn_ok b.
Proof.
  induction 1 as [|b a b' Hb [Hwf Hturn] Hterm Hres].
  - split; [apply wf_initial|apply turn_initial].
  - destruct a as [i j].
    assert ((i, j) ∈ actions_list b) as Ha.
    { apply actions_list_spec.
      destruct (decide ((i < 0 ∨ i >= 3 ∨ j < 0 ∨ j >= 3)%Z
                        ∨ get b i j ≠ None)) as [Hbad|Hgood].
      - apply result_raises in Hbad. congruence.
      - split; [lia|]. destruct (get b i j); [|done]. exfalso. apply Hgood.
        by right. }
    rewrite (result_legal _ _ Ha) in Hres. injection Hres as <-.
    split; [by apply wf_after|]. by apply turn_after.
Qed.

(** *** The unpruned value *)

Lemma best_of_X d vs :
  vs ≠ [] →
  best_of X d vs ∈ vs ∧ ∀ v, v ∈ vs → (v ≤ best_of X d vs)%Z.
Proof.
  destruct vs as [|v vs]; [done|]. intros _. simpl.
  induction vs as [|w vs [IHin IHle]]; simpl.
  - split; [left|]. intros ? ->%list_elem_of_singleton. lia.
  - split.
    + destruct (Z.max_spec w (foldr Z.max v vs)) as [[_ ->]|[_ ->]].
      * apply elem_of_cons in IHin as [ -> |?]; [left|by do 2 right].
      * right. left.
    + intros u [ -> |[ -> |Hu]%elem_of_cons]%elem_of_cons.
      * specialize (IHle v). etrans; [apply IHle; left|lia].
      * lia.
      * etrans; [apply IHle; by right|lia].
Qed.

Lemma best_of_O d vs :
  vs ≠ [] →
  best_of O d vs ∈ vs ∧ ∀ v, v ∈ vs → (best_of O d vs ≤ v)%Z.
Proof.
  destruct vs as [|v vs]; [done|]. intros _. simpl.
  induction vs as [|w vs [IHin IHle]]; simpl.
  - split; [left|]. intros ? ->%list_elem_of_singleton. lia.
  - split.
    + destruct (Z.min_spec w (foldr Z.min v vs)) as [[_ ->]|[_ ->]].
      * right. left.
      * apply elem_of_cons in IHin as [ -> |?]; [left|by do 2 right].
    + intros u [ -> |[ -> |Hu]%elem_of_cons]%elem_of_cons.
      * specialize (IHle v). etrans; [|apply IHle; left]. lia.
      * lia.
      * etrans; [|apply IHle; by right]. lia.
Qed.

(** On a board that is not terminal, the unpruned value is the best, for the
    player to move, of the unpruned values after each legal move. *)
Lemma unpruned_value_unfold b :
  wf_board b → terminal b = false →
  unpruned_value b
  = best_of (player b) (utility b)
      ((λ a, unpruned_value (after b a)) <$> actions_list b).
Proof.
  intros Hwf Hterm. unfold unpruned_value at 1.
  pose proof (not_terminal_empties _ Hwf Hterm) as Hpos.
  destruct (empties b) as [|n] eqn:Hn; [lia|]. simpl. rewrite Hterm.
  f_equal. apply Forall_fmap_ext, Forall_forall. intros a Ha.
  unfold unpruned_value.
  pose proof (empties_after _ _ Hwf Ha) as Hafter.
  by replace (empties (after b a)) with n by lia.
Qed.

(** Some legal move attains the unpruned value, and no legal move is better
    for the player to move. *)
Lemma unpruned_value_best b :
  wf_board b → terminal b = false →
  (∃ a, a ∈ actions_list b ∧ unpruned_value (after b a) = unpruned_value b)
  ∧ ∀ a, a ∈ actions_list b →
      match player b with
      | X => (unpruned_value (after b a) ≤ unpruned_value b)%Z
      | O => (unpruned_value b ≤ unpruned_value (after b a))%Z
      end.
Proof.
  intros Hwf Hterm. rewrite (unpruned_value_unfold _ Hwf Hterm).
  destruct (not_terminal_action _ Hwf Hterm) as [a0 Ha0].
  set (vs := (λ a, unpruned_value (after b a)) <$> actions_list b).
  assert (vs ≠ []) as Hvs.
  { subst vs. destruct (actions_list b); [by apply elem_of_nil in Ha0|done]. }
  destruct (player b).
  - destruct (best_of_X (utility b) vs Hvs) as [Hin Hle]. split.
    + apply list_elem_of_fmap in Hin as (a & Heq & Ha). eauto.
    + intros a Ha. apply Hle. subst vs. apply list_elem_of_fmap. eauto.
  - destruct (best_of_O (utility b) vs Hvs) as [Hin Hle]. split.
    + apply list_elem_of_fmap in Hin as (a & Heq & Ha). eauto.
    + intros a Ha. apply Hle. subst vs. apply list_elem_of_fmap. eauto.
Qed.

(** ** The order of scores *)

Lemma num_lt_true a b :
  num_lt a b = true
  ↔ (tag a < tag b ∨ (tag a = 1 ∧ tag b = 1 ∧ val a < val b))%Z.
Proof.
  destruct a, b; simpl; rewrite ?bool_decide_eq_true; split; try done; lia.
Qed.

Lemma num_lt_false a b :
  num_lt a b = false
  ↔ ¬ (tag a < tag b ∨ (tag a = 1 ∧ tag b = 1 ∧ val a < val b))%Z.
Proof. rewrite <- num_lt_true. by destruct (num_lt a b). Qed.

Lemma num_eq a b : a = b ↔ (tag a = tag b ∧ val a = val b).
Proof.
  split; [by intros ->|]. destruct a, b; simpl; intros [? ?]; try done.
  by f_equal.
Qed.

(** Decides a statement about the order of scores: comparisons become
    arithmetic on [tag] and [val], then each score is taken by cases. *)
Ltac num_solve :=
  intros; unfold bounds, num_le, num_max, num_min in *;
  repeat match goal with
         | |- context [if num_lt ?a ?b then _ else _] =>
             let E := fresh in destruct (num_lt a b) eqn:E
         | H : context [if num_lt ?a ?b then _ else _] |- _ =>
             let E := fresh in destruct (num_lt a b) eqn:E
         end;
  rewrite ?negb_true_iff, ?negb_false_iff in *;
  rewrite ?num_lt_true, ?num_lt_false, ?num_eq in *;
  repeat match goal with x : num |- _ => destruct x end;
  cbn [tag val] in *; lia.

Lemma max_step_cut v s lo hi V :
  num_le v lo = true → num_lt lo hi = true → bounds lo hi s V →
  num_le hi (num_max v s) = true →
  num_le v (num_max v s) = true
  ∧ num_le (num_max v s) lo = false
  ∧ num_lt (num_max v s) hi = false
  ∧ num_le (num_max v s) (Int V) = true.
Proof. num_solve. Qed.

Lemma max_step_go v s lo hi V r :
  num_le v lo = true → num_lt lo hi = true → bounds lo hi s V →
  num_le hi (num_max v s) = false →
  num_le (num_max v s) r = true →
  num_le (num_max v s) (num_max lo (num_max v s)) = true
  ∧ num_lt (num_max lo (num_max v s)) hi = true
  ∧ num_le v r = true
  ∧ (num_le r lo = true →
       num_le (Int V) r = true ∧ num_le r (num_max lo (num_max v s)) = true)
  ∧ (num_lt lo r = true → num_lt r hi = true →
       num_le (Int V) r = true
       ∧ (num_lt (num_max lo (num_max v s)) r = false →
          num_le r (num_max lo (num_max v s)) = true ∧ r = Int V)).
Proof. num_solve. Qed.

Lemma min_step_cut v s lo hi V :
  num_le hi v = true → num_lt lo hi = true → bounds lo hi s V →
  num_le (num_min v s) lo = true →
  num_le (num_min v s) v = true
  ∧ num_le hi (num_min v s) = false
  ∧ num_lt lo (num_min v s) = false
  ∧ num_le (Int V) (num_min v s) = true.
Proof. num_solve. Qed.

Lemma min_step_go v s lo hi V r :
  num_le hi v = true → num_lt lo hi = true → bounds lo hi s V →
  num_le (num_min v s) lo = false →
  num_le r (num_min v s) = true →
  num_le (num_min hi (num_min v s)) (num_min v s) = true
  ∧ num_lt lo (num_min hi (num_min v s)) = true
  ∧ num_le r v = true
  ∧ (num_le hi r = true →
       num_le r (Int V) = true ∧ num_le (num_min hi (num_min v s)) r = true)
  ∧ (num_lt lo r = true → num_lt r hi = true →
       num_le r (Int V) = true
       ∧ (num_lt r (num_min hi (num_min v s)) = false →
          num_le (num_min hi (num_min v s)) r = true ∧ r = Int V)).
Proof. num_solve. Qed.

Lemma num_window_empty v lo hi :
  num_le v lo = true → num_lt lo hi = true →
  num_le v v = true ∧ num_le hi v = false
  ∧ (num_lt lo v = true → False).
Proof. num_solve. Qed.

Lemma num_window_full v lo hi :
  num_le hi v = true → num_lt lo hi = true →
  num_le v v = true ∧ num_le v lo = false
  ∧ (num_lt v hi = true → False).
Proof. num_solve. Qed.

(** ** The pruned loops *)

(** The loop of [max_value], started with [v <= lo < hi] on moves whose
    children are evaluated within bounds: its result is an upper bound of
    the values of all moves when it is at most [lo], the largest of them when
    it is inside the window, and a lower bound of one of them when it is at
    least [hi]. *)
Lemma max_loop_spec child b V acts :
  Forall (child_ok child b V) acts →
  ∀ v lo hi, num_le v lo = true → num_lt lo hi = true →
    ∃ r, max_loop child b acts v lo hi = Ok r
      ∧ num_le v r = true
      ∧ (num_le r lo = true →
         ∀ a, a ∈ acts → num_le (Int (V a)) r = true)
      ∧ (num_lt lo r = true → num_lt r hi = true →
         (∀ a, a ∈ acts → num_le (Int (V a)) r = true)
         ∧ ∃ a, a ∈ acts ∧ r = Int (V a))
      ∧ (num_le hi r = true →
         ∃ a, a ∈ acts ∧ num_le r (Int (V a)) = true).
Proof.
  induction 1 as [|a acts (b' & Hres & Hchild) _ IH]; intros v lo hi Hv Hw.
  - exists v. simpl.
    destruct (num_window_empty _ _ _ Hv Hw) as (Hrefl & Hhi & Hlo).
    split_and!; [done|done| | |].
    + intros _ a Ha. by apply elem_of_nil in Ha.
    + intros H. by destruct (Hlo H).
    + intros H. congruence.
  - simpl. rewrite Hres. simpl.
    destruct (Hchild lo hi Hw) as (s & -> & Hs). simpl.
    destruct (num_le hi (num_max v s)) eqn:Hcut.
    + destruct (max_step_cut _ _ _ _ _ Hv Hw Hs Hcut) as (H1 & H2 & H3 & H4).
      exists (num_max v s). split_and!; [done|done| | |].
      * intros H. congruence.
      * intros _ H. congruence.
      * intros _. exists a. split; [left|done].
    + destruct (IH (num_max v s) (num_max lo (num_max v s)) hi)
        as (r & -> & Hr0 & Hr1 & Hr2 & Hr3).
      { by destruct (max_step_go _ _ _ _ _ (num_max v s) Hv Hw Hs Hcut)
          as (? & ? & _); [num_solve|]. }
      { by destruct (max_step_go _ _ _ _ _ (num_max v s) Hv Hw Hs Hcut)
          as (? & ? & _); [num_solve|]. }
      destruct (max_step_go _ _ _ _ _ r Hv Hw Hs Hcut Hr0)
        as (_ & _ & G0 & G1 & G2).
      exists r. split_and!; [done|done| | |].
      3: { intros H. destruct (Hr3 H) as (a' & ? & ?).
           exists a'. split; [by right|done]. }
      * intros Hle. destruct (G1 Hle) as [Ga Hle'].
        intros a' [ -> |Ha']%elem_of_cons; [done|by apply Hr1].
      * intros Hlo Hhi. destruct (G2 Hlo Hhi) as [Ga Gin].
        destruct (num_lt (num_max lo (num_max v s)) r) eqn:Hin.
        -- destruct (Hr2 eq_refl Hhi) as [Hall (a' & Ha' & Hr)].
           split; [|exists a'; split; [by right|done]].
           intros a'' [ -> |Ha'']%elem_of_cons; [done|by apply Hall].
        -- destruct (Gin eq_refl) as [Hle Hr]. split.
           ++ intros a'' [ -> |Ha'']%elem_of_cons; [done|by apply Hr1].
           ++ exists a. split; [left|done].
Qed.

(** The loop of [min_value], the mirror image. *)
Lemma min_loop_spec child b V acts :
  Forall (child_ok child b V) acts →
  ∀ v lo hi, num_le hi v = true → num_lt lo hi = true →
    ∃ r, min_loop child b acts v lo hi = Ok r
      ∧ num_le r v = true
      ∧ (num_le hi r = true →
         ∀ a, a ∈ acts → num_le r (Int (V a)) = true)
      ∧ (num_lt lo r = true → num_lt r hi = true →
         (∀ a, a ∈ acts → num_le r (Int (V a)) = true)
         ∧ ∃ a, a ∈ acts ∧ r = Int (V a))
      ∧ (num_le r lo = true →
         ∃ a, a ∈ acts ∧ num_le (Int (V a)) r = true).
Proof.
  induction 1 as [|a acts (b' & Hres & Hchild) _ IH]; intros v lo hi Hv Hw.
  - exists v. simpl.
    destruct (num_window_full _ _ _ Hv Hw) as (Hrefl & Hlo & Hhi).
    split_and!; [done|done| | |].
    + intros _ a Ha. by apply elem_of_nil in Ha.
    + intros _ H. by destruct (Hhi H).
    + intros H. congruence.
  - simpl. rewrite Hres. simpl.
    destruct (Hchild lo hi Hw) as (s & -> & Hs). simpl.
    destruct (num_le (num_min v s) lo) eqn:Hcut.
    + destruct (min_step_cut _ _ _ _ _ Hv Hw Hs Hcut) as (H1 & H2 & H3 & H4).
      exists (num_min v s). split_and!; [done|done| | |].
      * intros H. congruence.
      * intros H. congruence.
      * intros _. exists a. split; [left|done].
    + destruct (IH (num_min v s) lo (num_min hi (num_min v s)))
        as (r & -> & Hr0 & Hr1 & Hr2 & Hr3).
      { by destruct (min_step_go _ _ _ _ _ (num_min v s) Hv Hw Hs Hcut)
          as (? & ? & _); [num_solve|]. }
      { by destruct (min_step_go _ _ _ _ _ (num_min v s) Hv Hw Hs Hcut)
          as (? & ? & _); [num_solve|]. }
      destruct (min_step_go _ _ _ _ _ r Hv Hw Hs Hcut Hr0)
        as (_ & _ & G0 & G1 & G2).
      exists r. split_and!; [done|done| | |].
      3: { intros H. destruct (Hr3 H) as (a' & ? & ?).
           exists a'. split; [by right|done]. }
      * intros Hle. destruct (G1 Hle) as [Ga Hle'].
        intros a' [ -> |Ha']%elem_of_cons; [done|by apply Hr1].
      * intros Hlo Hhi. destruct (G2 Hlo Hhi) as [Ga Gin].
        destruct (num_lt r (num_min hi (num_min v s))) eqn:Hin.
        -- destruct (Hr2 Hlo eq_refl) as [Hall (a' & Ha' & Hr)].
           split; [|exists a'; split; [by right|done]].
           intros a'' [ -> |Ha'']%elem_of_cons; [done|by apply Hall].
        -- destruct (Gin eq_refl) as [Hle Hr]. split.
           ++ intros a'' [ -> |Ha'']%elem_of_cons; [done|by apply Hr1].
           ++ exists a. split; [left|done].
Qed.

(** *** Small facts about scores used below *)

Lemma bounds_exact lo hi V : bounds lo hi (Int V) V.
Proof. num_solve. Qed.

Lemma num_le_NegInf lo : num_le NegInf lo = true.
Proof. num_solve. Qed.

Lemma num_le_PosInf hi : num_le hi PosInf = true.
Proof. num_solve. Qed.

Lemma num_le_Int x y : num_le (Int x) (Int y) = true ↔ (x ≤ y)%Z.
Proof. split; num_solve. Qed.

Lemma num_le_Int_r r x y :
  num_le r (Int x) = true → (x ≤ y)%Z → num_le r (Int y) = true.
Proof. num_solve. Qed.

Lemma num_le_Int_l r x y :
  num_le (Int x) r = true → (y ≤ x)%Z → num_le (Int y) r = true.
Proof. num_solve. Qed.

Lemma root_max_step bs s V :
  num_lt bs PosInf = true → bounds bs PosInf s V →
  num_lt bs s = num_lt bs (Int V)
  ∧ (num_lt bs s = true → s = Int V ∧ num_max bs s = s).
Proof.
  intros. destruct (num_lt bs s) eqn:E1, (num_lt bs (Int V)) eqn:E2;
    (split; [|intros]); try done; num_solve.
Qed.

Lemma root_min_step bs s V :
  num_lt NegInf bs = true → bounds NegInf bs s V →
  num_lt s bs = num_lt (Int V) bs
  ∧ (num_lt s bs = true → s = Int V ∧ num_min bs s = s).
Proof.
  intros. destruct (num_lt s bs) eqn:E1, (num_lt (Int V) bs) eqn:E2;
    (split; [|intros]); try done; num_solve.
Qed.

(** *** The choice of the root *)

Lemma pick_max_spec V acts :
  ∀ bs bm,
    (pick_max V acts bs bm = bm
     ∧ ∀ a, a ∈ acts → num_lt bs (Int (V a)) = false)
    ∨ (∃ a, pick_max V acts bs bm = Some a ∧ a ∈ acts
         ∧ num_lt bs (Int (V a)) = true
         ∧ ∀ a', a' ∈ acts → (V a' ≤ V a)%Z).
Proof.
  induction acts as [|a acts IH]; intros bs bm; cbn [pick_max].
  { left. split; [done|]. intros a Ha. by apply elem_of_nil in Ha. }
  destruct (num_lt bs (Int (V a))) eqn:Hlt.
  - right. destruct (IH (Int (V a)) (Some a)) as [[-> Hall]|(a2 & -> & Ha2 & Hlt2 & Hall)].
    + exists a. split_and!; [done|left|done|].
      intros a' [ -> |Ha']%elem_of_cons; [lia|].
      specialize (Hall _ Ha'). revert Hall. generalize (V a') (V a). num_solve.
    + exists a2. split_and!; [done|by right| |].
      * revert Hlt Hlt2. generalize (V a2) (V a). num_solve.
      * intros a' [ -> |Ha']%elem_of_cons; [|by apply Hall].
        revert Hlt2. generalize (V a2) (V a). num_solve.
  - destruct (IH bs bm) as [[-> Hall]|(a2 & -> & Ha2 & Hlt2 & Hall)].
    + left. split; [done|].
      intros a' [ -> |Ha']%elem_of_cons; [done|by apply Hall].
    + right. exists a2. split_and!; [done|by right|done|].
      intros a' [ -> |Ha']%elem_of_cons; [|by apply Hall].
      revert Hlt Hlt2. generalize (V a2) (V a). num_solve.
Qed.

Lemma pick_min_spec V acts :
  ∀ bs bm,
    (pick_min V acts bs bm = bm
     ∧ ∀ a, a ∈ acts → num_lt (Int (V a)) bs = false)
    ∨ (∃ a, pick_min V acts bs bm = Some a ∧ a ∈ acts
         ∧ num_lt (Int (V a)) bs = true
         ∧ ∀ a', a' ∈ acts → (V a ≤ V a')%Z).
Proof.
  induction acts as [|a acts IH]; intros bs bm; cbn [pick_min].
  { left. split; [done|]. intros a Ha. by apply elem_of_nil in Ha. }
  destruct (num_lt (Int (V a)) bs) eqn:Hlt.
  - right. destruct (IH (Int (V a)) (Some a)) as [[-> Hall]|(a2 & -> & Ha2 & Hlt2 & Hall)].
    + exists a. split_and!; [done|left|done|].
      intros a' [ -> |Ha']%elem_of_cons; [lia|].
      specialize (Hall _ Ha'). revert Hall. generalize (V a') (V a). num_solve.
    + exists a2. split_and!; [done|by right| |].
      * revert Hlt Hlt2. generalize (V a2) (V a). num_solve.
      * intros a' [ -> |Ha']%elem_of_cons; [|by apply Hall].
        revert Hlt2. generalize (V a2) (V a). num_solve.
  - destruct (IH bs bm) as [[-> Hall]|(a2 & -> & Ha2 & Hlt2 & Hall)].
    + left. split; [done|].
      intros a' [ -> |Ha']%elem_of_cons; [done|by apply Hall].
    + right. exists a2. split_and!; [done|by right|done|].
      intros a' [ -> |Ha']%elem_of_cons; [|by apply Hall].
      revert Hlt Hlt2. generalize (V a2) (V a). num_solve.
Qed.

(** With children evaluated within bounds, the pruned loop of the root
    chooses as the unpruned one does. *)
Lemma root_max_loop_spec child b V acts :
  Forall (child_ok child b V) acts →
  ∀ bs bm, num_lt bs PosInf = true →
    root_max_loop child b acts bs bm bs = Ok (pick_max V acts bs bm).
Proof.
  induction 1 as [|a acts (b' & Hres & Hchild) _ IH]; intros bs bm Hbs; [done|].
  cbn [root_max_loop pick_max]. rewrite Hres. cbn [mbind res_bind].
  destruct (Hchild bs PosInf Hbs) as (s & -> & Hs). cbn [mbind res_bind].
  destruct (root_max_step _ _ _ Hbs Hs) as [<- Hup].
  destruct (num_lt bs s) eqn:Hlt; [|by apply IH].
  destruct (Hup eq_refl) as [-> ->]. by apply IH.
Qed.

Lemma root_min_loop_spec child b V acts :
  Forall (child_ok child b V) acts →
  ∀ bs bm, num_lt NegInf bs = true →
    root_min_loop child b acts bs bm bs = Ok (pick_min V acts bs bm).
Proof.
  induction 1 as [|a acts (b' & Hres & Hchild) _ IH]; intros bs bm Hbs; [done|].
  cbn [root_min_loop pick_min]. rewrite Hres. cbn [mbind res_bind].
  destruct (Hchild NegInf bs Hbs) as (s & -> & Hs). cbn [mbind res_bind].
  destruct (root_min_step _ _ _ Hbs Hs) as [<- Hup].
  destruct (num_lt s bs) eqn:Hlt; [|by apply IH].
  destruct (Hup eq_refl) as [-> ->]. by apply IH.
Qed.

(** ** The search raises no exception *)

Lemma num_max_int v z : v ≠ PosInf → ∃ z', num_max v (Int z) = Int z'.
Proof.
  intros Hv. unfold num_max.
  destruct v; simpl; [eauto|case_bool_decide; eauto|done].
Qed.

Lemma num_min_int v z : v ≠ NegInf → ∃ z', num_min v (Int z) = Int z'.
Proof.
  intros Hv. unfold num_min.
  destruct v; simpl; [done|case_bool_decide; eauto|eauto].
Qed.

(** A visit of [actions(board)] meets exactly the empty cells. *)
Lemma iter_actions (iter : gset move → list move) b a :
  (∀ S, iter S ≡ₚ elements S) →
  a ∈ iter (actions b) ↔ a ∈ actions_list b.
Proof. intros Hiter. by rewrite Hiter, elem_of_elements, actions_spec. Qed.

Lemma max_loop_safe F child b acts :
  Forall (child_safe F child b) acts →
  ∀ v lo hi, v ≠ PosInf →
    (∃ r, max_loop child b acts v lo hi = Ok r
          ∧ ((∃ z, v = Int z) ∨ acts ≠ [] → ∃ z, r = Int z))
    ∨ (F ∧ max_loop child b acts v lo hi = OutOfFuel).
Proof.
  induction 1 as [|a acts (b' & Hres & Hchild) _ IH]; intros v lo hi Hv.
  - left. exists v. split; [done|]. by intros [?|?].
  - simpl. rewrite Hres. simpl.
    destruct (Hchild lo hi) as [[z ->]|[HF ->]]; [|by right].
    simpl. destruct (num_max_int v z Hv) as [z' ->].
    destruct (num_le hi (Int z')); [left; eauto|].
    destruct (IH (Int z') (num_max lo (Int z')) hi) as [(r & -> & Hr)|?];
      [done| |by right].
    left. exists r. split; [done|]. intros _. apply Hr. eauto.
Qed.

Lemma min_loop_safe F child b acts :
  Forall (child_safe F child b) acts →
  ∀ v lo hi, v ≠ NegInf →
    (∃ r, min_loop child b acts v lo hi = Ok r
          ∧ ((∃ z, v = Int z) ∨ acts ≠ [] → ∃ z, r = Int z))
    ∨ (F ∧ min_loop child b acts v lo hi = OutOfFuel).
Proof.
  induction 1 as [|a acts (b' & Hres & Hchild) _ IH]; intros v lo hi Hv.
  - left. exists v. split; [done|]. by intros [?|?].
  - simpl. rewrite Hres. simpl.
    destruct (Hchild lo hi) as [[z ->]|[HF ->]]; [|by right].
    simpl. destruct (num_min_int v z Hv) as [z' ->].
    destruct (num_le (Int z') lo); [left; eauto|].
    destruct (IH (Int z') lo (num_min hi (Int z'))) as [(r & -> & Hr)|?];
      [done| |by right].
    left. exists r. split; [done|]. intros _. apply Hr. eauto.
Qed.

Lemma root_max_loop_safe F child b acts :
  Forall (child_safe F child b) acts →
  ∀ bs bm lo,
    (∃ r, root_max_loop child b acts bs bm lo = Ok r
          ∧ (is_Some bm ∨ (bs = NegInf ∧ acts ≠ []) → is_Some r))
    ∨ (F ∧ root_max_loop child b acts bs bm lo = OutOfFuel).
Proof.
  induction 1 as [|a acts (b' & Hres & Hchild) _ IH]; intros bs bm lo.
  - left. exists bm. split; [done|]. by intros [?|[_ ?]].
  - simpl. rewrite Hres. simpl.
    destruct (Hchild lo PosInf) as [[z ->]|[HF ->]]; [|by right].
    cbn [mbind res_bind]. destruct (num_lt bs (Int z)) eqn:Hlt.
    + destruct (IH (Int z) (Some a) (num_max lo (Int z)))
        as [(r & -> & Hr)|?]; [|by right].
      left. exists r. split; [done|]. intros _. apply Hr. left. eauto.
    + destruct (IH bs bm lo) as [(r & -> & Hr)|?]; [|by right].
      left. exists r. split; [done|]. intros [?|[-> _]]; [auto|done].
Qed.

Lemma root_min_loop_safe F child b acts :
  Forall (child_safe F child b) acts →
  ∀ bs bm hi,
    (∃ r, root_min_loop child b acts bs bm hi = Ok r
          ∧ (is_Some bm ∨ (bs = PosInf ∧ acts ≠ []) → is_Some r))
    ∨ (F ∧ root_min_loop child b acts bs bm hi = OutOfFuel).
Proof.
  induction 1 as [|a acts (b' & Hres & Hchild) _ IH]; intros bs bm hi.
  - left. exists bm. split; [done|]. by intros [?|[_ ?]].
  - simpl. rewrite Hres. simpl.
    destruct (Hchild NegInf hi) as [[z ->]|[HF ->]]; [|by right].
    cbn [mbind res_bind]. destruct (num_lt (Int z) bs) eqn:Hlt.
    + destruct (IH (Int z) (Some a) (num_min hi (Int z)))
        as [(r & -> & Hr)|?]; [|by right].
      left. exists r. split; [done|]. intros _. apply Hr. left. eauto.
    + destruct (IH bs bm hi) as [(r & -> & Hr)|?]; [|by right].
      left. exists r. split; [done|]. intros [?|[-> _]]; [auto|done].
Qed.

Section Safety.

Context (iter : gset move → list move).
Hypothesis iter_elements : ∀ S, iter S ≡ₚ elements S.

(** On every 3x3 board [max_value] and [min_value] return an integer score;
    the model runs out of fuel only when it has no more fuel than the board
    has empty cells. *)
Lemma value_safe fuel :
  ∀ b lo hi, wf_board b →
    returns_int (fuel ≤ empties b) (max_value iter fuel b lo hi)
    ∧ returns_int (fuel ≤ empties b) (min_value iter fuel b lo hi).
Proof.
  induction fuel as [|fuel IH]; intros b lo hi Hwf.
  { split; right; (split; [lia|done]). }
  simpl. destruct (terminal b) eqn:Hterm.
  { split; left; eauto. }
  destruct (not_terminal_action _ Hwf Hterm) as [a0 Ha0].
  assert (iter (actions b) ≠ []) as Hacts.
  { intros Hnil. apply (iter_actions iter _ _ iter_elements) in Ha0.
    rewrite Hnil in Ha0. by apply elem_of_nil in Ha0. }
  assert (Forall (child_safe (S fuel ≤ empties b) (min_value iter fuel) b)
                 (iter (actions b))
          ∧ Forall (child_safe (S fuel ≤ empties b) (max_value iter fuel) b)
                   (iter (actions b))) as [Hmin Hmax].
  { split; apply Forall_forall; intros a Ha;
      apply (iter_actions iter _ _ iter_elements) in Ha;
      (exists (after b a); split; [by apply result_legal|]);
      intros lo' hi';
      pose proof (empties_after _ _ Hwf Ha) as Hemp;
      destruct (IH (after b a) lo' hi' (wf_after _ a Hwf))
        as [[HX|[? HX]] [HO|[? HO]]];
      try (by left); right; (split; [lia|done]). }
  split.
  - destruct (max_loop_safe _ _ _ _ Hmin NegInf lo hi) as [(r & -> & Hr)|?];
      [done| |by right].
    left. destruct Hr as [z ->]; [by right|]. eauto.
  - destruct (min_loop_safe _ _ _ _ Hmax PosInf lo hi) as [(r & -> & Hr)|?];
      [done| |by right].
    left. destruct Hr as [z ->]; [by right|]. eauto.
Qed.

(** [minimax] returns a move on a board that is not terminal and none on a
    terminal one; the model runs out of fuel only when it has less fuel than
    the board has empty cells. *)
Lemma minimax_safe fuel b :
  wf_board b →
  (∃ r, minimax iter fuel b = Ok r ∧ (r = None ↔ terminal b = true))
  ∨ (fuel < empties b ∧ minimax iter fuel b = OutOfFuel).
Proof.
  intros Hwf. unfold minimax. destruct (terminal b) eqn:Hterm.
  { left. by exists None. }
  destruct (not_terminal_action _ Hwf Hterm) as [a0 Ha0].
  assert (iter (actions b) ≠ []) as Hacts.
  { intros Hnil. apply (iter_actions iter _ _ iter_elements) in Ha0.
    rewrite Hnil in Ha0. by apply elem_of_nil in Ha0. }
  assert (Forall (child_safe (fuel < empties b) (min_value iter fuel) b)
                 (iter (actions b))
          ∧ Forall (child_safe (fuel < empties b) (max_value iter fuel) b)
                   (iter (actions b))) as [Hmin Hmax].
  { split; apply Forall_forall; intros a Ha;
      apply (iter_actions iter _ _ iter_elements) in Ha;
      (exists (after b a); split; [by apply result_legal|]);
      intros lo' hi';
      pose proof (empties_after _ _ Hwf Ha) as Hemp;
      destruct (value_safe fuel (after b a) lo' hi' (wf_after _ a Hwf))
        as [[HX|[? HX]] [HO|[? HO]]];
      try (by left); right; (split; [lia|done]). }
  destruct (player b).
  - destruct (root_max_loop_safe _ _ _ _ Hmin NegInf None NegInf)
      as [(r & -> & Hr)|?]; [|by right].
    left. exists r. split; [done|]. destruct Hr as [a ->]; [by right|].
    split; [done|congruence].
  - destruct (root_min_loop_safe _ _ _ _ Hmax PosInf None PosInf)
      as [(r & -> & Hr)|?]; [|by right].
    left. exists r. split; [done|]. destruct Hr as [a ->]; [by right|].
    split; [done|congruence].
Qed.

End Safety.

(** ** The pruned search against the unpruned value *)

Lemma unpruned_value_terminal b :
  terminal b = true → unpruned_value b = utility b.
Proof.
  intros Hterm. unfold unpruned_value.
  destruct (empties b); simpl; [done|by rewrite Hterm].
Qed.

Section Pruning.

Context (iter : gset move → list move).
Hypothesis iter_elements : ∀ S, iter S ≡ₚ elements S.

(** On a board of legal play, [max_value] (when X is to move) and
    [min_value] (when O is to move) return the unpruned value within the
    bounds of their window. *)
Lemma value_spec fuel :
  ∀ b lo hi, wf_board b → turn_ok b → empties b < fuel →
    num_lt lo hi = true →
    (player b = X →
     ∃ v, max_value iter fuel b lo hi = Ok v
          ∧ bounds lo hi v (unpruned_value b))
    ∧ (player b = O →
       ∃ v, min_value iter fuel b lo hi = Ok v
            ∧ bounds lo hi v (unpruned_value b)).
Proof.
  induction fuel as [|fuel IH]; intros b lo hi Hwf Hturn Hfuel Hw; [lia|].
  assert (∀ p, player b = p → terminal b = false →
            Forall (child_ok (match p with
                              | X => min_value iter fuel
                              | O => max_value iter fuel
                              end) b (λ a, unpruned_value (after b a)))
                   (iter (actions b))) as Hchildren.
  { intros p Hp Hterm. apply Forall_forall. intros a Ha%(iter_actions iter _ _ iter_elements).
    exists (after b a). split; [by apply result_legal|].
    intros lo' hi' Hw'.
    destruct (turn_after _ _ Hwf Hturn Ha) as [Hturn' Hplayer].
    pose proof (empties_after _ _ Hwf Ha) as Hemp.
    destruct (IH (after b a) lo' hi') as [HX HO];
      [by apply wf_after|done|lia|done|].
    rewrite Hp in Hplayer.
    destruct p, (player (after b a)) eqn:Hp'; try done; auto. }
  split; intros Hp; simpl.
  - destruct (terminal b) eqn:Hterm.
    { eexists. split; [done|]. rewrite (unpruned_value_terminal _ Hterm).
      apply bounds_exact. }
    destruct (max_loop_spec _ _ _ _ (Hchildren X Hp eq_refl) NegInf lo hi)
      as (r & -> & _ & H1 & H2 & H3); [apply num_le_NegInf|done|].
    exists r. split; [done|].
    destruct (unpruned_value_best _ Hwf Hterm) as [(a0 & Ha0 & Hbest) Hall].
    rewrite Hp in Hall. apply (iter_actions iter _ _ iter_elements) in Ha0. split_and!.
    + intros Hle. rewrite <- Hbest. by apply H1.
    + intros Hlo Hhi. destruct (H2 Hlo Hhi) as [Hle (a1 & Ha1 & ->)].
      f_equal. apply (iter_actions iter _ _ iter_elements) in Ha1.
      specialize (Hle _ Ha0). apply num_le_Int in Hle.
      specialize (Hall _ Ha1). lia.
    + intros Hhi. destruct (H3 Hhi) as (a1 & Ha1%(iter_actions iter _ _ iter_elements) & Hle).
      eapply num_le_Int_r; [done|]. by apply Hall.
  - destruct (terminal b) eqn:Hterm.
    { eexists. split; [done|]. rewrite (unpruned_value_terminal _ Hterm).
      apply bounds_exact. }
    destruct (min_loop_spec _ _ _ _ (Hchildren O Hp eq_refl) PosInf lo hi)
      as (r & -> & _ & H1 & H2 & H3); [apply num_le_PosInf|done|].
    exists r. split; [done|].
    destruct (unpruned_value_best _ Hwf Hterm) as [(a0 & Ha0 & Hbest) Hall].
    rewrite Hp in Hall. apply (iter_actions iter _ _ iter_elements) in Ha0. split_and!.
    + intros Hle. destruct (H3 Hle) as (a1 & Ha1%(iter_actions iter _ _ iter_elements) & Hle1).
      eapply num_le_Int_l; [done|]. by apply Hall.
    + intros Hlo Hhi. destruct (H2 Hlo Hhi) as [Hle (a1 & Ha1 & ->)].
      f_equal. apply (iter_actions iter _ _ iter_elements) in Ha1.
      specialize (Hle _ Ha0). apply num_le_Int in Hle.
      specialize (Hall _ Ha1). lia.
    + intros Hhi. rewrite <- Hbest. by apply H1.
Qed.

(** The children of a board of legal play, as the root loops need them. *)
Lemma root_children fuel b :
  wf_board b → turn_ok b → terminal b = false → empties b ≤ fuel →
  Forall (child_ok (match player b with
                    | X => min_value iter fuel
                    | O => max_value iter fuel
                    end) b (λ a, unpruned_value (after b a)))
         (iter (actions b)).
Proof.
  intros Hwf Hturn Hterm Hfuel. apply Forall_forall.
  intros a Ha%(iter_actions iter _ _ iter_elements).
  exists (after b a). split; [by apply result_legal|].
  intros lo hi Hw.
  destruct (turn_after _ _ Hwf Hturn Ha) as [Hturn' Hplayer].
  pose proof (empties_after _ _ Hwf Ha) as Hemp.
  destruct (value_spec fuel (after b a) lo hi) as [HX HO];
    [by apply wf_after|done|lia|done|].
  destruct (player b), (player (after b a)) eqn:Hp'; try done; auto.
Qed.

(** On a board of legal play [minimax] returns the choice of the unpruned
    search. *)
Lemma minimax_unpruned fuel b :
  wf_board b → turn_ok b → empties b ≤ fuel →
  minimax iter fuel b = Ok (unpruned_minimax iter b).
Proof.
  intros Hwf Hturn Hfuel. unfold minimax, unpruned_minimax.
  destruct (terminal b) eqn:Hterm; [done|].
  pose proof (root_children fuel b Hwf Hturn Hterm Hfuel) as Hchildren.
  destruct (player b).
  - by apply root_max_loop_spec.
  - by apply root_min_loop_spec.
Qed.

(** The choice of the unpruned search is a legal move that attains the
    unpruned value. *)
Lemma unpruned_minimax_best b :
  wf_board b → terminal b = false →
  ∃ a, unpruned_minimax iter b = Some a ∧ a ∈ actions b
       ∧ unpruned_value (after b a) = unpruned_value b.
Proof.
  intros Hwf Hterm. unfold unpruned_minimax. rewrite Hterm.
  destruct (unpruned_value_best _ Hwf Hterm) as [(a0 & Ha0 & Hbest) Hall].
  pose proof Ha0 as Ha0'. apply (iter_actions iter _ _ iter_elements) in Ha0'.
  destruct (player b).
  - destruct (pick_max_spec (λ a, unpruned_value (after b a))
                (iter (actions b)) NegInf None)
      as [[_ Hnone]|(a & -> & Ha & _ & Hmax)].
    { by specialize (Hnone _ Ha0'). }
    exists a. split_and!; [done|by apply actions_spec, (iter_actions iter _ _ iter_elements)|].
    apply (iter_actions iter _ _ iter_elements) in Ha. specialize (Hall _ Ha).
    specialize (Hmax _ Ha0'). simpl in Hmax. lia.
  - destruct (pick_min_spec (λ a, unpruned_value (after b a))
                (iter (actions b)) PosInf None)
      as [[_ Hnone]|(a & -> & Ha & _ & Hmin)].
    { by specialize (Hnone _ Ha0'). }
    exists a. split_and!; [done|by apply actions_spec, (iter_actions iter _ _ iter_elements)|].
    apply (iter_actions iter _ _ iter_elements) in Ha. specialize (Hall _ Ha).
    specialize (Hmin _ Ha0'). simpl in Hmin. lia.
Qed.

End Pruning.

(** ** Theorems *)

(** The position [xxoo] arises in legal play. *)
Lemma reachable_xxoo : reachable xxoo.
Proof.
  assert (reachable [[Some X; None; None]; [None; None; None];
                     [None; None; None]]) as H1.
  { by apply (reach_move initial_state (0, 0)%Z); [constructor|..]. }
  assert (reachable [[Some X; None; None]; [Some O; None; None];
                     [None; None; None]]) as H2.
  { by apply (reach_move _ (1, 0)%Z _ H1). }
  assert (reachable [[Some X; Some X; None]; [Some O; None; None];
                     [None; None; None]]) as H3.
  { by apply (reach_move _ (0, 1)%Z _ H2). }
  by apply (reach_move _ (1, 1)%Z _ H3).
Qed.

(** C3: [minimax] returns none exactly on a terminal board; on a board of
    legal play that is not terminal it returns a legal move after which the
    unpruned, full-depth minimax value is the value of the board itself,
    that is the best value the player to move can reach; and it returns the
    very move the unpruned search chooses.  This holds for every order in
    which the moves are visited. *)
Theorem minimax_optimal iter b fuel :
  (∀ S, iter S ≡ₚ elements S) →
  9 ≤ fuel →
  (wf_board b → (minimax iter fuel b = Ok None ↔ terminal b = true))
  ∧ (reachable b → terminal b = false →
     ∃ a, minimax iter fuel b = Ok (Some a)
          ∧ a ∈ actions b
          ∧ result b a = Ok (after b a)
          ∧ unpruned_value (after b a) = unpruned_value b
          ∧ (∀ a', a' ∈ actions b →
               match player b with
               | X => (unpruned_value (after b a') ≤ unpruned_value (after b a))%Z
               | O => (unpruned_value (after b a) ≤ unpruned_value (after b a'))%Z
               end)
          ∧ unpruned_minimax iter b = Some a).
Proof.
  intros Hiter Hfuel. pose proof (empties_le_9 b) as Hemp. split.
  - intros Hwf.
    destruct (minimax_safe iter Hiter fuel b Hwf) as [(r & -> & Hr)|[? _]];
      [|lia].
    rewrite <- Hr. split; congruence.
  - intros [Hwf Hturn]%reachable_wf_turn Hterm.
    rewrite (minimax_unpruned iter Hiter fuel b Hwf Hturn) by lia.
    destruct (unpruned_minimax_best iter Hiter b Hwf Hterm)
      as (a & -> & Ha & Hbest).
    exists a. repeat split; try done.
    + by apply result_legal, actions_spec.
    + intros a' Ha'%actions_spec. rewrite Hbest.
      by apply (unpruned_value_best _ Hwf Hterm).
Qed.

Lemma minimax_optimal_witness :
  (minimax elements 9 xxoo = Ok None ↔ terminal xxoo = true)
  ∧ ∃ a, minimax elements 9 xxoo = Ok (Some a)
         ∧ a ∈ actions xxoo
         ∧ result xxoo a = Ok (after xxoo a)
         ∧ unpruned_value (after xxoo a) = unpruned_value xxoo
         ∧ (∀ a', a' ∈ actions xxoo →
              match player xxoo with
              | X => (unpruned_value (after xxoo a')
                      ≤ unpruned_value (after xxoo a))%Z
              | O => (unpruned_value (after xxoo a)
                      ≤ unpruned_value (after xxoo a'))%Z
              end)
         ∧ unpruned_minimax elements xxoo = Some a.
Proof.
  destruct (minimax_optimal elements xxoo 9) as [Hnone Hmove].
  - intros S. reflexivity.
  - lia.
  - split.
    + apply Hnone. split; [reflexivity|]. repeat constructor.
    + apply Hmove; [apply reachable_xxoo|vm_compute; reflexivity].
Defined.

(** C7: [result] raises the invalid-move error exactly when the coordinate
    is out of the 3x3 range or the cell is occupied; whether it raises or
    not, every object of the heap, and so the board passed in, is as before;
    and on success the reference returned denotes a board of new objects
    that holds the mark of the player to move at [(i, j)] and agrees with the
    board passed in at every other cell. *)
Theorem result_heap_spec (h : gmap nat pyobj) bl b i j :
  read_board h bl = Some b →
  wf_board b →
  ∃ h' r, result_heap h bl (i, j) = (h', r)
    ∧ (r = Raise ValueError
       ↔ (i < 0 ∨ i >= 3 ∨ j < 0 ∨ j >= 3)%Z ∨ get b i j ≠ None)
    ∧ (∀ l, l ∈ dom h → h' !! l = h !! l)
    ∧ read_board h' bl = Some b
    ∧ (r ≠ Raise ValueError →
       ∃ nb b', r = Ok nb ∧ h !! nb = None
         ∧ read_board h' nb = Some b'
         ∧ result b (i, j) = Ok b'
         ∧ get b' i j = Some (player b)
         ∧ ∀ i' j', (0 ≤ i' < 3)%Z → (0 ≤ j' < 3)%Z → (i', j') ≠ (i, j) →
             get b' i' j' = get b i' j').
Proof.
  intros Hread Hwf.
  destruct (decide ((i < 0 ∨ i >= 3 ∨ j < 0 ∨ j >= 3)%Z ∨ get b i j ≠ None))
    as [Hbad|Hgood].
  - exists h, (Raise ValueError).
    pose proof (proj2 (result_raises b i j) Hbad) as Hres.
    unfold result in Hres. unfold result_heap. rewrite Hread.
    destruct (_ || _); [|done].
    split_and!; [done|done|done|done|done].
  - assert ((0 ≤ i < 3)%Z ∧ (0 ≤ j < 3)%Z ∧ get b i j = None)
      as (Hi & Hj & Hget).
    { split; [lia|]. split; [lia|]. destruct (get b i j); [|done].
      exfalso. apply Hgood. by right. }
    destruct (result_heap_legal h bl b i j Hread Hwf Hi Hj Hget)
      as (h' & nb & -> & Hnb & Hframe & Hnew).
    exists h', (Ok nb). split_and!; [done| |done| |].
    + split; [done|]. intros Hbad. by destruct Hgood.
    + by eapply read_board_frame.
    + intros _. exists nb, (set_cell b i j (player b)).
      assert ((i, j) ∈ coords) as Hc by (by apply coords_spec).
      split_and!; [done|done|done| | |].
      * apply (result_legal b (i, j)). by apply actions_list_spec.
      * rewrite get_set_cell by done. by rewrite decide_True.
      * intros i' j' Hi' Hj' Hne. rewrite get_set_cell; [|done|done|].
        -- by rewrite decide_False.
        -- by apply coords_spec.
Qed.

Lemma result_heap_spec_witness :
  ∃ h' r, result_heap empty_board_heap 3 (1, 1)%Z = (h', r)
    ∧ (r = Raise ValueError
       ↔ (1 < 0 ∨ 1 >= 3 ∨ 1 < 0 ∨ 1 >= 3)%Z ∨ get initial_state 1 1 ≠ None)
    ∧ (∀ l, l ∈ dom empty_board_heap → h' !! l = empty_board_heap !! l)
    ∧ read_board h' 3 = Some initial_state
    ∧ (r ≠ Raise ValueError →
       ∃ nb b', r = Ok nb ∧ empty_board_heap !! nb = None
         ∧ read_board h' nb = Some b'
         ∧ result initial_state (1, 1)%Z = Ok b'
         ∧ get b' 1 1 = Some (player initial_state)
         ∧ ∀ i' j', (0 ≤ i' < 3)%Z → (0 ≤ j' < 3)%Z →
             (i', j') ≠ (1, 1)%Z →
             get b' i' j' = get initial_state i' j').
Proof.
  apply (result_heap_spec empty_board_heap 3 initial_state 1 1).
  - vm_compute. reflexivity.
  - split; [reflexivity|]. repeat constructor.
Defined.

(** C8: on every 3x3 board [minimax] and its helpers apply [result] only to
    moves of [actions] of the board they expand, which [result] accepts: the
    search raises no exception, whatever the fuel, and returns with fuel for
    nine plies. *)
Theorem minimax_never_invalid iter b fuel :
  (∀ S, iter S ≡ₚ elements S) →
  wf_board b →
  (∀ e, minimax iter fuel b ≠ Raise e)
  ∧ (9 ≤ fuel → ∃ r, minimax iter fuel b = Ok r)
  ∧ (∀ a, a ∈ actions b → result b a = Ok (after b a))
  ∧ (∀ lo hi e, max_value iter fuel b lo hi ≠ Raise e
                ∧ min_value iter fuel b lo hi ≠ Raise e).
Proof.
  intros Hiter Hwf. pose proof (empties_le_9 b) as Hemp. split_and!.
  - intros e. by destruct (minimax_safe iter Hiter fuel b Hwf)
      as [(r & -> & _)|[_ ->]].
  - intros Hfuel. destruct (minimax_safe iter Hiter fuel b Hwf)
      as [(r & -> & _)|[? _]]; [eauto|lia].
  - intros a Ha%actions_spec. by apply result_legal.
  - intros lo hi e.
    destruct (value_safe iter Hiter fuel b lo hi Hwf)
      as [[[? ->]|[_ ->]] [[? ->]|[_ ->]]]; done.
Qed.

Lemma minimax_never_invalid_witness :
  (∀ e, minimax elements 9 initial_state ≠ Raise e)
  ∧ (9 ≤ 9 → ∃ r, minimax elements 9 initial_state = Ok r)
  ∧ (∀ a, a ∈ actions initial_state →
          result initial_state a = Ok (after initial_state a))
  ∧ (∀ lo hi e, max_value elements 9 initial_state lo hi ≠ Raise e
                ∧ min_value elements 9 initial_state lo hi ≠ Raise e).
Proof.
  apply (minimax_never_invalid elements initial_state 9).
  - intros S. reflexivity.
  - split; [reflexivity|]. repeat constructor.
Defined.

(** ** Lines and the winner *)

Lemma three_spec a b c :
  three a b c = true ↔ ∃ m, a = Some m ∧ b = Some m ∧ c = Some m.
Proof.
  unfold three, EMPTY. rewrite !andb_true_iff, !bool_decide_eq_true. split.
  - intros [[-> ->] Hc]. destruct c as [m|]; [eauto|done].
  - by intros (m & -> & -> & ->).
Qed.

Lemma three_false a b c m :
  three a b c = false →
  bool_decide (a = Some m) && bool_decide (b = Some m)
  && bool_decide (c = Some m) = false.
Proof.
  intros H. apply not_true_iff_false. intros Ht.
  apply not_true_iff_false in H. apply H, three_spec.
  rewrite !andb_true_iff, !bool_decide_eq_true in Ht. naive_solver.
Qed.

Ltac pick_line :=
  first [ reflexivity
        | apply orb_true_iff;
          first [ left; rewrite !andb_true_iff, !bool_decide_eq_true; done
                | right; pick_line ] ].

(** [winner] returns none when no line holds three equal marks, and else a
    mark that holds a line. *)
Lemma winner_cases b :
  wf_board b →
  (winner b = None ∧ ∀ m, has_line b m = false)
  ∨ (∃ m, winner b = Some m ∧ has_line b m = true).
Proof.
  intros (c00 & c01 & c02 & c10 & c11 & c12 & c20 & c21 & c22 & ->)%wf_board_shape.
  unfold winner, has_line, lines, line_of.
  change (seqZ 0 3) with [0; 1; 2]%Z.
  cbn -[three bool_decide get].
  repeat match goal with
  | |- context [get ?b ?i ?j] =>
      let v := eval cbv in (get b i j) in change (get b i j) with v
  end.
  repeat match goal with
  | |- context [if three ?a ?b ?c then _ else _] =>
      let H := fresh "H" in
      destruct (three a b c) eqn:H;
      [apply three_spec in H as (w & -> & -> & ->);
       right; exists w; split; [reflexivity|pick_line] | ];
      cbn -[three bool_decide]
  end.
  left. split; [done|]. intros m.
  repeat match goal with
  | H : three _ _ _ = false |- _ => rewrite (three_false _ _ _ m H); clear H
  end.
  reflexivity.
Qed.

Lemma lines_coords l :
  l ∈ lines → l.1.1 ∈ coords ∧ l.1.2 ∈ coords ∧ l.2 ∈ coords.
Proof.
  assert (Forall (λ l : move * move * move,
                    l.1.1 ∈ coords ∧ l.1.2 ∈ coords ∧ l.2 ∈ coords) lines)
    as Hall by (apply (bool_decide_unpack _); vm_compute; exact I).
  rewrite Forall_forall in Hall. apply Hall.
Qed.

Lemma has_line_spec b m :
  has_line b m = true ↔ ∃ l, l ∈ lines ∧ line_of b m l = true.
Proof.
  unfold has_line. rewrite existsb_exists.
  split; intros (l & Hl & Hline); exists l; split; try done;
    by apply list_elem_of_In.
Qed.

(** A legal move completes lines of the mover only. *)
Lemma has_line_after b a m :
  wf_board b → a ∈ actions_list b →
  has_line (after b a) m = true → m = player b ∨ has_line b m = true.
Proof.
  intros Hwf Ha Hline.
  destruct (decide (m = player b)) as [|Hm]; [by left|right].
  apply has_line_spec in Hline as (l & Hl & Hline).
  apply has_line_spec. exists l. split; [done|].
  destruct (lines_coords _ Hl) as (Hp & Hq & Hr).
  pose proof (actions_list_coords _ _ Ha) as Hc.
  unfold line_of in *. rewrite !andb_true_iff, !bool_decide_eq_true in *.
  rewrite !(get_after _ _ _ Hwf Hc) in Hline by done.
  repeat case_decide; naive_solver.
Qed.

(** [result] returns a board only for a move of [actions], and then the
    board [after] it. *)
Lemma result_ok_inv b a b' :
  result b a = Ok b' → a ∈ actions_list b ∧ b' = after b a.
Proof.
  intros Hres. destruct a as [i j].
  assert ((i, j) ∈ actions_list b) as Ha.
  { apply actions_list_spec.
    destruct (decide ((i < 0 ∨ i >= 3 ∨ j < 0 ∨ j >= 3)%Z
                      ∨ get b i j ≠ None)) as [Hbad|Hgood].
    - apply result_raises in Hbad. congruence.
    - split; [lia|]. destruct (get b i j); [|done]. exfalso. apply Hgood.
      by right. }
  split; [done|]. rewrite (result_legal _ _ Ha) in Hres. by injection Hres.
Qed.

Lemma not_terminal_no_line b m :
  wf_board b → terminal b = false → has_line b m = false.
Proof.
  intros Hwf Hterm.
  destruct (winner_cases _ Hwf) as [[_ Hno]|(w & Hw & _)]; [done|].
  unfold terminal in Hterm. rewrite Hw in Hterm.
  by rewrite bool_decide_eq_true_2 in Hterm.
Qed.

(** In legal play only the player who moved last holds a line. *)
Lemma reachable_line b m :
  reachable b → has_line b m = true → player b ≠ m.
Proof.
  intros Hb. revert m.
  induction Hb as [|b a b' Hb _ Hterm Hres]; intros m Hline.
  - by destruct m.
  - destruct (reachable_wf_turn _ Hb) as [Hwf Hturn].
    apply result_ok_inv in Hres as [Ha ->].
    destruct (has_line_after _ _ _ Hwf Ha Hline) as [ -> |Hold].
    + by apply turn_after.
    + by rewrite (not_terminal_no_line _ _ Hwf Hterm) in Hold.
Qed.

(** ** The range of the scores *)

Lemma utility_range b : (-1 ≤ utility b ≤ 1)%Z.
Proof. unfold utility. repeat case_bool_decide; lia. Qed.

Lemma best_of_range p d vs :
  (-1 ≤ d ≤ 1)%Z → Forall (λ v, -1 ≤ v ≤ 1)%Z vs →
  (-1 ≤ best_of p d vs ≤ 1)%Z.
Proof.
  destruct vs as [|v vs]; [done|]. intros _ [Hv Hvs]%Forall_cons. simpl.
  induction Hvs as [|w vs Hw _ IH]; simpl; [done|]. destruct p; lia.
Qed.

Lemma unpruned_value_range b : (-1 ≤ unpruned_value b ≤ 1)%Z.
Proof.
  unfold unpruned_value. generalize (empties b). intros n. revert b.
  induction n as [|n IH]; intros b; simpl; [apply utility_range|].
  destruct (terminal b); [apply utility_range|].
  apply best_of_range; [apply utility_range|].
  apply Forall_fmap, Forall_forall. intros a _. apply IH.
Qed.

Lemma num_max_range v s :
  score_in_range v → score_in_range s → score_in_range (num_max v s).
Proof. unfold num_max. by destruct (num_lt v s). Qed.

Lemma num_min_range v s :
  score_in_range v → score_in_range s → score_in_range (num_min v s).
Proof. unfold num_min. by destruct (num_lt s v). Qed.

Lemma max_loop_range child b acts :
  (∀ b' lo hi s, child b' lo hi = Ok s → score_in_range s) →
  ∀ v lo hi r,
    score_in_range v → max_loop child b acts v lo hi = Ok r →
    score_in_range r.
Proof.
  intros Hchild. induction acts as [|a acts IH]; intros v lo hi r Hv Hr.
  - simpl in Hr. by injection Hr as <-.
  - cbn [max_loop] in Hr.
    destruct (result b a) as [b'| |]; cbn [mbind res_bind] in Hr; try done.
    destruct (child b' lo hi) as [s| |] eqn:Hs; cbn [mbind res_bind] in Hr;
      try done.
    pose proof (num_max_range _ _ Hv (Hchild _ _ _ _ Hs)) as Hmax.
    destruct (num_le hi (num_max v s)); [by injection Hr as <-|].
    by eapply IH.
Qed.

Lemma min_loop_range child b acts :
  (∀ b' lo hi s, child b' lo hi = Ok s → score_in_range s) →
  ∀ v lo hi r,
    score_in_range v → min_loop child b acts v lo hi = Ok r →
    score_in_range r.
Proof.
  intros Hchild. induction acts as [|a acts IH]; intros v lo hi r Hv Hr.
  - simpl in Hr. by injection Hr as <-.
  - cbn [min_loop] in Hr.
    destruct (result b a) as [b'| |]; cbn [mbind res_bind] in Hr; try done.
    destruct (child b' lo hi) as [s| |] eqn:Hs; cbn [mbind res_bind] in Hr;
      try done.
    pose proof (num_min_range _ _ Hv (Hchild _ _ _ _ Hs)) as Hmin.
    destruct (num_le (num_min v s) lo); [by injection Hr as <-|].
    by eapply IH.
Qed.

(** Whatever the board, the order of the visits and the window, an integer
    that [max_value] or [min_value] returns is a utility. *)
Lemma value_in_range iter fuel :
  ∀ b lo hi r,
    (max_value iter fuel b lo hi = Ok r → score_in_range r)
    ∧ (min_value iter fuel b lo hi = Ok r → score_in_range r).
Proof.
  induction fuel as [|fuel IH]; intros b lo hi r; [done|].
  simpl. destruct (terminal b).
  { split; intros [= <-] z [= <-]; apply utility_range. }
  split; intros Hr.
  - apply (max_loop_range (min_value iter fuel) b (iter (actions b))
             (λ b' lo' hi' s, proj2 (IH b' lo' hi' s)) NegInf lo hi r);
      [by intros z|done].
  - apply (min_loop_range (max_value iter fuel) b (iter (actions b))
             (λ b' lo' hi' s, proj1 (IH b' lo' hi' s)) PosInf lo hi r);
      [by intros z|done].
Qed.

(** Inside a window that holds the value, a bounded score is the value. *)
Lemma bounds_inside lo hi v V :
  bounds lo hi v V →
  num_lt lo (Int V) = true → num_lt (Int V) hi = true → v = Int V.
Proof. num_solve. Qed.

Lemma num_lt_trans a b c :
  num_lt a b = true → num_lt b c = true → num_lt a c = true.
Proof. num_solve. Qed.

Lemma full_board_spec b :
  wf_board b →
  forallb (λ c : option mark, bool_decide (c ≠ EMPTY)) (concat b) = true
  ↔ actions b = ∅.
Proof.
  intros Hwf. rewrite (concat_get _ Hwf), forallb_forall. split.
  - intros Hall. apply set_eq. intros a.
    rewrite actions_spec, elem_of_empty. split; [|done]. intros Ha.
    pose proof (actions_list_coords _ _ Ha) as Hc.
    pose proof (actions_list_empty _ _ Ha) as He.
    specialize (Hall (get b a.1 a.2)). rewrite He in Hall.
    assert (bool_decide (None ≠ EMPTY) = true) as Habs; [|done].
    apply Hall, list_elem_of_In, list_elem_of_fmap. eauto.
  - intros Hempty c [a [-> Ha]]%list_elem_of_In%list_elem_of_fmap.
    apply bool_decide_eq_true. intros He.
    assert (a ∈ actions b) as Hin; [|by rewrite Hempty in Hin].
    apply actions_spec. unfold actions_list. by apply list_elem_of_filter.
Qed.

Lemma reachable_xxxoo : reachable xxxoo.
Proof. by apply (reach_move xxoo (0, 2)%Z); [apply reachable_xxoo|..]. Qed.

(** ** Further theorems *)

(** X11: on a 3x3 board [winner] returns a mark only if that mark fills one
    of the eight lines, it returns a mark whenever some mark fills a line,
    and it returns none exactly when neither mark fills a line. *)
Theorem winner_lines b m :
  wf_board b →
  (winner b = Some m → has_line b m = true)
  ∧ (has_line b m = true → winner b ≠ None)
  ∧ (winner b = None ↔ has_line b X = false ∧ has_line b O = false).
Proof.
  intros Hwf. destruct (winner_cases _ Hwf) as [[Hw Hno]|(w & Hw & Hline)].
  - rewrite Hw, !Hno. split_and!; done.
  - rewrite Hw. split_and!.
    + by intros [= <-].
    + done.
    + split; [done|]. intros [HX HO]. destruct w; congruence.
Qed.

Lemma winner_lines_witness :
  (winner xxxoo = Some X → has_line xxxoo X = true)
  ∧ (has_line xxxoo X = true → winner xxxoo ≠ None)
  ∧ (winner xxxoo = None
     ↔ has_line xxxoo X = false ∧ has_line xxxoo O = false).
Proof.
  apply (winner_lines xxxoo X).
  split; [reflexivity|]. repeat constructor.
Defined.

(** X12: on a board of legal play the mark that fills a line is the mark
    [winner] returns, it is the mark of the player who moved last, the other
    mark fills no line, and [utility] is 1 for a line of X and -1 for a line
    of O. *)
Theorem winner_moved_last b m :
  reachable b →
  has_line b m = true →
  winner b = Some m
  ∧ player b ≠ m
  ∧ utility b = (match m with X => 1 | O => -1 end)%Z
  ∧ ∀ m', has_line b m' = true → m' = m.
Proof.
  intros Hb Hline. destruct (reachable_wf_turn _ Hb) as [Hwf _].
  assert (∀ m', has_line b m' = true → m' = m) as Hone.
  { intros m' Hline'. pose proof (reachable_line _ _ Hb Hline).
    pose proof (reachable_line _ _ Hb Hline').
    destruct m, m', (player b); congruence. }
  assert (winner b = Some m) as Hw.
  { destruct (winner_cases _ Hwf) as [[_ Hno]|(w & Hw & Hline')].
    - by rewrite Hno in Hline.
    - by rewrite Hw, (Hone _ Hline'). }
  split_and!; [done|by apply reachable_line| |done].
  unfold utility. rewrite Hw. by destruct m.
Qed.

Lemma winner_moved_last_witness :
  winner xxxoo = Some X
  ∧ player xxxoo ≠ X
  ∧ utility xxxoo = 1%Z
  ∧ ∀ m', has_line xxxoo m' = true → m' = X.
Proof.
  apply (winner_moved_last xxxoo X).
  - apply reachable_xxxoo.
  - reflexivity.
Defined.

(** X13: on a board of legal play [result] with a move of [actions] returns
    a board on which the other player is to move, whose [actions] are those
    of the board before less the move, and which holds the mark of the
    mover at the move. *)
Theorem result_alternates b a :
  reachable b →
  a ∈ actions b →
  ∃ b', result b a = Ok b'
        ∧ player b' ≠ player b
        ∧ actions b' = actions b ∖ {[ a ]}
        ∧ get b' a.1 a.2 = Some (player b).
Proof.
  intros [Hwf Hturn]%reachable_wf_turn Ha%actions_spec.
  pose proof (actions_list_coords _ _ Ha) as Hc.
  exists (after b a). split_and!.
  - by apply result_legal.
  - by apply turn_after.
  - apply set_eq. intros [i j].
    rewrite elem_of_difference, not_elem_of_singleton, !actions_spec.
    rewrite !actions_list_spec, <- coords_spec. split.
    + intros [Hx Hget].
      pose proof (get_after b a (i, j) Hwf Hc Hx) as Hg. simpl in Hg.
      rewrite Hg in Hget. by case_decide.
    + intros [[Hx Hget] Hne]. split; [done|].
      pose proof (get_after b a (i, j) Hwf Hc Hx) as Hg. simpl in Hg.
      rewrite Hg. by rewrite decide_False.
  - rewrite (get_after b a a Hwf Hc Hc). by rewrite decide_True.
Qed.

Lemma result_alternates_witness :
  ∃ b', result xxoo (0, 2)%Z = Ok b'
        ∧ player b' ≠ player xxoo
        ∧ actions b' = actions xxoo ∖ {[ (0, 2)%Z ]}
        ∧ get b' 0 2 = Some (player xxoo).
Proof.
  apply (result_alternates xxoo (0, 2)%Z).
  - apply reachable_xxoo.
  - apply actions_spec, actions_list_spec. split; [lia|reflexivity].
Defined.

(** X14: on a 3x3 board [terminal] is true exactly when a mark fills a line
    or [actions] is empty. *)
Theorem terminal_lines b :
  wf_board b →
  terminal b = true
  ↔ has_line b X = true ∨ has_line b O = true ∨ actions b = ∅.
Proof.
  intros Hwf. unfold terminal.
  rewrite orb_true_iff, bool_decide_eq_true, (full_board_spec _ Hwf).
  destruct (winner_cases _ Hwf) as [[Hw Hno]|(w & Hw & Hline)].
  - rewrite Hw, !Hno. naive_solver.
  - rewrite Hw. split; [|by left]. intros _. destruct w; auto.
Qed.

Lemma terminal_lines_witness :
  terminal xxxoo = true
  ↔ has_line xxxoo X = true ∨ has_line xxxoo O = true ∨ actions xxxoo = ∅.
Proof.
  apply (terminal_lines xxxoo).
  split; [reflexivity|]. repeat constructor.
Defined.

(** X15: on every 3x3 board, for every window and every order of the
    visits, [max_value] and [min_value] return one of the integers -1, 0
    and 1, never an infinity. *)
Theorem value_range iter b fuel lo hi :
  (∀ S, iter S ≡ₚ elements S) →
  wf_board b →
  empties b < fuel →
  (∃ z, max_value iter fuel b lo hi = Ok (Int z) ∧ (-1 ≤ z ≤ 1)%Z)
  ∧ (∃ z, min_value iter fuel b lo hi = Ok (Int z) ∧ (-1 ≤ z ≤ 1)%Z).
Proof.
  intros Hiter Hwf Hfuel.
  destruct (value_safe iter Hiter fuel b lo hi Hwf)
    as [[[z1 H1]|[? _]] [[z2 H2]|[? _]]]; try lia.
  split; [exists z1|exists z2]; (split; [done|]).
  - by apply (proj1 (value_in_range iter fuel b lo hi (Int z1)) H1 z1).
  - by apply (proj2 (value_in_range iter fuel b lo hi (Int z2)) H2 z2).
Qed.

Lemma value_range_witness :
  (∃ z, max_value elements 6 xxoo (Int 5) (Int (-5)) = Ok (Int z)
        ∧ (-1 ≤ z ≤ 1)%Z)
  ∧ (∃ z, min_value elements 6 xxoo (Int 5) (Int (-5)) = Ok (Int z)
          ∧ (-1 ≤ z ≤ 1)%Z).
Proof.
  apply (value_range elements xxoo 6 (Int 5) (Int (-5))).
  - intros S. reflexivity.
  - split; [reflexivity|]. repeat constructor.
  - vm_compute. lia.
Defined.

(** X16: on a 3x3 board where X has moved as often as O or once more, the
    search of the player to move ([max_value] for X, [min_value] for O)
    returns exactly the unpruned value of the board whenever that value
    lies strictly inside the window, so always with the window from minus
    to plus infinity: pruning changes no value. *)
Theorem value_exact_in_window iter b fuel lo hi :
  (∀ S, iter S ≡ₚ elements S) →
  wf_board b →
  turn_ok b →
  empties b < fuel →
  num_lt lo (Int (unpruned_value b)) = true →
  num_lt (Int (unpruned_value b)) hi = true →
  match player b with
  | X => max_value iter fuel b lo hi
  | O => min_value iter fuel b lo hi
  end = Ok (Int (unpruned_value b)).
Proof.
  intros Hiter Hwf Hturn Hfuel Hlo Hhi.
  pose proof (num_lt_trans _ _ _ Hlo Hhi) as Hw.
  destruct (value_spec iter Hiter fuel b lo hi Hwf Hturn Hfuel Hw)
    as [HX HO].
  destruct (player b).
  - destruct (HX eq_refl) as (v & -> & Hv).
    by rewrite (bounds_inside _ _ _ _ Hv Hlo Hhi).
  - destruct (HO eq_refl) as (v & -> & Hv).
    by rewrite (bounds_inside _ _ _ _ Hv Hlo Hhi).
Qed.

Lemma value_exact_in_window_witness :
  match player xxoo with
  | X => max_value elements 6 xxoo NegInf PosInf
  | O => min_value elements 6 xxoo NegInf PosInf
  end = Ok (Int (unpruned_value xxoo)).
Proof.
  apply (value_exact_in_window elements xxoo 6 NegInf PosInf).
  - intros S. reflexivity.
  - split; [reflexivity|]. repeat constructor.
  - left. reflexivity.
  - vm_compute. lia.
  - reflexivity.
  - reflexivity.
Defined.

(** X17: when the player to move on a board of legal play has a move that
    wins at once, [minimax] returns a move after which that player still
    wins under best play: the unpruned value after it is 1 for X and -1 for
    O. *)
Theorem minimax_takes_win iter b fuel a0 :
  (∀ S, iter S ≡ₚ elements S) →
  9 ≤ fuel →
  reachable b →
  terminal b = false →
  a0 ∈ actions b →
  winner (after b a0) = Some (player b) →
  ∃ a, minimax iter fuel b = Ok (Some a)
       ∧ a ∈ actions b
       ∧ unpruned_value (after b a)
         = (match player b with X => 1 | O => -1 end)%Z
       ∧ unpruned_value b
         = (match player b with X => 1 | O => -1 end)%Z.
Proof.
  intros Hiter Hfuel Hb Hterm Ha0%actions_spec Hwin.
  destruct (reachable_wf_turn _ Hb) as [Hwf Hturn].
  pose proof (empties_le_9 b) as Hemp.
  rewrite (minimax_unpruned iter Hiter fuel b Hwf Hturn) by lia.
  destruct (unpruned_minimax_best iter Hiter b Hwf Hterm)
    as (a & -> & Ha & Hbest).
  assert (unpruned_value (after b a0)
          = (match player b with X => 1 | O => -1 end)%Z) as Hval.
  { rewrite unpruned_value_terminal.
    - unfold utility. rewrite Hwin. by destruct (player b).
    - unfold terminal. rewrite Hwin. by rewrite bool_decide_eq_true_2. }
  pose proof (proj2 (unpruned_value_best _ Hwf Hterm) _ Ha0) as Hle.
  pose proof (unpruned_value_range b) as Hrange.
  assert (unpruned_value b = (match player b with X => 1 | O => -1 end)%Z)
    as Hb1 by (destruct (player b); lia).
  exists a. split_and!; [done|done| |done]. by rewrite Hbest.
Qed.

Lemma minimax_takes_win_witness :
  ∃ a, minimax elements 9 xxoo = Ok (Some a)
       ∧ a ∈ actions xxoo
       ∧ unpruned_value (after xxoo a)
         = (match player xxoo with X => 1 | O => -1 end)%Z
       ∧ unpruned_value xxoo
         = (match player xxoo with X => 1 | O => -1 end)%Z.
Proof.
  apply (minimax_takes_win elements xxoo 9 (0, 2)%Z).
  - intros S. reflexivity.
  - lia.
  - apply reachable_xxoo.
  - reflexivity.
  - apply actions_spec, actions_list_spec. split; [lia|reflexivity].
  - reflexivity.
Defined.

End TicTacToe.
